(** * FolderSynchronizer: one-way folder synchronisation (folder_sync.py)

    A shallow embedding of [FolderSynchronizer] and of the part of the
    operating system it talks to.

    - The file system is a finite map from absolute paths (lists of
      components) to entries; the root directory is always present.
    - Paths handed to the primitives are the raw paths the program builds
      with [os.path.join]: they may contain the component ["."], which
      [os.path.relpath] returns for the walked root itself.
    - Every primitive ([os.path.exists], [os.makedirs], [shutil.copy2],
      [shutil.rmtree], [os.remove], [open]) either succeeds or raises one of
      the [OSError] subclasses Python raises on a POSIX system.
    - [hashlib.md5] and the order in which [os.scandir] lists a directory
      are given by the platform, see [Platform].
    - The log sink is an append-only list of records; it lives outside both
      trees and can always be written. *)

From Stdlib Require Import Strings.String Strings.Byte.
From stdpp Require Import base option list strings gmap fin_maps.

Abbreviation path := (list string).

(** ** Data model *)

Inductive entry :=
| File (data : list byte)
| Dir.

Inductive exn :=
| FileNotFoundError (p : path)
| FileExistsError (p : path)
| NotADirectoryError (p : path)
| IsADirectoryError (p : path)
| SameFileError (p q : path).

(** What [log_operation] is called with, one constructor per f-string of the
    source. *)
Inductive record :=
| CreatedReplica (p : path)
| CreatedFolder (p : path)
| CopiedFile (p : path)
| RemovedFolder (p : path)
| RemovedFile (p : path)
| SyncError (e : exn).

Record state := State {
  fs : gmap path entry;
  md5_cache : gmap path string;
  log : list record
}.

Inductive result (A : Type) :=
| Ok (a : A)
| Raise (e : exn)
| Timeout.
Arguments Ok {A} a.
Arguments Raise {A} e.
Arguments Timeout {A}.

(** Computations of the program: they read and write the state and end
    normally, with an exception, or (for the walks) out of fuel. *)
Definition M (A : Type) : Type := state → result A * state.

Definition ret {A} (a : A) : M A := λ st, (Ok a, st).
Definition raise {A} (e : exn) : M A := λ st, (Raise e, st).
Definition timeout {A} : M A := λ st, (Timeout, st).
Definition bind {A B} (m : M A) (k : A → M B) : M B :=
  λ st, match m st with
        | (Ok a, st') => k a st'
        | (Raise e, st') => (Raise e, st')
        | (Timeout, st') => (Timeout, st')
        end.

Notation "'let!' x := m 'in' k" := (bind m (λ x, k))
  (at level 10, x name, m at level 100, k at level 200, only parsing).
Notation "m ;; k" := (bind m (λ _, k))
  (at level 100, k at level 200, right associativity, only parsing).

Fixpoint for_each {A} (l : list A) (body : A → M unit) : M unit :=
  match l with
  | [] => ret tt
  | x :: l' => body x ;; for_each l' body
  end.

(** ** Paths *)

Definition path_str (p : path) : string :=
  String.concat "" (map (λ c, "/" +:+ c) p).

(** [canon] drops the ["."] components; [trailing_dot p] says that [p] ends
    in ["."], which the kernel only resolves when the rest is a directory. *)
Definition canon (p : path) : path := filter (λ c, c ≠ ".") p.
Definition trailing_dot (p : path) : bool := bool_decide (last p = Some ".").
Definition parent (p : path) : path := removelast p.
Definition basename (p : path) : string := default "" (last p).

Fixpoint strip_common (p s : path) : path * path :=
  match p, s with
  | x :: p', y :: s' => if decide (x = y) then strip_common p' s' else (p, s)
  | _, _ => (p, s)
  end.

(** [os.path.relpath p start]. *)
Definition relpath (p start : path) : path :=
  let '(p', s') := strip_common p start in
  match replicate (length s') ".." ++ p' with
  | [] => ["."]
  | r => r
  end.

(** ** The file system *)

Definition entry_at (f : gmap path entry) (p : path) : option entry :=
  match p with
  | [] => Some Dir
  | _ => f !! p
  end.

Definition is_file (o : option entry) : bool :=
  match o with Some (File _) => true | _ => false end.

(** [ENOTDIR] when a proper prefix is a regular file, [ENOENT] otherwise. *)
Definition missing_error (f : gmap path entry) (p : path) : exn :=
  if existsb (λ i, is_file (entry_at f (take i (canon p))))
             (seq 0 (length (canon p)))
  then NotADirectoryError p
  else FileNotFoundError p.

Definition stat (f : gmap path entry) (p : path) : exn + entry :=
  match entry_at f (canon p) with
  | Some Dir => inr Dir
  | Some (File c) =>
      if trailing_dot p then inl (NotADirectoryError p) else inr (File c)
  | None => inl (missing_error f p)
  end.

Definition exists_in (f : gmap path entry) (p : path) : bool :=
  match stat f p with inr _ => true | inl _ => false end.

Definition isdir_in (f : gmap path entry) (p : path) : bool :=
  match stat f p with inr Dir => true | _ => false end.

Definition mkdir_in (f : gmap path entry) (p : path) : exn + gmap path entry :=
  match stat f p with
  | inr _ => inl (FileExistsError p)
  | inl e =>
      if trailing_dot p then inl e
      else match entry_at f (parent (canon p)) with
           | Some Dir => inr (<[canon p := Dir]> f)
           | _ => inl (missing_error f p)
           end
  end.

Definition open_rb (f : gmap path entry) (p : path) : exn + list byte :=
  match stat f p with
  | inr (File c) => inr c
  | inr Dir => inl (IsADirectoryError p)
  | inl e => inl e
  end.

Definition open_wb (f : gmap path entry) (p : path) (c : list byte)
  : exn + gmap path entry :=
  match stat f p with
  | inr (File _) => inr (<[canon p := File c]> f)
  | inr Dir => inl (IsADirectoryError p)
  | inl e =>
      if trailing_dot p then inl e
      else match entry_at f (parent (canon p)) with
           | Some Dir => inr (<[canon p := File c]> f)
           | _ => inl (missing_error f p)
           end
  end.

Definition copy2_in (f : gmap path entry) (src dst : path)
  : exn + gmap path entry :=
  let dst' := if isdir_in f dst then dst ++ [basename src] else dst in
  if exists_in f src && exists_in f dst' && bool_decide (canon src = canon dst')
  then inl (SameFileError src dst')
  else match open_rb f src with
       | inl e => inl e
       | inr c => open_wb f dst' c
       end.

Definition rmtree_in (f : gmap path entry) (p : path) : exn + gmap path entry :=
  match stat f p with
  | inr Dir => inr (filter (λ ke, ¬ canon p `prefix_of` ke.1) f)
  | inr (File _) => inl (NotADirectoryError p)
  | inl e => inl e
  end.

Definition remove_in (f : gmap path entry) (p : path) : exn + gmap path entry :=
  match stat f p with
  | inr (File _) => inr (delete (canon p) f)
  | inr Dir => inl (IsADirectoryError p)
  | inl e => inl e
  end.

Definition child_name (top k : path) : option string :=
  match drop (length top) k with
  | [x] => if decide (take (length top) k = top) then Some x else None
  | _ => None
  end.

Definition listing (f : gmap path entry) (top : path) : list (string * entry) :=
  omap (λ ke, x ← child_name top ke.1; Some (x, ke.2)) (map_to_list f).

Definition dir_names (l : list (string * entry)) : list string :=
  omap (λ xe, match xe.2 with Dir => Some xe.1 | File _ => None end) l.
Definition file_names (l : list (string * entry)) : list string :=
  omap (λ xe, match xe.2 with File _ => Some xe.1 | Dir => None end) l.

(** State-level versions of the primitives. *)
Definition lift_fs (op : gmap path entry → exn + gmap path entry) : M unit :=
  λ st, match op (fs st) with
        | inl e => (Raise e, st)
        | inr f' => (Ok tt, State f' (md5_cache st) (log st))
        end.

Definition path_exists (p : path) : M bool := λ st, (Ok (exists_in (fs st) p), st).
Definition mkdir (p : path) : M unit := lift_fs (λ f, mkdir_in f p).
Definition copy2 (src dst : path) : M unit := lift_fs (λ f, copy2_in f src dst).
Definition rmtree (p : path) : M unit := lift_fs (λ f, rmtree_in f p).
Definition remove (p : path) : M unit := lift_fs (λ f, remove_in f p).

(** [try: m except FileExistsError: pass]. *)
Definition ignore_exists (m : M unit) : M unit :=
  λ st, match m st with
        | (Raise (FileExistsError _), st') => (Ok tt, st')
        | other => other
        end.

(** [os.makedirs name]: create the missing ancestors first; a name ending
    in ["."] whose head had to be created is then complete. The argument of
    [makedirs_rev] is the reversed path. *)
Fixpoint makedirs_rev (r : list string) : M unit :=
  match r with
  | [] => mkdir []
  | tail :: rhead =>
      let! b := path_exists (rev rhead) in
      if b then mkdir (rev r)
      else ignore_exists (makedirs_rev rhead) ;;
           if decide (tail = ".") then ret tt else mkdir (rev r)
  end.
Definition makedirs (p : path) : M unit := makedirs_rev (rev p).

Definition log_operation (r : record) : M unit :=
  λ st, (Ok tt, State (fs st) (md5_cache st) (log st ++ [r])).

(** ** The platform and the synchronizer object *)

(** What the program takes from its platform: [hashlib.md5] (an initial
    state, [update] and [hexdigest]) and the order in which [os.scandir]
    lists names, which the program cannot control. *)
Class Platform := {
  hasher : Type;
  md5_new : hasher;
  md5_update : hasher → list byte → hasher;
  hexdigest : hasher → string;
  scandir_order : list string → list string;
  scandir_order_perm : ∀ l, scandir_order l ≡ₚ l
}.

(** The constant fields of [self]; [self.md5_cache] is mutable and lives in
    the state. *)
Record FolderSynchronizer := {
  source : path;
  replica : path;
  log_file : path;
  interval : nat
}.

Section Synchronizer.
Context `{Platform}.
Variable self : FolderSynchronizer.

(** [iter(lambda: f.read(4096), b"")]: the chunks read until the first
    empty one. *)
Fixpoint read_chunks (n : nat) (c : list byte) : list (list byte) :=
  match n, c with
  | S n', _ :: _ => take 4096 c :: read_chunks n' (drop 4096 c)
  | _, _ => []
  end.

Definition file_md5 (c : list byte) : string :=
  hexdigest (foldl md5_update md5_new (read_chunks (length c) c)).

Definition calculate_md5 (file_path : path) : M (option string) :=
  λ st,
    match md5_cache st !! file_path with
    | Some h => (Ok (Some h), st)
    | None =>
        match open_rb (fs st) file_path with
        | inl (FileNotFoundError _) => (Ok None, st)
        | inl e => (Raise e, st)
        | inr c =>
            let h := file_md5 c in
            (Ok (Some h),
             State (fs st) (<[file_path := h]> (md5_cache st)) (log st))
        end
    end.

(** [os.scandir] as [os.walk] uses it: the directories and the other
    names, or nothing when the top cannot be listed. *)
Definition scandir (f : gmap path entry) (top : path)
  : option (list string * list string) :=
  match stat f top with
  | inr Dir =>
      let l := listing f (canon top) in
      Some (scandir_order (dir_names l), scandir_order (file_names l))
  | _ => None
  end.

(** [os.walk top], top-down, with the loop body run at each yield. A
    directory that cannot be listed is skipped silently. The fuel bounds
    the depth of the walk. *)
Fixpoint os_walk (n : nat) (top : path)
    (body : path → list string → list string → M unit) : M unit :=
  match n with
  | 0 => timeout
  | S n' =>
      λ st, match scandir (fs st) top with
            | None => (Ok tt, st)
            | Some (dirs, files) =>
                (body top dirs files ;;
                 for_each dirs (λ d, os_walk n' (top ++ [d]) body)) st
            end
  end.

(** The body of the inner loop of the first walk. *)
Definition copy_or_update (root replica_root : path) (file : string) : M unit :=
  let source_file := root ++ [file] in
  let replica_file := replica_root ++ [file] in
  let! present := path_exists replica_file in
  let! stale :=
    (if negb present then ret true
     else let! h1 := calculate_md5 source_file in
          let! h2 := calculate_md5 replica_file in
          ret (negb (bool_decide (h1 = h2)))) in
  if stale : bool
  then copy2 source_file replica_file ;; log_operation (CopiedFile replica_file)
  else ret tt.

Definition forward_body (root : path) (_ files : list string) : M unit :=
  let relative_path := relpath root (source self) in
  let replica_root := replica self ++ relative_path in
  let! present := path_exists replica_root in
  (if negb present
   then makedirs replica_root ;; log_operation (CreatedFolder replica_root)
   else ret tt) ;;
  for_each files (copy_or_update root replica_root).

(** The body of the inner loop of the second walk. *)
Definition remove_extra (root source_root : path) (file : string) : M unit :=
  let replica_file := root ++ [file] in
  let source_file := source_root ++ [file] in
  let! present := path_exists source_file in
  if negb present
  then remove replica_file ;; log_operation (RemovedFile replica_file)
  else ret tt.

Definition reverse_body (root : path) (_ files : list string) : M unit :=
  let relative_path := relpath root (replica self) in
  let source_root := source self ++ relative_path in
  let! present := path_exists source_root in
  (if negb present
   then rmtree root ;; log_operation (RemovedFolder root)
   else ret tt) ;;
  for_each files (remove_extra root source_root).

Definition ensure_replica : M unit :=
  let! present := path_exists (replica self) in
  if negb present
  then makedirs (replica self) ;; log_operation (CreatedReplica (replica self))
  else ret tt.

(** The [try] block of [sync_folders]. *)
Definition sync_pass (n : nat) : M unit :=
  ensure_replica ;;
  os_walk n (source self) forward_body ;;
  os_walk n (replica self) reverse_body.

(** [sync_folders]: [except Exception as e] logs the error and returns.
    [None] only when the fuel of the walks was too small. *)
Definition sync_folders (n : nat) (st : state) : option state :=
  match sync_pass n st with
  | (Ok _, st') => Some st'
  | (Raise e, st') => Some (log_operation (SyncError e) st').2
  | (Timeout, _) => None
  end.

(** [run], cut after [k] cycles ([time.sleep] changes nothing here). *)
Fixpoint run (k : nat) (n : nat) (st : state) : option state :=
  match k with
  | 0 => Some st
  | S k' => st' ← sync_folders n st; run k' n st'
  end.

End Synchronizer.

(** ** The messages written by [log_operation] *)

Definition errno_text (e : exn) : string :=
  match e with
  | FileNotFoundError p =>
      "[Errno 2] No such file or directory: '" +:+ path_str p +:+ "'"
  | FileExistsError p => "[Errno 17] File exists: '" +:+ path_str p +:+ "'"
  | NotADirectoryError p => "[Errno 20] Not a directory: '" +:+ path_str p +:+ "'"
  | IsADirectoryError p => "[Errno 21] Is a directory: '" +:+ path_str p +:+ "'"
  | SameFileError p q =>
      "'" +:+ path_str p +:+ "' and '" +:+ path_str q +:+ "' are the same file"
  end.

Definition message (r : record) : string :=
  match r with
  | CreatedReplica p => "Created replica folder: " +:+ path_str p
  | CreatedFolder p => "Created folder: " +:+ path_str p
  | CopiedFile p => "Copied/Updated file: " +:+ path_str p
  | RemovedFolder p => "Removed folder: " +:+ path_str p
  | RemovedFile p => "Removed file: " +:+ path_str p
  | SyncError e => "Error during synchronization: " +:+ errno_text e
  end.

(** ** A concrete platform for the examples *)

(** The digest is the content itself, so that equal digests mean equal
    contents; names are listed in the order of the map. *)
#[local] Instance toy : Platform := {|
  hasher := list byte;
  md5_new := [];
  md5_update := λ h c, h ++ c;
  hexdigest := string_of_list_byte;
  scandir_order := λ l, l;
  scandir_order_perm := λ l, Permutation_refl l
|}.

Definition fresh (f : gmap path entry) : state := State f ∅ [].
Definition bytes (s : string) : list byte := list_byte_of_string s.
Definition synchronizer (src rep : path) : FolderSynchronizer :=
  {| source := src; replica := rep; log_file := ["var"; "sync.log"]; interval := 60 |}.

(** ** Properties named by the specification *)

(** A well-formed file system: no entry for the root (it is implicit), no
    ["."] component in a stored name, and every entry sits in a directory. *)
Definition wf (f : gmap path entry) : Prop :=
  ∀ p e, f !! p = Some e →
    p ≠ [] ∧ ("." ∉ p) ∧ entry_at f (parent p) = Some Dir.

(** Every cached fingerprint is the fingerprint of the file now at its path. *)
Definition cache_valid `{Platform} (st : state) : Prop :=
  ∀ k h, md5_cache st !! k = Some h →
    ∃ c, fs st !! canon k = Some (File c) ∧ file_md5 c = h.

(** The two roots are written without ["."] and neither lies inside the other. *)
Definition separate_roots (self : FolderSynchronizer) : Prop :=
  ("." ∉ source self) ∧ ("." ∉ replica self) ∧
  ¬ source self `prefix_of` replica self ∧
  ¬ replica self `prefix_of` source self.

(** Convergence: every file under the source has a replica file with the
    same fingerprint at the mirrored path, and every path under the replica
    has its mirrored path under the source. *)
Definition files_mirrored `{Platform} (self : FolderSynchronizer)
    (f : gmap path entry) : Prop :=
  ∀ rel c, rel ≠ [] → f !! (source self ++ rel) = Some (File c) →
    ∃ c', f !! (replica self ++ rel) = Some (File c') ∧ file_md5 c' = file_md5 c.

Definition no_extras (self : FolderSynchronizer) (f : gmap path entry) : Prop :=
  ∀ rel, rel ≠ [] → is_Some (f !! (replica self ++ rel)) →
    is_Some (f !! (source self ++ rel)).

Definition converged `{Platform} (self : FolderSynchronizer)
    (f : gmap path entry) : Prop :=
  files_mirrored self f ∧ no_extras self f.

(** Kinds of log records. *)
Definition is_creation (r : record) : bool :=
  match r with CreatedReplica _ | CreatedFolder _ => true | _ => false end.
Definition is_copy (r : record) : bool :=
  match r with CopiedFile _ => true | _ => false end.
Definition is_removal (r : record) : bool :=
  match r with RemovedFolder _ | RemovedFile _ => true | _ => false end.
Definition is_mutation (r : record) : bool :=
  is_creation r || is_copy r || is_removal r.

(** The three phases of the specification: creations, then copies, then
    removals. *)
Definition three_phases (l : list record) : Prop :=
  ∃ l1 l2 l3, l = l1 ++ l2 ++ l3 ∧
    Forall (λ r, is_creation r = true) l1 ∧
    Forall (λ r, is_copy r = true) l2 ∧
    Forall (λ r, is_removal r = true) l3.

(** What the program does instead: creations and copies interleaved, every
    directory created before a file is copied into it, then removals. *)
Definition created_dir (r : record) : option path :=
  match r with
  | CreatedReplica p | CreatedFolder p => Some (canon p)
  | _ => None
  end.
Definition copied_file (r : record) : option path :=
  match r with CopiedFile p => Some (canon p) | _ => None end.

Definition parents_first (l : list record) : Prop :=
  ∀ i j ri rj p q, l !! i = Some ri → l !! j = Some rj →
    copied_file ri = Some p → created_dir rj = Some q →
    q = parent p → j < i.

Definition two_phases (l : list record) : Prop :=
  ∃ l1 l2, l = l1 ++ l2 ∧
    Forall (λ r, is_creation r || is_copy r = true) l1 ∧
    Forall (λ r, is_removal r = true) l2 ∧
    parents_first l1.

(** An edit made by somebody else between two passes. *)
Definition write_file (p : path) (c : list byte) (st : state) : state :=
  State (<[p := File c]> (fs st)) (md5_cache st) (log st).

(** ** Definitions used in the proofs *)

(** The relative path of a walked directory: ["."] for the top itself. *)
Definition dotted (rel : path) : path :=
  match rel with [] => ["."] | _ => rel end.

(** The relation [R] holds between the state before and the state after,
    however the computation ends. *)
Definition preserves {A} (R : relation state) (m : M A) : Prop :=
  ∀ st r st', m st = (r, st') → R st st'.

(** A computation that never runs out of fuel. *)
Definition returns {A} (m : M A) : Prop :=
  ∀ st r st', m st = (r, st') → r ≠ Timeout.

(** [os.makedirs] only adds directories, all of them prefixes of its
    argument. *)
Definition creates_dirs (P : path) : relation state := λ st st',
  md5_cache st' = md5_cache st ∧ log st' = log st ∧
  (wf (fs st) → wf (fs st')) ∧
  ∀ q, fs st' !! q = fs st !! q ∨
       (q `prefix_of` P ∧ fs st !! q = None ∧ fs st' !! q = Some Dir).

(** Between [st] and [st'] the file system changed only below [rep], or at
    a missing ancestor of [rep] that is now a directory. *)
Definition touches_replica (rep : path) : relation state := λ st st',
  ∀ p, fs st' !! p = fs st !! p ∨ rep `prefix_of` p ∨
       (p `prefix_of` rep ∧ fs st !! p = None ∧ fs st' !! p = Some Dir).

(** What holds of the records [l0 ++ Δ] written so far by the first walk:
    they are creations and copies, no copy comes before the creation of its
    directory, and the directory of every copied file is there. *)
Definition fwd_inv (l0 : list record) (st : state) : Prop :=
  wf (fs st) ∧
  ∃ Δ, log st = l0 ++ Δ ∧
       Forall (λ r, is_creation r || is_copy r = true) Δ ∧
       parents_first Δ ∧
       ∀ ri p, ri ∈ Δ → copied_file ri = Some p →
               is_Some (entry_at (fs st) (parent p)).

(** Steps of the first walk keep [fwd_inv]. *)
Definition keeps_fwd_inv (l0 : list record) : relation state :=
  λ st st', fwd_inv l0 st → fwd_inv l0 st'.

(** The records of the second walk are removals. *)
Definition logs_removals : relation state := λ st st',
  ∃ Δ, log st' = log st ++ Δ ∧ Forall (λ r, is_removal r = true) Δ.

(** The cache keys and the paths that the first walk may use while it
    handles the directory [rel] and what is below it. *)
Definition in_region (self : FolderSynchronizer) (rel k : path) : Prop :=
  source self ++ rel `prefix_of` canon k ∨ replica self ++ rel `prefix_of` canon k.

(** The cached fingerprint of [k], if any, is that of the file at [k]. *)
Definition valid_at `{Platform} (st : state) (k : path) : Prop :=
  ∀ h, md5_cache st !! k = Some h →
    ∃ c, fs st !! canon k = Some (File c) ∧ file_md5 c = h.

(** What the first walk keeps while it is at or below [rel]: entries that
    are not below the mirror of [rel] stay, cache entries outside the
    region stay, the source stays, nothing disappears or changes its kind. *)
Definition forward_frame (self : FolderSynchronizer) (rel : path)
  : relation state := λ st st',
  (∀ q, is_Some (fs st !! q) → ¬ replica self ++ rel `prefix_of` q →
        fs st' !! q = fs st !! q) ∧
  (∀ k, ¬ in_region self rel k → md5_cache st' !! k = md5_cache st !! k) ∧
  (∀ q, source self `prefix_of` q → fs st' !! q = fs st !! q) ∧
  (∀ q e, fs st !! q = Some e →
          ∃ e', fs st' !! q = Some e' ∧ (e = Dir ↔ e' = Dir)) ∧
  (wf (fs st) → wf (fs st')).

(** The cache is valid at the keys of the region of [rel]. *)
Definition region_valid `{Platform} (self : FolderSynchronizer)
    (rel : path) (st : state) : Prop :=
  ∀ k, in_region self rel k → valid_at st k.

(** After the first walk from [rel]: the files and the directories that
    were below the source directory [rel] have their mirrors. *)
Definition files_below_mirrored `{Platform} (self : FolderSynchronizer)
    (rel : path) (st st' : state) : Prop :=
  ∀ x c, x ≠ [] → fs st !! (source self ++ rel ++ x) = Some (File c) →
    ∃ c', fs st' !! (replica self ++ rel ++ x) = Some (File c') ∧
          file_md5 c' = file_md5 c.

Definition dirs_below_mirrored (self : FolderSynchronizer)
    (rel : path) (st st' : state) : Prop :=
  ∀ x, entry_at (fs st) (source self ++ rel ++ x) = Some Dir →
    exists_in (fs st') (replica self ++ dotted (rel ++ x)) = true.

(** What is proved of the first walk with fuel [n], by induction on [n]. *)
Definition forward_spec `{Platform} (self : FolderSynchronizer) (n : nat) : Prop :=
  ∀ rel st st', "." ∉ rel → wf (fs st) → region_valid self rel st →
    os_walk n (source self ++ rel) (forward_body self) st = (Ok tt, st') →
    files_below_mirrored self rel st st' ∧ dirs_below_mirrored self rel st st'.

(** What the second walk keeps while it is at or below [rel]: it only
    removes, below the replica directory [rel], and what it removes has no
    mirror under the source. *)
Definition reverse_frame (self : FolderSynchronizer) (rel : path)
  : relation state := λ st st',
  wf (fs st) →
  wf (fs st') ∧ md5_cache st' = md5_cache st ∧
  (∀ q, fs st' !! q = fs st !! q ∨
        (fs st' !! q = None ∧ replica self ++ rel `prefix_of` q)) ∧
  (∀ y, fs st' !! (replica self ++ y) ≠ fs st !! (replica self ++ y) →
        exists_in (fs st) (source self ++ dotted y) = false).

(** After the second walk from [rel]: what is left at or below the
    replica directory [rel] has its mirror under the source. For [rel]
    itself this needs that it was a directory when the walk reached it. *)
Definition reverse_post (self : FolderSynchronizer)
    (rel : path) (st st' : state) : Prop :=
  ∀ x, (x = [] → fs st !! (replica self ++ rel) = Some Dir) →
    is_Some (fs st' !! (replica self ++ rel ++ x)) →
    exists_in (fs st') (source self ++ dotted (rel ++ x)) = true.

(** What is proved of the second walk with fuel [n], by induction on [n]. *)
Definition reverse_spec `{Platform} (self : FolderSynchronizer) (n : nat) : Prop :=
  ∀ rel st st', "." ∉ rel → wf (fs st) →
    os_walk n (replica self ++ rel) (reverse_body self) st = (Ok tt, st') →
    reverse_post self rel st st'.

(** Every source directory has its mirror, and everything in the replica,
    its root included, has its mirror under the source. *)
Definition dirs_mirrored (self : FolderSynchronizer) (f : gmap path entry) : Prop :=
  ∀ y, entry_at f (source self ++ y) = Some Dir →
    exists_in f (replica self ++ dotted y) = true.

Definition extras_mirrored (self : FolderSynchronizer) (f : gmap path entry) : Prop :=
  ∀ y, is_Some (f !! (replica self ++ y)) →
    exists_in f (source self ++ dotted y) = true.

(** Every cached fingerprint of a path at which there is a file is the
    fingerprint of that file. *)
Definition cache_fresh `{Platform} (st : state) : Prop :=
  ∀ k h c, md5_cache st !! k = Some h → fs st !! canon k = Some (File c) →
    file_md5 c = h.

(** The outcomes of a computation that does not raise; running out of fuel
    is among them when [t] is set. *)
Definition allowed {A} (t : bool) (r : result A) : Prop :=
  match r with Ok _ => True | Raise _ => False | Timeout => t = true end.

(** A computation that leaves the file system [F] and the log alone and
    does not raise. *)
Definition quiet `{Platform} (t : bool) (F : gmap path entry) {A} (m : M A) : Prop :=
  ∀ st r st', fs st = F → cache_fresh st → m st = (r, st') →
    fs st' = F ∧ log st' = log st ∧ cache_fresh st' ∧ allowed t r.

(** The length of the longest name in the file system. *)
Definition depth (f : gmap path entry) : nat :=
  foldr (λ kv d, length kv.1 `max` d) 0 (map_to_list f).

(** The fuel is enough for a walk from the directory [top]. *)
Definition enough (F : gmap path entry) (t : bool) (n : nat) (top : path) : Prop :=
  t = false →
  is_Some (F !! top) ∧ ∀ k, is_Some (F !! k) → length k < length top + n.

(** No name under the source root is longer than [D]. *)
Definition source_within (self : FolderSynchronizer) (D : nat) (st : state) : Prop :=
  ∀ q, source self `prefix_of` q → is_Some (fs st !! q) → length q ≤ D.

(** No name is longer than [D]. *)
Definition all_within (D : nat) (st : state) : Prop :=
  ∀ q, is_Some (fs st !! q) → length q ≤ D.

(** [wf] and [cache_fresh] as checks that compute. *)
Definition wf_check (f : gmap path entry) : bool :=
  forallb (λ kv : path * entry,
             bool_decide (kv.1 ≠ []) && bool_decide ("." ∉ kv.1) &&
             match entry_at f (parent kv.1) with Some Dir => true | _ => false end)
          (map_to_list f).

Definition cache_fresh_check `{Platform} (st : state) : bool :=
  forallb (λ kh : path * string,
             match fs st !! canon kh.1 with
             | Some (File c) => bool_decide (file_md5 c = kh.2)
             | _ => true
             end)
          (map_to_list (md5_cache st)).

(** The cache only grows: what is cached stays cached, with its value. *)
Definition cache_grows : relation state := λ st st',
  ∀ k h, md5_cache st !! k = Some h → md5_cache st' !! k = Some h.

(** The records written are records of actions, appended to the log. *)
Definition logs_actions : relation state := λ st st',
  ∃ Δ, log st' = log st ++ Δ ∧ Forall (λ r, is_mutation r = true) Δ.

(** The files and the log are as they were. *)
Definition same_files : relation state := λ st st',
  fs st' = fs st ∧ log st' = log st.

(** ** Example file systems *)

Definition demo_fs : gmap path entry :=
  list_to_map [ (["s"], Dir); (["s";"a.txt"], File (bytes "hi")); (["s";"d"], Dir);
                (["s";"d";"x"], File (bytes "x"));
                (["r"], Dir); (["r";"old"], Dir); (["r";"junk"], File (bytes "j")) ].

(** A replica directory, with a file in it, that the source does not have. *)
Definition orphan_dir_fs : gmap path entry :=
  list_to_map [ (["s"], Dir); (["r"], Dir); (["r";"d"], Dir);
                (["r";"d";"f"], File (bytes "x")); (["r";"d";"e"], Dir);
                (["r";"d";"e";"g"], File (bytes "y")) ].

(** No source root at all. *)
Definition no_source_fs : gmap path entry :=
  list_to_map [ (["r"], Dir); (["r";"f"], File (bytes "x")); (["r";"d"], Dir) ].

(** A replica file that differs from the source file. *)
Definition outdated_fs : gmap path entry :=
  list_to_map [ (["s"], Dir); (["s";"f"], File (bytes "new"));
                (["r"], Dir); (["r";"f"], File (bytes "old")) ].

(** A source file and an empty replica. *)
Definition first_fs : gmap path entry :=
  list_to_map [ (["s"], Dir); (["s";"f"], File (bytes "v1")); (["r"], Dir) ].

(** The source inside the replica. *)
Definition nested_fs : gmap path entry :=
  list_to_map [ (["r"], Dir); (["r";"s"], Dir); (["r";"s";"f"], File (bytes "x")) ].

(** The source file has vanished, its name is still in the listing. *)
Definition vanished_fs : gmap path entry :=
  list_to_map [ (["s"], Dir); (["r"], Dir); (["r";"f"], File (bytes "x")) ].

Definition sr := synchronizer ["s"] ["r"].
Definition nested := synchronizer ["r"; "s"] ["r"].

(** The state after a call that returned. *)
Definition after (o : option state) : state := default (fresh ∅) o.

Definition demo_after := after (sync_folders sr 5 (fresh demo_fs)).
Definition orphan_after := after (sync_folders sr 5 (fresh orphan_dir_fs)).
Definition no_source_after := after (sync_folders sr 5 (fresh no_source_fs)).
Definition nested_after := after (sync_folders nested 5 (fresh nested_fs)).

(** Two passes over [outdated_fs]. *)
Definition outdated_1 := after (sync_folders sr 5 (fresh outdated_fs)).
Definition outdated_2 := after (sync_folders sr 5 outdated_1).

(** Two passes over [first_fs], an edit of the source file, a third pass. *)
Definition first_2 :=
  after (sync_folders sr 5 (after (sync_folders sr 5 (fresh first_fs)))).
Definition edited := write_file ["s"; "f"] (bytes "v2") first_2.
Definition edited_after := after (sync_folders sr 5 edited).

(** A cached fingerprint for a path that has no file any more, and a
    directory where a file is expected. *)
Definition stale_state : state :=
  State (list_to_map [ (["s"], Dir); (["s"; "d"], Dir) ])
        {[ ["s"; "gone"] := "abc" ]} [].


(** A replica that has one of the two source files already. *)
Definition kept_fs : gmap path entry :=
  list_to_map [ (["s"], Dir); (["s";"f"], File (bytes "v")); (["s";"g"], File (bytes "w"));
                (["s";"d"], Dir); (["s";"d";"x"], File (bytes "x"));
                (["r"], Dir); (["r";"f"], File (bytes "v")); (["r";"junk"], Dir) ].
Definition kept_1 := (sync_pass sr 5 (fresh kept_fs)).2.


(** A source with one file and no replica root. *)
Definition no_replica_fs : gmap path entry :=
  list_to_map [ (["s"], Dir); (["s";"f"], File (bytes "v")) ].


(** * Proofs *)

(** ** The monad *)

Lemma bind_Ok {A B} (m : M A) (k : A → M B) st a st1 :
  m st = (Ok a, st1) → bind m k st = k a st1.
Proof. unfold bind. by intros ->. Qed.

Lemma bind_inv {A B} (m : M A) (k : A → M B) st r st' :
  bind m k st = (r, st') →
  (∃ a st1, m st = (Ok a, st1) ∧ k a st1 = (r, st')) ∨
  (∃ e, m st = (Raise e, st') ∧ r = Raise e) ∨
  (m st = (Timeout, st') ∧ r = Timeout).
Proof.
  unfold bind. destruct (m st) as [[a|e|] st1]; intros Hk.
  - left. eauto.
  - right. left. exists e. by simplify_eq.
  - right. right. by simplify_eq.
Qed.

(** ** calculate_md5 and its cache *)

Section Fingerprints.
Context `{Platform}.

Lemma calculate_md5_cached st p h :
  md5_cache st !! p = Some h → calculate_md5 p st = (Ok (Some h), st).
Proof. unfold calculate_md5. by intros ->. Qed.

Lemma calculate_md5_computed st p c :
  md5_cache st !! p = None → open_rb (fs st) p = inr c →
  calculate_md5 p st =
    (Ok (Some (file_md5 c)),
     State (fs st) (<[p := file_md5 c]> (md5_cache st)) (log st)).
Proof. unfold calculate_md5. by intros -> ->. Qed.

Lemma calculate_md5_failed st p e :
  md5_cache st !! p = None → open_rb (fs st) p = inl e →
  ∃ r, calculate_md5 p st = (r, st) ∧
       r = match e with FileNotFoundError _ => Ok None | _ => Raise e end.
Proof. unfold calculate_md5. intros -> ->. destruct e; eauto. Qed.

(** C8. The cache of [calculate_md5]: a cached fingerprint is returned as
    it is and nothing changes; otherwise the digest of the file is
    computed, returned and stored under the path, and only under it; when
    the file cannot be read nothing is stored, so that a later call on
    the same path, once it is readable, returns a fingerprint. *)
Theorem calculate_md5_cache (st : state) (p : path) :
  (∀ h, md5_cache st !! p = Some h →
     calculate_md5 p st = (Ok (Some h), st)) ∧
  (∀ c, md5_cache st !! p = None → open_rb (fs st) p = inr c →
     ∃ st', calculate_md5 p st = (Ok (Some (file_md5 c)), st') ∧
            md5_cache st' = <[p := file_md5 c]> (md5_cache st) ∧
            fs st' = fs st ∧ log st' = log st) ∧
  (∀ e, md5_cache st !! p = None → open_rb (fs st) p = inl e →
     ∃ r, calculate_md5 p st = (r, st) ∧ (∀ h, r ≠ Ok (Some h)) ∧
       ∀ f' c, open_rb f' p = inr c →
         (calculate_md5 p (State f' (md5_cache st) (log st))).1
         = Ok (Some (file_md5 c))).
Proof.
  split_and!.
  - apply calculate_md5_cached.
  - intros c Hc Ho. eexists. split; [by apply calculate_md5_computed|done].
  - intros e Hc Ho. destruct (calculate_md5_failed st p e Hc Ho) as (r & Hr & ->).
    exists (match e with FileNotFoundError _ => Ok None | _ => Raise e end).
    split; [done|]. split; [by destruct e|].
    intros f' c Hf'. by rewrite (calculate_md5_computed _ p c).
Qed.

(** C7 (amended). When the path is not cached and [open] raises
    [FileNotFoundError], [calculate_md5] returns [None] without raising,
    and leaves the state as it is; [None] differs from every digest, that
    of the empty file included. *)
Theorem calculate_md5_missing (st : state) (p q : path) :
  md5_cache st !! p = None →
  open_rb (fs st) p = inl (FileNotFoundError q) →
  calculate_md5 p st = (Ok None, st) ∧ None ≠ Some (file_md5 []).
Proof.
  intros Hc Ho. split; [|done].
  by destruct (calculate_md5_failed st p _ Hc Ho) as (r & -> & ->).
Qed.

End Fingerprints.

(** ** Paths *)

Lemma canon_app p q : canon (p ++ q) = canon p ++ canon q.
Proof. apply filter_app. Qed.

Lemma canon_no_dot p : "." ∉ canon p.
Proof. unfold canon. rewrite list_elem_of_filter. by intros [? _]. Qed.

Lemma canon_clean p : "." ∉ p → canon p = p.
Proof.
  induction p as [|x p IH]; [done|].
  rewrite not_elem_of_cons. intros [Hx Hp]. unfold canon in *.
  rewrite filter_cons_True by done. by rewrite IH.
Qed.

Lemma canon_dot : canon ["."] = [].
Proof. done. Qed.

Lemma canon_single x : x ≠ "." → canon [x] = [x].
Proof. intros. apply canon_clean. by rewrite list_elem_of_singleton. Qed.

Lemma trailing_dot_snoc p x : trailing_dot (p ++ [x]) = bool_decide (x = ".").
Proof.
  unfold trailing_dot. rewrite last_snoc.
  apply bool_decide_ext. naive_solver.
Qed.

Lemma trailing_dot_clean p : "." ∉ p → trailing_dot p = false.
Proof.
  intros Hp. apply bool_decide_eq_false. intros Hl.
  apply Hp. by apply last_Some_elem_of.
Qed.

Lemma parent_snoc p x : parent (p ++ [x]) = p.
Proof. apply removelast_last. Qed.

Lemma strip_common_app s rel : strip_common (s ++ rel) s = (rel, []).
Proof.
  induction s as [|x s IH]; simpl; [by destruct rel|].
  by rewrite decide_True.
Qed.

Lemma relpath_app s rel : relpath (s ++ rel) s = dotted rel.
Proof. unfold relpath. rewrite strip_common_app. by destruct rel. Qed.

Lemma canon_dotted rel : "." ∉ rel → canon (dotted rel) = rel.
Proof. destruct rel; [done|]. apply canon_clean. Qed.

Lemma canon_mirror base rel :
  "." ∉ base → "." ∉ rel → canon (base ++ dotted rel) = base ++ rel.
Proof. intros. by rewrite canon_app, canon_clean, canon_dotted. Qed.

Lemma canon_mirror_file base rel x :
  "." ∉ base → "." ∉ rel → x ≠ "." →
  canon (base ++ dotted rel ++ [x]) = base ++ rel ++ [x].
Proof.
  intros. by rewrite !canon_app, canon_clean, canon_dotted, canon_single.
Qed.

Lemma not_dot_app p q : "." ∉ p → "." ∉ q → "." ∉ p ++ q.
Proof. rewrite elem_of_app. tauto. Qed.

Lemma prefix_app_same (p x y : path) : p ++ x `prefix_of` p ++ y → x `prefix_of` y.
Proof. intros [k Hk]. exists k. rewrite <-(assoc _) in Hk. by simplify_list_eq. Qed.

Lemma prefix_snoc_inv (p q : path) x :
  p `prefix_of` q ++ [x] → p `prefix_of` q ∨ p = q ++ [x].
Proof.
  intros [k Hk]. destruct k as [|y k _] using rev_ind.
  - right. by rewrite app_nil_r in Hk.
  - left. rewrite (assoc _) in Hk. apply app_inj_tail in Hk as [-> _].
    by exists k.
Qed.

(** Two names below the same directory share nothing unless they are equal. *)
Lemma sibling_prefix (p q : path) x y :
  p ++ [x] `prefix_of` p ++ y :: q → x = y.
Proof.
  intros Hp%prefix_app_same. by apply prefix_cons_inv_1 in Hp.
Qed.

(** ** The file system *)

Lemma entry_at_lookup f p : p ≠ [] → entry_at f p = f !! p.
Proof. by destruct p. Qed.

Lemma entry_at_snoc f p x : entry_at f (p ++ [x]) = f !! (p ++ [x]).
Proof. apply entry_at_lookup. by destruct p. Qed.

Lemma entry_at_None f p : entry_at f p = None → p ≠ [] ∧ f !! p = None.
Proof. by destruct p. Qed.

Lemma entry_at_insert_ne f p q e :
  p ≠ q → entry_at (<[p := e]> f) q = entry_at f q.
Proof. intros. destruct q; [done|]. simpl. by rewrite lookup_insert_ne. Qed.

Lemma entry_at_insert_eq f p e : p ≠ [] → entry_at (<[p := e]> f) p = Some e.
Proof. intros. rewrite entry_at_lookup by done. apply lookup_insert_eq. Qed.

Lemma parent_ne p : p ≠ [] → parent p ≠ p.
Proof.
  destruct p as [|x p _] using rev_ind; [done|]. intros _.
  rewrite parent_snoc. intros Hp. apply (f_equal length) in Hp.
  rewrite length_app in Hp. simpl in Hp. lia.
Qed.

Lemma parent_prefix p : parent p `prefix_of` p.
Proof.
  destruct p as [|x p _] using rev_ind; [done|].
  rewrite parent_snoc. by exists [x].
Qed.

Lemma stat_inr f p e : stat f p = inr e → entry_at f (canon p) = Some e.
Proof.
  unfold stat. destruct (entry_at f (canon p)) as [[c|]|]; [|naive_solver..].
  destruct (trailing_dot p); naive_solver.
Qed.

Lemma stat_clean f p :
  "." ∉ p →
  stat f p = match entry_at f p with
             | Some e => inr e
             | None => inl (missing_error f p)
             end.
Proof.
  intros Hp. unfold stat. rewrite canon_clean, trailing_dot_clean by done.
  by destruct (entry_at f p) as [[]|].
Qed.

Lemma exists_in_Some f p : exists_in f p = true → is_Some (entry_at f (canon p)).
Proof.
  unfold exists_in. destruct (stat f p) as [|e] eqn:Hs; [done|].
  apply stat_inr in Hs. eauto.
Qed.

Lemma exists_in_clean f p :
  "." ∉ p → exists_in f p = true ↔ is_Some (entry_at f p).
Proof.
  intros Hp. unfold exists_in. rewrite stat_clean by done.
  destruct (entry_at f p); split; (done || by intros []).
Qed.

Lemma exists_in_false_clean f p :
  "." ∉ p → exists_in f p = false ↔ entry_at f p = None.
Proof.
  intros Hp. unfold exists_in. rewrite stat_clean by done.
  by destruct (entry_at f p).
Qed.

(** [base/.] exists exactly when [base] is a directory. *)
Lemma exists_in_dot f base :
  "." ∉ base → exists_in f (base ++ ["."]) = true ↔ entry_at f base = Some Dir.
Proof.
  intros Hp. unfold exists_in, stat.
  rewrite canon_app, canon_clean, canon_dot, app_nil_r, trailing_dot_snoc by done.
  rewrite bool_decide_eq_true_2 by done.
  destruct (entry_at f base) as [[]|]; naive_solver.
Qed.

(** *** What a successful primitive did *)

Lemma stat_inl_not_trailing f p e :
  stat f p = inl e → trailing_dot p = false → entry_at f (canon p) = None.
Proof.
  unfold stat. intros Hs Ht. rewrite Ht in Hs.
  by destruct (entry_at f (canon p)) as [[]|].
Qed.

Lemma mkdir_in_inr f p f' :
  mkdir_in f p = inr f' →
  f !! canon p = None ∧ canon p ≠ [] ∧
  entry_at f (parent (canon p)) = Some Dir ∧ f' = <[canon p := Dir]> f.
Proof.
  unfold mkdir_in. destruct (stat f p) as [e|] eqn:Hs; [|done].
  destruct (trailing_dot p) eqn:Ht; [done|].
  apply stat_inl_not_trailing in Hs as [? ?]%entry_at_None; [|done].
  destruct (entry_at f (parent (canon p))) as [[]|]; naive_solver.
Qed.

Lemma open_rb_inr f p c :
  open_rb f p = inr c → f !! canon p = Some (File c) ∧ canon p ≠ [].
Proof.
  unfold open_rb. destruct (stat f p) as [|[]] eqn:Hs; [done| |done].
  intros [= ->]. apply stat_inr in Hs. by destruct (canon p).
Qed.

Lemma open_wb_inr f p c f' :
  open_wb f p c = inr f' →
  f' = <[canon p := File c]> f ∧ canon p ≠ [] ∧
  ((∃ c0, f !! canon p = Some (File c0)) ∨
   (f !! canon p = None ∧ entry_at f (parent (canon p)) = Some Dir)).
Proof.
  unfold open_wb. destruct (stat f p) as [e|[c0|]] eqn:Hs; [| |done].
  - destruct (trailing_dot p) eqn:Ht; [done|].
    apply stat_inl_not_trailing in Hs as [? ?]%entry_at_None; [|done].
    destruct (entry_at f (parent (canon p))) as [[]|]; naive_solver.
  - intros [= <-]. apply stat_inr in Hs.
    destruct (canon p) eqn:?; [done|]. naive_solver.
Qed.

Lemma isdir_in_true f p : isdir_in f p = true → entry_at f (canon p) = Some Dir.
Proof.
  unfold isdir_in. destruct (stat f p) as [|[]] eqn:Hs; try done.
  by apply stat_inr in Hs.
Qed.

Lemma copy2_in_inr f src dst f' :
  copy2_in f src dst = inr f' →
  ∃ c, open_rb f src = inr c ∧
       ((isdir_in f dst = false ∧ open_wb f dst c = inr f') ∨
        (isdir_in f dst = true ∧ open_wb f (dst ++ [basename src]) c = inr f')).
Proof.
  unfold copy2_in. destruct (_ && _); [done|].
  destruct (open_rb f src) as [|c]; [done|]. intros Hw. exists c.
  destruct (isdir_in f dst); eauto.
Qed.

Lemma rmtree_in_inr f p f' :
  rmtree_in f p = inr f' →
  entry_at f (canon p) = Some Dir ∧
  f' = filter (λ ke, ¬ canon p `prefix_of` ke.1) f.
Proof.
  unfold rmtree_in. destruct (stat f p) as [|[]] eqn:Hs; try done.
  intros [= <-]. by apply stat_inr in Hs.
Qed.

Lemma remove_in_inr f p f' :
  remove_in f p = inr f' →
  (∃ c, f !! canon p = Some (File c)) ∧ f' = delete (canon p) f.
Proof.
  unfold remove_in. destruct (stat f p) as [|[c|]] eqn:Hs; try done.
  intros [= <-]. apply stat_inr in Hs. destruct (canon p); [done|]. eauto.
Qed.

Lemma lift_fs_inv op st r st' :
  lift_fs op st = (r, st') →
  (∃ f', op (fs st) = inr f' ∧ r = Ok tt ∧
         st' = State f' (md5_cache st) (log st)) ∨
  (∃ e, op (fs st) = inl e ∧ r = Raise e ∧ st' = st).
Proof.
  unfold lift_fs. destruct (op (fs st)) as [e|f']; intros [= <- <-]; eauto.
Qed.

Lemma lookup_rmtree (f : gmap path entry) (p q : path) :
  filter (λ ke : path * entry, ¬ p `prefix_of` ke.1) f !! q =
  if decide (p `prefix_of` q) then None else f !! q.
Proof.
  case_decide as Hp.
  - apply map_lookup_filter_None. right. intros e _ Hn. by apply Hn.
  - destruct (f !! q) as [e|] eqn:Hq.
    + by apply map_lookup_filter_Some.
    + apply map_lookup_filter_None. by left.
Qed.

(** *** Well-formed file systems *)

Lemma wf_parent f p x e : wf f → f !! (p ++ [x]) = Some e → entry_at f p = Some Dir.
Proof. intros Hwf Hp. apply Hwf in Hp as (_ & _ & Hp). by rewrite parent_snoc in Hp. Qed.

Lemma wf_ancestor f p q e :
  wf f → f !! (p ++ q) = Some e → q ≠ [] → entry_at f p = Some Dir.
Proof.
  intros Hwf. revert e. induction q as [|x q IH] using rev_ind; [done|].
  intros e Hp _. rewrite (assoc _) in Hp. apply wf_parent in Hp; [|done].
  destruct q as [|y q]; [by rewrite app_nil_r in Hp|].
  apply (IH Dir); [|done]. by rewrite entry_at_lookup in Hp by by destruct p.
Qed.

Lemma wf_no_dot f p e : wf f → f !! p = Some e → "." ∉ p.
Proof. intros Hwf Hp. by apply Hwf in Hp as (_ & ? & _). Qed.

Lemma wf_below_missing f p q :
  wf f → entry_at f p ≠ Some Dir → q ≠ [] → f !! (p ++ q) = None.
Proof.
  intros Hwf Hp Hq. destruct (f !! (p ++ q)) as [e|] eqn:He; [|done].
  by apply wf_ancestor in He.
Qed.

Lemma wf_insert_dir f p :
  wf f → p ≠ [] → "." ∉ p → entry_at f (parent p) = Some Dir →
  wf (<[p := Dir]> f).
Proof.
  intros Hwf Hne Hdot Hpar q e Hq.
  destruct (decide (q = p)) as [->|Hqp].
  - split_and!; [done..|]. by rewrite entry_at_insert_ne by by apply not_eq_sym, parent_ne.
  - rewrite lookup_insert_ne in Hq by done.
    destruct (Hwf q e Hq) as (? & ? & Hqpar). split_and!; [done..|].
    destruct (decide (p = parent q)) as [->|?].
    + by rewrite entry_at_insert_eq.
    + by rewrite entry_at_insert_ne.
Qed.

Lemma wf_insert_file f p c :
  wf f → p ≠ [] → "." ∉ p → entry_at f (parent p) = Some Dir →
  f !! p ≠ Some Dir →
  wf (<[p := File c]> f).
Proof.
  intros Hwf Hne Hdot Hpar Hnd q e Hq.
  destruct (decide (q = p)) as [->|Hqp].
  - split_and!; [done..|]. by rewrite entry_at_insert_ne by by apply not_eq_sym, parent_ne.
  - rewrite lookup_insert_ne in Hq by done.
    destruct (Hwf q e Hq) as (? & ? & Hqpar). split_and!; [done..|].
    destruct (decide (p = parent q)) as [->|?].
    + rewrite entry_at_lookup in Hqpar by done. done.
    + by rewrite entry_at_insert_ne.
Qed.

Lemma wf_delete_file f p c : wf f → f !! p = Some (File c) → wf (delete p f).
Proof.
  intros Hwf Hp q e Hq. apply lookup_delete_Some in Hq as [Hne Hq].
  destruct (Hwf q e Hq) as (? & ? & Hqpar). split_and!; [done..|].
  destruct (parent q) as [|y r] eqn:Hpq; [done|]. simpl in *.
  rewrite lookup_delete_ne; [done|]. intros ->. congruence.
Qed.

Lemma wf_rmtree (f : gmap path entry) (p : path) :
  wf f → wf (filter (λ ke : path * entry, ¬ p `prefix_of` ke.1) f).
Proof.
  intros Hwf q e Hq. rewrite lookup_rmtree in Hq. case_decide as Hp; [done|].
  destruct (Hwf q e Hq) as (? & ? & Hqpar). split_and!; [done..|].
  destruct (parent q) as [|y r] eqn:Hpq; [done|]. simpl in *.
  rewrite lookup_rmtree. rewrite decide_False; [done|].
  intros Hpre. apply Hp. etrans; [done|]. rewrite <-Hpq. apply parent_prefix.
Qed.

(** *** Listing a directory *)

Lemma child_name_Some top k x : child_name top k = Some x ↔ k = top ++ [x].
Proof.
  unfold child_name. split.
  - destruct (drop (length top) k) as [|y [|??]] eqn:Hd; try done.
    case_decide as Ht; [|done]. intros [= ->].
    by rewrite <-(take_drop (length top) k), Hd, Ht.
  - intros ->. by rewrite drop_app_length, take_app_length, decide_True.
Qed.

Lemma elem_of_listing (f : gmap path entry) top x e :
  (x, e) ∈ listing f top ↔ f !! (top ++ [x]) = Some e.
Proof.
  unfold listing. rewrite list_elem_of_omap. split.
  - intros ([k e'] & Hk%elem_of_map_to_list & Hx). simpl in Hx.
    destruct (child_name top k) as [y|] eqn:Hc; simplify_eq/=.
    by apply child_name_Some in Hc as ->.
  - intros Hf. exists (top ++ [x], e). split; [by apply elem_of_map_to_list|].
    simpl. by rewrite (proj2 (child_name_Some _ _ x)).
Qed.

Lemma NoDup_listing (f : gmap path entry) top : NoDup (listing f top).*1.
Proof.
  unfold listing. pose proof (NoDup_fst_map_to_list f) as Hnd.
  induction (map_to_list f) as [|[k e] l IH]; simpl; [constructor|].
  rewrite fmap_cons in Hnd. apply NoDup_cons in Hnd as [Hk Hnd].
  destruct (child_name top k) as [x|] eqn:Hc; simpl; [|by apply IH].
  constructor; [|by apply IH].
  intros ([y e'] & ? & Hy)%list_elem_of_fmap; simplify_eq/=.
  apply list_elem_of_omap in Hy as ([k' e''] & Hk' & Hx). simpl in Hx.
  destruct (child_name top k') as [z|] eqn:Hc'; simplify_eq/=.
  apply child_name_Some in Hc as ->. apply child_name_Some in Hc' as ->.
  apply Hk. change (top ++ [y] ∈ l.*1). apply list_elem_of_fmap.
  by exists (top ++ [y], e').
Qed.

Lemma elem_of_dir_names l x : x ∈ dir_names l ↔ (x, Dir) ∈ l.
Proof.
  unfold dir_names. rewrite list_elem_of_omap. split.
  - intros ([y [c|]] & ? & ?); by simplify_eq/=.
  - intros ?. by exists (x, Dir).
Qed.

Lemma elem_of_file_names l x : x ∈ file_names l ↔ ∃ c, (x, File c) ∈ l.
Proof.
  unfold file_names. rewrite list_elem_of_omap. split.
  - intros ([y [c|]] & ? & ?); simplify_eq/=. eauto.
  - intros [c ?]. by exists (x, File c).
Qed.

Lemma dir_names_sublist l : dir_names l `sublist_of` l.*1.
Proof.
  induction l as [|[x [c|]] l IH]; simpl; [done| |].
  - by apply sublist_cons.
  - by apply sublist_skip.
Qed.

Lemma file_names_sublist l : file_names l `sublist_of` l.*1.
Proof.
  induction l as [|[x [c|]] l IH]; simpl; [done| |].
  - by apply sublist_skip.
  - by apply sublist_cons.
Qed.

Section Scandir.
Context `{Platform}.

Lemma scandir_Some f top dirs files :
  scandir f top = Some (dirs, files) →
  entry_at f (canon top) = Some Dir ∧
  (∀ x, x ∈ dirs ↔ f !! (canon top ++ [x]) = Some Dir) ∧
  (∀ x, x ∈ files ↔ ∃ c, f !! (canon top ++ [x]) = Some (File c)) ∧
  NoDup dirs ∧ NoDup files.
Proof.
  unfold scandir. destruct (stat f top) as [|[|]] eqn:Hs; try done.
  intros [= <- <-]. apply stat_inr in Hs. split_and!; [done|..].
  - intros x. rewrite scandir_order_perm, elem_of_dir_names.
    apply elem_of_listing.
  - intros x. rewrite scandir_order_perm, elem_of_file_names.
    by setoid_rewrite elem_of_listing.
  - rewrite scandir_order_perm.
    apply (sublist_NoDup _ _ (NoDup_listing f (canon top))), dir_names_sublist.
  - rewrite scandir_order_perm.
    apply (sublist_NoDup _ _ (NoDup_listing f (canon top))), file_names_sublist.
Qed.

Lemma scandir_None f top :
  scandir f top = None → entry_at f (canon top) ≠ Some Dir.
Proof.
  unfold scandir, stat. destruct (entry_at f (canon top)) as [[]|]; try done.
Qed.

Lemma scandir_is_Some f top :
  "." ∉ top → entry_at f top = Some Dir → is_Some (scandir f top).
Proof.
  intros Hd He. unfold scandir. rewrite stat_clean, He by done. eauto.
Qed.
End Scandir.

(** ** Relations kept by every step of a computation *)

Section Preserves.
Context (R : relation state) `{!PreOrder R}.

Lemma preserves_ret {A} (a : A) : preserves R (ret a).
Proof. intros st r st' [= <- <-]. done. Qed.

Lemma preserves_bind {A B} (m : M A) (k : A → M B) :
  preserves R m → (∀ a, preserves R (k a)) → preserves R (bind m k).
Proof.
  intros Hm Hk st r st' Hb.
  apply bind_inv in Hb as [(a & st1 & H1 & H2)|[(e & H1 & _)|[H1 _]]].
  - etrans; [by eapply Hm|by eapply Hk].
  - by eapply Hm.
  - by eapply Hm.
Qed.

Lemma preserves_if {A} (b : bool) (m1 m2 : M A) :
  preserves R m1 → preserves R m2 → preserves R (if b then m1 else m2).
Proof. by destruct b. Qed.

Lemma preserves_for_each {A} (l : list A) (body : A → M unit) :
  (∀ x, x ∈ l → preserves R (body x)) → preserves R (for_each l body).
Proof.
  induction l as [|x l IH]; intros Hb; simpl.
  - apply preserves_ret.
  - apply preserves_bind; [apply Hb; left|].
    intros _. apply IH. intros y Hy. apply Hb. by right.
Qed.

Lemma preserves_ignore_exists (m : M unit) :
  preserves R m → preserves R (ignore_exists m).
Proof.
  intros Hm st r st' Hi. unfold ignore_exists in Hi.
  destruct (m st) as [[[]|[]|] st1] eqn:Hmst; simplify_eq; by eapply Hm.
Qed.

Lemma preserves_walk `{Platform} (Q : path → Prop) body :
  (∀ root d, Q root → Q (root ++ [d])) →
  (∀ root dirs files, Q root → preserves R (body root dirs files)) →
  ∀ n top, Q top → preserves R (os_walk n top body).
Proof.
  intros HQ Hbody n. induction n as [|n IH]; intros top Htop st r st' Hw.
  - by injection Hw as <- <-.
  - simpl in Hw. destruct (scandir (fs st) top) as [[dirs files]|].
    + revert Hw. apply preserves_bind; [by apply Hbody|].
      intros _. apply preserves_for_each. intros d _. apply IH. by apply HQ.
    + by injection Hw as <- <-.
Qed.
End Preserves.

(** ** The primitives on states *)

Lemma path_exists_inv p st r st' :
  path_exists p st = (r, st') → r = Ok (exists_in (fs st) p) ∧ st' = st.
Proof. by intros [= <- <-]. Qed.

Lemma log_operation_inv rec st r st' :
  log_operation rec st = (r, st') →
  r = Ok tt ∧ st' = State (fs st) (md5_cache st) (log st ++ [rec]).
Proof. by intros [= <- <-]. Qed.

Lemma mkdir_inv p st r st' :
  mkdir p st = (r, st') →
  (∃ f', mkdir_in (fs st) p = inr f' ∧ r = Ok tt ∧
         st' = State f' (md5_cache st) (log st)) ∨
  (∃ e, mkdir_in (fs st) p = inl e ∧ r = Raise e ∧ st' = st).
Proof. apply lift_fs_inv. Qed.

Lemma copy2_inv src dst st r st' :
  copy2 src dst st = (r, st') →
  (∃ f', copy2_in (fs st) src dst = inr f' ∧ r = Ok tt ∧
         st' = State f' (md5_cache st) (log st)) ∨
  (∃ e, copy2_in (fs st) src dst = inl e ∧ r = Raise e ∧ st' = st).
Proof. apply lift_fs_inv. Qed.

Lemma rmtree_inv p st r st' :
  rmtree p st = (r, st') →
  (∃ f', rmtree_in (fs st) p = inr f' ∧ r = Ok tt ∧
         st' = State f' (md5_cache st) (log st)) ∨
  (∃ e, rmtree_in (fs st) p = inl e ∧ r = Raise e ∧ st' = st).
Proof. apply lift_fs_inv. Qed.

Lemma remove_inv p st r st' :
  remove p st = (r, st') →
  (∃ f', remove_in (fs st) p = inr f' ∧ r = Ok tt ∧
         st' = State f' (md5_cache st) (log st)) ∨
  (∃ e, remove_in (fs st) p = inl e ∧ r = Raise e ∧ st' = st).
Proof. apply lift_fs_inv. Qed.

Global Instance creates_dirs_preorder P : PreOrder (creates_dirs P).
Proof.
  split.
  - intros st. split_and!; auto.
  - intros st1 st2 st3 (Hc1 & Hl1 & Hw1 & H1) (Hc2 & Hl2 & Hw2 & H2).
    split_and!; [congruence|congruence|auto|].
    intros q. destruct (H2 q) as [Heq|(? & Hn & Hd)].
    + rewrite Heq. apply H1.
    + destruct (H1 q) as [Heq|(? & ? & ?)]; [|congruence].
      right. split_and!; [done| |done]. by rewrite <-Heq.
Qed.

Lemma creates_dirs_weaken P P' st st' :
  P `prefix_of` P' → creates_dirs P st st' → creates_dirs P' st st'.
Proof.
  intros HP (? & ? & ? & Hq). split_and!; [done..|].
  intros q. destruct (Hq q) as [|(? & ? & ?)]; [by left|right].
  split_and!; [by etrans|done..].
Qed.

Lemma mkdir_creates p : preserves (creates_dirs (canon p)) (mkdir p).
Proof.
  intros st r st' [(f' & Hm & -> & ->)|(e & _ & _ & ->)]%mkdir_inv; [|done].
  apply mkdir_in_inr in Hm as (Hn & Hne & Hpar & ->).
  unfold creates_dirs; simpl. split_and!; [done..| |].
  - intros Hwf. apply wf_insert_dir; auto using canon_no_dot.
  - intros q. destruct (decide (q = canon p)) as [->|].
    + right. by rewrite lookup_insert_eq.
    + left. by rewrite lookup_insert_ne.
Qed.

Lemma path_exists_preserves R `{!Reflexive R} p : preserves R (path_exists p).
Proof. by intros st r st' [_ ->]%path_exists_inv. Qed.

Lemma canon_rev_cons x r : canon (rev r) `prefix_of` canon (rev (x :: r)).
Proof. simpl. rewrite canon_app. by eexists. Qed.

Lemma makedirs_rev_creates r :
  preserves (creates_dirs (canon (rev r))) (makedirs_rev r).
Proof.
  induction r as [|tail rhead IH]; [apply mkdir_creates|].
  cbn [makedirs_rev]. apply preserves_bind; [apply _|apply path_exists_preserves, _|].
  intros b. destruct b; [apply mkdir_creates|].
  apply preserves_bind; [apply _|..].
  - apply preserves_ignore_exists. intros st r st' Hm.
    eapply creates_dirs_weaken; [apply canon_rev_cons|by eapply IH].
  - intros _. case_decide; [by apply preserves_ret, _|apply mkdir_creates].
Qed.

Lemma makedirs_creates p : preserves (creates_dirs (canon p)) (makedirs p).
Proof.
  unfold makedirs. rewrite <-(rev_involutive p) at 1. apply makedirs_rev_creates.
Qed.

Lemma mkdir_exists_error p st q st' :
  mkdir p st = (Raise (FileExistsError q), st') → exists_in (fs st) p = true.
Proof.
  intros [(f' & _ & ? & _)|(e & Hm & [= <-] & _)]%mkdir_inv; [done|].
  unfold mkdir_in in Hm. unfold exists_in.
  destruct (stat (fs st) p) as [e|] eqn:Hs; [|done].
  destruct (trailing_dot p) eqn:Ht.
  - injection Hm as ->. unfold stat in Hs. rewrite Ht in Hs.
    destruct (entry_at (fs st) (canon p)) as [[]|]; try done.
    unfold missing_error in Hs. by case_match.
  - destruct (entry_at _ (parent _)) as [[]|]; try done;
      unfold missing_error in Hm; by case_match.
Qed.

Lemma mkdir_Ok p st st' :
  mkdir p st = (Ok tt, st') →
  entry_at (fs st) (canon p) = None ∧ entry_at (fs st') (canon p) = Some Dir.
Proof.
  intros [(f' & Hm & _ & ->)|(e & _ & ? & _)]%mkdir_inv; [|done].
  apply mkdir_in_inr in Hm as (Hn & Hne & _ & ->). simpl.
  rewrite !entry_at_lookup by done. by rewrite lookup_insert_eq.
Qed.

Lemma exists_in_false_not_trailing f p :
  exists_in f p = false → trailing_dot p = false → entry_at f (canon p) = None.
Proof.
  unfold exists_in. destruct (stat f p) as [e|] eqn:Hs; [|done].
  intros _. by apply (stat_inl_not_trailing _ _ e).
Qed.

Lemma makedirs_rev_exists_error r st q st' :
  makedirs_rev r st = (Raise (FileExistsError q), st') →
  exists_in (fs st) (rev r) = true.
Proof.
  revert st q st'. induction r as [|tail rhead IH]; intros st q st' Hm.
  { by apply mkdir_exists_error in Hm. }
  cbn [makedirs_rev] in Hm.
  apply bind_inv in Hm as [(b & st1 & [[= ->] ->]%path_exists_inv & Hm)|
    [(e & [? _]%path_exists_inv & _)|[[? _]%path_exists_inv _]]]; [|done..].
  destruct (exists_in (fs st) (rev rhead)) eqn:Hex.
  { by apply mkdir_exists_error in Hm. }
  apply bind_inv in Hm as [([] & st1 & Hi & Hm)|[(e & Hi & [= <-])|[_ ?]]];
    [| |done].
  - case_decide as Ht; [done|].
    pose proof Hm as Hm'%mkdir_exists_error.
    assert (creates_dirs (canon (rev rhead)) st st1) as (_ & _ & _ & Hfr).
    { revert Hi. apply preserves_ignore_exists; try apply _.
      apply makedirs_rev_creates. }
    destruct (exists_in (fs st) (rev (tail :: rhead))) eqn:Hex'; [done|].
    apply exists_in_false_not_trailing in Hex'; [|simpl; rewrite trailing_dot_snoc;
      by apply bool_decide_eq_false].
    apply exists_in_Some in Hm' as [e He]. simpl in *.
    rewrite canon_app, canon_single in * by done.
    rewrite entry_at_snoc in *.
    destruct (Hfr (canon (rev rhead) ++ [tail])) as [Heq|(Hpre & _)].
    + congruence.
    + by apply prefix_snoc_not in Hpre.
  - unfold ignore_exists in Hi.
    by destruct (makedirs_rev rhead st) as [[[]|[]|] ?].
Qed.

Lemma makedirs_rev_Ok r st st' :
  makedirs_rev r st = (Ok tt, st') →
  entry_at (fs st) (canon (rev r)) = None ∧
  entry_at (fs st') (canon (rev r)) = Some Dir.
Proof.
  revert st st'. induction r as [|tail rhead IH]; intros st st' Hm.
  { by apply mkdir_Ok in Hm. }
  cbn [makedirs_rev] in Hm.
  apply bind_inv in Hm as [(b & st1 & [[= ->] ->]%path_exists_inv & Hm)|
    [(e & [? _]%path_exists_inv & _)|[[? _]%path_exists_inv _]]]; [|done..].
  destruct (exists_in (fs st) (rev rhead)) eqn:Hex.
  { by apply mkdir_Ok in Hm. }
  apply bind_inv in Hm as [([] & st1 & Hi & Hm)|[(e & _ & ?)|[_ ?]]]; [|done..].
  assert (creates_dirs (canon (rev rhead)) st st1) as (_ & _ & _ & Hfr).
  { revert Hi. apply preserves_ignore_exists; try apply _.
    apply makedirs_rev_creates. }
  assert (makedirs_rev rhead st = (Ok tt, st1)) as Hinner.
  { unfold ignore_exists in Hi.
    destruct (makedirs_rev rhead st) as [[[]|[]|] st2] eqn:Hmr; simplify_eq; try done.
    apply makedirs_rev_exists_error in Hmr. congruence. }
  apply IH in Hinner as [Hbefore Hafter].
  case_decide as Ht.
  - injection Hm as <-. subst tail. simpl.
    by rewrite canon_app, canon_dot, app_nil_r.
  - apply mkdir_Ok in Hm as [Hn Hd]. split; [|done].
    simpl in *. rewrite canon_app, canon_single in * by done.
    rewrite entry_at_snoc in *.
    destruct (Hfr (canon (rev rhead) ++ [tail])) as [Heq|(_ & ? & _)]; congruence.
Qed.

Lemma makedirs_Ok p st st' :
  makedirs p st = (Ok tt, st') →
  entry_at (fs st) (canon p) = None ∧ entry_at (fs st') (canon p) = Some Dir.
Proof.
  unfold makedirs. intros Hm%makedirs_rev_Ok. by rewrite rev_involutive in Hm.
Qed.

Lemma copy2_spec src dst st r st' :
  copy2 src dst st = (r, st') →
  md5_cache st' = md5_cache st ∧ log st' = log st ∧
  ((∃ e, r = Raise e ∧ st' = st) ∨
   (r = Ok tt ∧ ∃ c d,
      fs st !! canon src = Some (File c) ∧
      fs st' = <[d := File c]> (fs st) ∧
      fs st !! d ≠ Some Dir ∧
      (wf (fs st) → wf (fs st')) ∧
      ((isdir_in (fs st) dst = false ∧ d = canon dst) ∨
       (isdir_in (fs st) dst = true ∧ d = canon (dst ++ [basename src]))))).
Proof.
  intros [(f' & Hc & -> & ->)|(e & _ & -> & ->)]%copy2_inv; simpl;
    (split; [done|]); (split; [done|]); [right|left; eauto].
  split; [done|].
  apply copy2_in_inr in Hc as (c & [Hsrc _]%open_rb_inr & Hw).
  assert (∀ p, open_wb (fs st) p c = inr f' →
    f' = <[canon p := File c]> (fs st) ∧ fs st !! canon p ≠ Some Dir ∧
    (wf (fs st) → wf f')) as Hopen.
  { intros p (-> & Hne & Hold)%open_wb_inr. split; [done|].
    assert (fs st !! canon p ≠ Some Dir) as Hnd.
    { destruct Hold as [[c0 Hc0]|[Hn _]]; congruence. }
    split; [done|]. intros Hwf.
    apply wf_insert_file; auto using canon_no_dot.
    destruct Hold as [[c0 Hc0]|[_ ?]]; [|done].
    by apply Hwf in Hc0 as (_ & _ & ?). }
  exists c. destruct Hw as [[Hd Hw]|[Hd Hw]]; apply Hopen in Hw as (-> & ? & ?).
  - exists (canon dst). eauto 10.
  - exists (canon (dst ++ [basename src])). eauto 10.
Qed.

Lemma rmtree_spec p st r st' :
  rmtree p st = (r, st') →
  md5_cache st' = md5_cache st ∧ log st' = log st ∧
  ((∃ e, r = Raise e ∧ st' = st) ∨
   (r = Ok tt ∧ entry_at (fs st) (canon p) = Some Dir ∧
    fs st' = filter (λ ke, ¬ canon p `prefix_of` ke.1) (fs st))).
Proof.
  intros [(f' & Hc & -> & ->)|(e & _ & -> & ->)]%rmtree_inv; simpl;
    (split; [done|]); (split; [done|]); [right|left; eauto].
  by apply rmtree_in_inr in Hc as [? ->].
Qed.

Lemma remove_spec p st r st' :
  remove p st = (r, st') →
  md5_cache st' = md5_cache st ∧ log st' = log st ∧
  ((∃ e, r = Raise e ∧ st' = st) ∨
   (r = Ok tt ∧ (∃ c, fs st !! canon p = Some (File c)) ∧
    fs st' = delete (canon p) (fs st))).
Proof.
  intros [(f' & Hc & -> & ->)|(e & _ & -> & ->)]%remove_inv; simpl;
    (split; [done|]); (split; [done|]); [right|left; eauto].
  by apply remove_in_inr in Hc as [? ->].
Qed.

Section Fingerprint_steps.
Context `{Platform}.

Lemma calculate_md5_spec p st r st' :
  calculate_md5 p st = (r, st') →
  fs st' = fs st ∧ log st' = log st ∧
  ((st' = st ∧ ∀ h, r = Ok (Some h) → md5_cache st !! p = Some h) ∨
   (∃ c, md5_cache st !! p = None ∧ fs st !! canon p = Some (File c) ∧
         r = Ok (Some (file_md5 c)) ∧
         md5_cache st' = <[p := file_md5 c]> (md5_cache st))).
Proof.
  unfold calculate_md5. destruct (md5_cache st !! p) as [h|] eqn:Hc.
  { intros [= <- <-]. split_and!; [done..|]. left. naive_solver. }
  destruct (open_rb (fs st) p) as [e|c] eqn:Ho.
  - destruct e; intros [= <- <-]; split_and!; try done; left; naive_solver.
  - intros [= <- <-]. split_and!; [done..|]. right. exists c.
    by apply open_rb_inr in Ho as [? _].
Qed.
End Fingerprint_steps.

(** ** C3: what a pass may touch *)

Global Instance touches_replica_preorder rep : PreOrder (touches_replica rep).
Proof.
  split; [by left|].
  intros st1 st2 st3 H1 H2 p.
  destruct (H2 p) as [Heq|[?|(? & Hn & Hd)]]; [|by auto|].
  - rewrite Heq. apply H1.
  - destruct (H1 p) as [Heq|[?|(? & ? & ?)]]; [|by auto|congruence].
    right. right. split_and!; [done|congruence|done].
Qed.

Lemma touches_same_fs rep st st' : fs st' = fs st → touches_replica rep st st'.
Proof. intros Hfs p. left. by rewrite Hfs. Qed.

Lemma creates_dirs_touches rep P st st' :
  rep `prefix_of` P → creates_dirs P st st' → touches_replica rep st st'.
Proof.
  intros Hrep (_ & _ & _ & Hq) p.
  destruct (Hq p) as [?|(Hpre & ? & ?)]; [by left|right].
  destruct (prefix_weak_total _ _ _ Hrep Hpre); auto.
Qed.

Lemma log_operation_touches rep rec : preserves (touches_replica rep) (log_operation rec).
Proof. intros st r st' [_ ->]%log_operation_inv. by apply touches_same_fs. Qed.

Lemma makedirs_touches rep p :
  rep `prefix_of` canon p → preserves (touches_replica rep) (makedirs p).
Proof.
  intros Hrep st r st' Hm. eapply creates_dirs_touches; [done|].
  by eapply makedirs_creates.
Qed.

Lemma copy2_touches rep src dst :
  rep `prefix_of` canon dst → preserves (touches_replica rep) (copy2 src dst).
Proof.
  intros Hrep st r st' (_ & _ & [(e & _ & ->)|(_ & c & d & _ & Hfs & _ & _ & Hd)])%copy2_spec;
    [done|].
  intros p. rewrite Hfs. destruct (decide (p = d)) as [->|]; [|left; by rewrite lookup_insert_ne].
  right. left. destruct Hd as [[_ ->]|[_ ->]]; [done|].
  rewrite canon_app. by apply prefix_app_r.
Qed.

Lemma rmtree_touches rep p :
  rep `prefix_of` canon p → preserves (touches_replica rep) (rmtree p).
Proof.
  intros Hrep st r st' (_ & _ & [(e & _ & ->)|(_ & _ & Hfs)])%rmtree_spec; [done|].
  intros q. rewrite Hfs, lookup_rmtree. case_decide; [|by left].
  right. left. by etrans.
Qed.

Lemma remove_touches rep p :
  rep `prefix_of` canon p → preserves (touches_replica rep) (remove p).
Proof.
  intros Hrep st r st' (_ & _ & [(e & _ & ->)|(_ & _ & Hfs)])%remove_spec; [done|].
  intros q. rewrite Hfs. destruct (decide (q = canon p)) as [->|]; [by auto|].
  left. by rewrite lookup_delete_ne.
Qed.

Section Touches.
Context `{Platform} (self : FolderSynchronizer).
Hypothesis clean_replica : "." ∉ replica self.

Local Abbreviation R := (touches_replica (replica self)).

Lemma replica_prefix_canon x : replica self `prefix_of` canon (replica self ++ x).
Proof. rewrite canon_app, canon_clean by done. by apply prefix_app_r. Qed.

Lemma calculate_md5_touches p : preserves R (calculate_md5 p).
Proof. intros st r st' (? & _)%calculate_md5_spec. by apply touches_same_fs. Qed.

Lemma copy_or_update_touches root x file :
  preserves R (copy_or_update root (replica self ++ x) file).
Proof.
  unfold copy_or_update.
  apply preserves_bind; [apply _|apply path_exists_preserves, _|]. intros present.
  apply preserves_bind; [apply _|..].
  - destruct present; simpl; [|apply preserves_ret, _].
    apply preserves_bind; [apply _|apply calculate_md5_touches|]. intros h1.
    apply preserves_bind; [apply _|apply calculate_md5_touches|]. intros h2.
    apply preserves_ret, _.
  - intros [|]; [|apply preserves_ret, _].
    apply preserves_bind; [apply _| |intros _; apply log_operation_touches].
    apply copy2_touches. rewrite <-(assoc _). apply replica_prefix_canon.
Qed.

Lemma forward_body_touches root dirs files :
  preserves R (forward_body self root dirs files).
Proof.
  unfold forward_body.
  apply preserves_bind; [apply _|apply path_exists_preserves, _|]. intros present.
  apply preserves_bind; [apply _|..].
  - destruct present; simpl; [apply preserves_ret, _|].
    apply preserves_bind; [apply _| |intros _; apply log_operation_touches].
    apply makedirs_touches, replica_prefix_canon.
  - intros _. apply preserves_for_each; [apply _|].
    intros file _. apply copy_or_update_touches.
Qed.

Lemma reverse_body_touches x dirs files :
  preserves R (reverse_body self (replica self ++ x) dirs files).
Proof.
  unfold reverse_body.
  apply preserves_bind; [apply _|apply path_exists_preserves, _|]. intros present.
  apply preserves_bind; [apply _|..].
  - destruct present; simpl; [apply preserves_ret, _|].
    apply preserves_bind; [apply _| |intros _; apply log_operation_touches].
    apply rmtree_touches, replica_prefix_canon.
  - intros _. apply preserves_for_each; [apply _|].
    intros file _. unfold remove_extra.
    apply preserves_bind; [apply _|apply path_exists_preserves, _|].
    intros [|]; simpl; [apply preserves_ret, _|].
    apply preserves_bind; [apply _| |intros _; apply log_operation_touches].
    apply remove_touches. rewrite <-(assoc _). apply replica_prefix_canon.
Qed.

Lemma ensure_replica_touches : preserves R (ensure_replica self).
Proof.
  unfold ensure_replica.
  apply preserves_bind; [apply _|apply path_exists_preserves, _|].
  intros [|]; simpl; [apply preserves_ret, _|].
  apply preserves_bind; [apply _| |intros _; apply log_operation_touches].
  apply makedirs_touches. by rewrite canon_clean.
Qed.

Lemma sync_pass_touches n : preserves R (sync_pass self n).
Proof.
  unfold sync_pass.
  apply preserves_bind; [apply _|apply ensure_replica_touches|]. intros _.
  apply preserves_bind; [apply _|..].
  - apply (preserves_walk _ (λ _, True)); auto using forward_body_touches.
  - intros _. apply (preserves_walk _ (λ p, ∃ x, p = replica self ++ x)).
    + intros root d [x ->]. exists (x ++ [d]). by rewrite (assoc _).
    + intros root dirs files [x ->]. apply reverse_body_touches.
    + exists []. by rewrite app_nil_r.
Qed.

Lemma sync_folders_touches n st st' :
  sync_folders self n st = Some st' → R st st'.
Proof.
  unfold sync_folders. destruct (sync_pass self n st) as [[[]|e|] st1] eqn:Hp;
    intros [= <-].
  - by eapply sync_pass_touches.
  - etrans; [by eapply sync_pass_touches|]. by apply touches_same_fs.
Qed.
End Touches.


Lemma separate_sr : separate_roots sr.
Proof.
  split_and!; simpl.
  - by intros ?%list_elem_of_singleton.
  - by intros ?%list_elem_of_singleton.
  - by intros ?%prefix_cons_inv_1.
  - by intros ?%prefix_cons_inv_1.
Qed.



(** ** C4: the error handler of [sync_folders] *)



(** ** The code at the inputs where it leaves the specification *)

(** C5. A replica directory [r/d] that the source does not have, with a
    file [f] in it: the directory is removed with its subtree and one
    record is written for it, but the loop over the listed files goes on,
    [os.remove] is called on [r/d/f], which is gone, and the pass ends in
    the error handler. *)
Theorem orphan_dir_removed_then_touched :
  sync_folders sr 5 (fresh orphan_dir_fs) = Some orphan_after ∧
  log orphan_after
  = [RemovedFolder ["r"; "d"]; SyncError (FileNotFoundError ["r"; "d"; "f"])] ∧
  fs orphan_after = list_to_map [ (["s"], Dir); (["r"], Dir) ].
Proof. split_and!; vm_compute; reflexivity. Qed.

(** C10. No source root, a replica root with a file in it: the replica tree
    is removed, root included, and logged as a folder removal; then
    [os.remove] is called on the listed file and the error is reported. *)
Theorem missing_source_empties_replica :
  sync_folders sr 5 (fresh no_source_fs) = Some no_source_after ∧
  fs no_source_after = ∅ ∧
  log no_source_after
  = [RemovedFolder ["r"]; SyncError (FileNotFoundError ["r"; "f"])].
Proof. split_and!; vm_compute; reflexivity. Qed.

(** C6. The source file [s/f] was listed and has vanished; the replica has
    [r/f]. The fingerprint of the source file is [None], it differs from
    the fingerprint of the replica file, and [shutil.copy2] raises. *)
Theorem vanished_source_file_raises :
  calculate_md5 ["s"; "f"] (fresh vanished_fs) = (Ok None, fresh vanished_fs) ∧
  (copy_or_update ["s"] ["r"; "."] "f" (fresh vanished_fs)).1
  = Raise (FileNotFoundError ["s"; "f"]) ∧
  (for_each ["f"] (copy_or_update ["s"] ["r"; "."]) (fresh vanished_fs)).1
  = Raise (FileNotFoundError ["s"; "f"]).
Proof. split_and!; vm_compute; reflexivity. Qed.

(** ** Counterexamples to the claims as stated *)

(** C7, as stated, fails: a directory cannot be opened and
    [calculate_md5] raises; a cached path whose file is gone cannot be
    opened and [calculate_md5] returns the cached fingerprint. *)
Lemma calculate_md5_unopenable :
  (calculate_md5 ["s"; "d"] stale_state).1 = Raise (IsADirectoryError ["s"; "d"]) ∧
  open_rb (fs stale_state) ["s"; "gone"] = inl (FileNotFoundError ["s"; "gone"]) ∧
  (calculate_md5 ["s"; "gone"] stale_state).1 = Ok (Some "abc").
Proof. split_and!; vm_compute; reflexivity. Qed.

Lemma calculate_md5_missing_witness :
  md5_cache (fresh vanished_fs) !! ["s"; "f"] = None ∧
  open_rb (fs (fresh vanished_fs)) ["s"; "f"] = inl (FileNotFoundError ["s"; "f"]) ∧
  calculate_md5 ["s"; "f"] (fresh vanished_fs) = (Ok None, fresh vanished_fs).
Proof.
  split; [vm_compute; reflexivity|]. split; [vm_compute; reflexivity|].
  apply (calculate_md5_missing (fresh vanished_fs) ["s"; "f"] ["s"; "f"]);
    vm_compute; reflexivity.
Defined.

Lemma calculate_md5_cache_witness :
  md5_cache stale_state !! ["s"; "gone"] = Some "abc" ∧
  calculate_md5 ["s"; "gone"] stale_state = (Ok (Some "abc"), stale_state).
Proof.
  split; [vm_compute; reflexivity|].
  apply (calculate_md5_cache stale_state ["s"; "gone"]). vm_compute; reflexivity.
Defined.

Lemma three_phases_order l i j ri rj :
  three_phases l → l !! i = Some ri → l !! j = Some rj →
  is_copy ri = true → is_creation rj = true → j < i.
Proof.
  intros (l1 & l2 & l3 & -> & H1 & H2 & H3) Hi Hj Hci Hcj.
  assert (j < length l1) as Hjl.
  { destruct (decide (j < length l1)); [done|].
    rewrite lookup_app_r in Hj by lia.
    apply list_elem_of_lookup_2, elem_of_app in Hj as [Hj|Hj].
    - rewrite Forall_forall in H2. apply H2 in Hj. by destruct rj.
    - rewrite Forall_forall in H3. apply H3 in Hj. by destruct rj. }
  destruct (decide (i < length l1)); [|lia].
  rewrite lookup_app_l in Hi by done.
  apply list_elem_of_lookup_2 in Hi.
  rewrite Forall_forall in H1. apply H1 in Hi. by destruct ri.
Qed.

(** C9, as stated, fails: the file [a.txt] of the source root is copied
    before the directory [d] is created. *)
Lemma copy_before_creation :
  sync_pass sr 5 (fresh demo_fs) = (Ok tt, demo_after) ∧
  log demo_after !! 0 = Some (CopiedFile ["r"; "."; "a.txt"]) ∧
  log demo_after !! 1 = Some (CreatedFolder ["r"; "d"]) ∧
  ¬ three_phases (log demo_after).
Proof.
  split_and!; [vm_compute; reflexivity..|].
  intros Hp.
  assert (1 < 0); [|lia].
  apply (three_phases_order _ 0 1 (CopiedFile ["r"; "."; "a.txt"])
           (CreatedFolder ["r"; "d"]) Hp); vm_compute; reflexivity.
Qed.



(** ** C9: the order of the actions of a pass *)

Lemma parents_first_nil : parents_first [].
Proof. intros i j ri rj p q Hi. by rewrite lookup_nil in Hi. Qed.

Lemma parents_first_snoc_copy l rec :
  parents_first l → created_dir rec = None → parents_first (l ++ [rec]).
Proof.
  intros Hl Hrec i j ri rj p q Hi Hj Hp Hq Hpar.
  destruct (decide (j < length l)) as [Hjl|Hjl].
  - destruct (decide (i < length l)) as [Hil|Hil].
    + rewrite lookup_app_l in Hi, Hj by done. by eapply Hl.
    + lia.
  - rewrite lookup_app_r in Hj by lia.
    apply list_lookup_singleton_Some in Hj as [_ ->]. congruence.
Qed.

Lemma parents_first_snoc_creation l rec :
  parents_first l → copied_file rec = None →
  (∀ ri p, ri ∈ l → copied_file ri = Some p → created_dir rec ≠ Some (parent p)) →
  parents_first (l ++ [rec]).
Proof.
  intros Hl Hrec Hnew i j ri rj p q Hi Hj Hp Hq Hpar.
  destruct (decide (i < length l)) as [Hil|Hil].
  - rewrite lookup_app_l in Hi by done.
    destruct (decide (j < length l)) as [Hjl|Hjl].
    + rewrite lookup_app_l in Hj by done. by eapply Hl.
    + rewrite lookup_app_r in Hj by lia.
      apply list_lookup_singleton_Some in Hj as [_ ->].
      apply list_elem_of_lookup_2 in Hi. destruct (Hnew ri p Hi Hp). congruence.
  - rewrite lookup_app_r in Hi by lia.
    apply list_lookup_singleton_Some in Hi as [_ ->]. congruence.
Qed.

Global Instance keeps_fwd_inv_preorder l0 : PreOrder (keeps_fwd_inv l0).
Proof.
  split; [by intros st ?|]. intros st1 st2 st3 H1 H2 ?. by apply H2, H1.
Qed.

Lemma entry_at_mono (f f' : gmap path entry) p :
  (∀ q, is_Some (f !! q) → is_Some (f' !! q)) →
  is_Some (entry_at f p) → is_Some (entry_at f' p).
Proof. intros Hm. destruct p; [done|]. apply Hm. Qed.

Lemma fwd_inv_grow l0 st st' :
  log st' = log st → wf (fs st') →
  (∀ q, is_Some (fs st !! q) → is_Some (fs st' !! q)) →
  fwd_inv l0 st → fwd_inv l0 st'.
Proof.
  intros Hl Hwf Hm (_ & Δ & HΔ & Hk & Hpf & Hpar). split; [done|].
  exists Δ. rewrite Hl. split_and!; [done..|].
  intros ri p Hri Hp. eapply entry_at_mono; [done|]. by eapply Hpar.
Qed.

Lemma creates_dirs_mono P st st' q :
  creates_dirs P st st' → is_Some (fs st !! q) → is_Some (fs st' !! q).
Proof.
  intros (_ & _ & _ & Hq) Hs. destruct (Hq q) as [->|(_ & Hn & _)]; [done|].
  rewrite Hn in Hs. by destruct Hs.
Qed.

Lemma makedirs_keeps_fwd_inv l0 p : preserves (keeps_fwd_inv l0) (makedirs p).
Proof.
  intros st r st' Hm%makedirs_creates Hinv.
  pose proof Hm as (_ & Hl & Hwf & _).
  eapply fwd_inv_grow; [done|apply Hwf, Hinv| |done].
  intros q. by eapply creates_dirs_mono.
Qed.

Lemma wf_entry_parent f p :
  wf f → is_Some (entry_at f p) → is_Some (entry_at f (parent p)).
Proof.
  intros Hwf Hp. destruct p as [|x p]; [done|].
  destruct Hp as [e He]. apply Hwf in He as (_ & _ & ->). eauto.
Qed.

(** A directory is created and the record of it is written. *)
Lemma created_keeps_fwd_inv l0 p rec :
  is_creation rec = true → created_dir rec = Some (canon p) →
  preserves (keeps_fwd_inv l0) (makedirs p ;; log_operation rec).
Proof.
  intros Hkind Hdir st r st' Hb.
  apply bind_inv in Hb as [([] & st1 & Hm & [_ ->]%log_operation_inv)|
    [(e & Hm & _)|[Hm _]]]; [|by eapply makedirs_keeps_fwd_inv..].
  intros Hinv. pose proof (makedirs_keeps_fwd_inv l0 p _ _ _ Hm Hinv) as Hinv1.
  pose proof (makedirs_creates p _ _ _ Hm) as (_ & Hl & _ & _).
  apply makedirs_Ok in Hm as [Hnone _].
  destruct Hinv as (_ & Δ0 & HΔ0 & _ & _ & Hpar0).
  destruct Hinv1 as (Hwf & Δ & HΔ & Hk & Hpf & Hpar). split; [done|]. simpl.
  exists (Δ ++ [rec]). rewrite HΔ. split_and!; [by rewrite <-app_assoc|..].
  - apply Forall_app. split; [done|]. apply Forall_singleton.
    by rewrite Hkind.
  - apply parents_first_snoc_creation; [done|by destruct rec|].
    intros ri q Hri Hq. rewrite Hdir. intros [= Heq].
    assert (Δ = Δ0) as -> by (apply (inj (app l0)); congruence).
    destruct (Hpar0 ri q Hri Hq) as [e He]. congruence.
  - intros ri q [Hri| ->%list_elem_of_singleton]%elem_of_app Hq; [by eapply Hpar|].
    by destruct rec.
Qed.

(** A file is copied and the record of it is written. *)
Lemma copied_keeps_fwd_inv l0 src dst :
  preserves (keeps_fwd_inv l0) (copy2 src dst ;; log_operation (CopiedFile dst)).
Proof.
  intros st r st' Hb.
  apply bind_inv in Hb as [([] & st1 & Hc & [_ ->]%log_operation_inv)|
    [(e & Hc & _)|[Hc _]]].
  2,3: apply copy2_spec in Hc as (_ & _ & [(e' & _ & ->)|(? & _)]); done.
  apply copy2_spec in Hc as (_ & Hl & [(e' & ? & _)|(_ & c & d & Hsrc & Hfs & Hnd & Hwf & Hd)]);
    [done|].
  intros (Hwf0 & Δ & HΔ & Hk & Hpf & Hpar). split; [by apply Hwf|]. simpl.
  exists (Δ ++ [CopiedFile dst]). rewrite Hl, HΔ.
  split_and!; [by rewrite <-app_assoc|..].
  - apply Forall_app. split; [done|]. by apply Forall_singleton.
  - by apply parents_first_snoc_copy.
  - assert (∀ q, is_Some (fs st !! q) → is_Some (fs st1 !! q)) as Hmono.
    { intros q Hq. rewrite Hfs. destruct (decide (q = d)) as [->|].
      - rewrite lookup_insert_eq. eauto.
      - by rewrite lookup_insert_ne. }
    intros ri q [Hri| ->%list_elem_of_singleton]%elem_of_app Hq.
    { eapply entry_at_mono; [done|]. by eapply Hpar. }
    injection Hq as <-. apply wf_entry_parent; [by apply Hwf|].
    destruct Hd as [[_ ->]|[Hdir ->]].
    + destruct (canon dst); [done|]. simpl. rewrite Hfs, lookup_insert_eq. eauto.
    + apply isdir_in_true in Hdir. eapply entry_at_mono; [done|]. eauto.
Qed.

Lemma keeps_fwd_inv_same l0 st st' :
  fs st' = fs st → log st' = log st → keeps_fwd_inv l0 st st'.
Proof.
  intros Hfs Hl Hinv. eapply fwd_inv_grow; [done|rewrite Hfs; apply Hinv| |done].
  intros q. by rewrite Hfs.
Qed.

Global Instance logs_removals_preorder : PreOrder logs_removals.
Proof.
  split.
  - intros st. exists []. by rewrite app_nil_r.
  - intros st1 st2 st3 (Δ1 & H1 & ?) (Δ2 & H2 & ?). exists (Δ1 ++ Δ2).
    split; [by rewrite H2, H1, <-app_assoc|]. by apply Forall_app.
Qed.

Lemma logs_removals_same st st' : log st' = log st → logs_removals st st'.
Proof. intros Hl. exists []. by rewrite app_nil_r. Qed.

Section Phases.
Context `{Platform} (self : FolderSynchronizer).

Lemma calculate_md5_keeps_fwd_inv l0 p :
  preserves (keeps_fwd_inv l0) (calculate_md5 p).
Proof.
  intros st r st' (? & ? & _)%calculate_md5_spec. by apply keeps_fwd_inv_same.
Qed.

Lemma copy_or_update_keeps_fwd_inv l0 root replica_root file :
  preserves (keeps_fwd_inv l0) (copy_or_update root replica_root file).
Proof.
  unfold copy_or_update.
  apply preserves_bind; [apply _|apply path_exists_preserves, _|]. intros present.
  apply preserves_bind; [apply _|..].
  - destruct present; simpl; [|apply preserves_ret, _].
    apply preserves_bind; [apply _|apply calculate_md5_keeps_fwd_inv|]. intros h1.
    apply preserves_bind; [apply _|apply calculate_md5_keeps_fwd_inv|]. intros h2.
    apply preserves_ret, _.
  - intros [|]; [apply copied_keeps_fwd_inv|apply preserves_ret, _].
Qed.

Lemma forward_body_keeps_fwd_inv l0 root dirs files :
  preserves (keeps_fwd_inv l0) (forward_body self root dirs files).
Proof.
  unfold forward_body.
  apply preserves_bind; [apply _|apply path_exists_preserves, _|]. intros present.
  apply preserves_bind; [apply _|..].
  - destruct present; simpl; [apply preserves_ret, _|].
    by apply created_keeps_fwd_inv.
  - intros _. apply preserves_for_each; [apply _|].
    intros file _. apply copy_or_update_keeps_fwd_inv.
Qed.

Lemma ensure_replica_keeps_fwd_inv l0 :
  preserves (keeps_fwd_inv l0) (ensure_replica self).
Proof.
  unfold ensure_replica.
  apply preserves_bind; [apply _|apply path_exists_preserves, _|].
  intros [|]; simpl; [apply preserves_ret, _|].
  by apply created_keeps_fwd_inv.
Qed.

Lemma removed_logs_removals (m : M unit) rec :
  (∀ st r st', m st = (r, st') → log st' = log st) →
  is_removal rec = true →
  preserves logs_removals (m ;; log_operation rec).
Proof.
  intros Hm Hrec st r st' Hb.
  apply bind_inv in Hb as [([] & st1 & Hm1 & [_ ->]%log_operation_inv)|
    [(e & Hm1 & _)|[Hm1 _]]]; [|by eapply logs_removals_same, Hm..].
  exists [rec]. simpl. split; [by rewrite (Hm _ _ _ Hm1)|].
  by apply Forall_singleton.
Qed.

Lemma reverse_body_logs_removals root dirs files :
  preserves logs_removals (reverse_body self root dirs files).
Proof.
  unfold reverse_body.
  apply preserves_bind; [apply _|apply path_exists_preserves, _|]. intros present.
  apply preserves_bind; [apply _|..].
  - destruct present; simpl; [apply preserves_ret, _|].
    apply removed_logs_removals; [|done].
    by intros st r st' (_ & ? & _)%rmtree_spec.
  - intros _. apply preserves_for_each; [apply _|].
    intros file _. unfold remove_extra.
    apply preserves_bind; [apply _|apply path_exists_preserves, _|].
    intros [|]; simpl; [apply preserves_ret, _|].
    apply removed_logs_removals; [|done].
    by intros st r st' (_ & ? & _)%remove_spec.
Qed.

Lemma forward_phase_keeps_fwd_inv l0 n :
  preserves (keeps_fwd_inv l0)
    (ensure_replica self ;; os_walk n (source self) (forward_body self)).
Proof.
  apply preserves_bind; [apply _|apply ensure_replica_keeps_fwd_inv|].
  intros _. apply (preserves_walk _ (λ _, True)); auto.
  intros. apply forward_body_keeps_fwd_inv.
Qed.

Lemma reverse_phase_logs_removals n :
  preserves logs_removals (os_walk n (replica self) (reverse_body self)).
Proof.
  apply (preserves_walk _ (λ _, True)); auto.
  intros. apply reverse_body_logs_removals.
Qed.

(** The pass as its two phases. *)
Lemma sync_pass_phases n st r st' :
  sync_pass self n st = (r, st') →
  ∃ r1 st1,
    (ensure_replica self ;; os_walk n (source self) (forward_body self)) st
    = (r1, st1) ∧
    match r1 with
    | Ok _ => os_walk n (replica self) (reverse_body self) st1 = (r, st')
    | Raise e => r = Raise e ∧ st' = st1
    | Timeout => r = Timeout ∧ st' = st1
    end.
Proof.
  unfold sync_pass, bind. intros Hp.
  destruct (ensure_replica self st) as [[[]|e|] st0].
  - destruct (os_walk n (source self) (forward_body self) st0) as [[[]|e|] st1];
      simplify_eq; eexists _, _; (split; [done|]); done.
  - simplify_eq. eexists _, _. split; [done|]. done.
  - simplify_eq. eexists _, _. split; [done|]. done.
Qed.
End Phases.

(** C9 (amended). The records a pass writes come in two phases: first
    creations of directories and copies of files, interleaved, with no file
    copied before the record of the creation of its directory; then
    removals. *)
Theorem sync_pass_two_phases `{Platform} (self : FolderSynchronizer)
    (n : nat) (st st' : state) (r : result unit) :
  wf (fs st) →
  sync_pass self n st = (r, st') →
  ∃ Δ, log st' = log st ++ Δ ∧ two_phases Δ.
Proof.
  intros Hwf (r1 & st1 & H1 & H2)%sync_pass_phases.
  assert (fwd_inv (log st) st) as Hinv.
  { split; [done|]. exists []. rewrite app_nil_r.
    split_and!; [done|constructor|apply parents_first_nil|].
    by intros ri p ?%elem_of_nil. }
  apply (forward_phase_keeps_fwd_inv self (log st) n) in H1.
  apply H1 in Hinv as (_ & Δ1 & HΔ1 & Hk & Hpf & _).
  assert (logs_removals st1 st') as (Δ2 & HΔ2 & Hrm).
  { destruct r1 as [[]|e|].
    - by eapply reverse_phase_logs_removals.
    - destruct H2 as [_ ->]. by apply logs_removals_same.
    - destruct H2 as [_ ->]. by apply logs_removals_same. }
  exists (Δ1 ++ Δ2). split; [by rewrite HΔ2, HΔ1, <-app_assoc|].
  by exists Δ1, Δ2.
Qed.

(** ** C1: convergence *)

Global Instance forward_frame_preorder self rel : PreOrder (forward_frame self rel).
Proof.
  split.
  - intros st. split_and!; eauto.
  - intros st1 st2 st3 (A1 & B1 & C1 & D1 & E1) (A2 & B2 & C2 & D2 & E2).
    split_and!.
    + intros q Hq Hn. rewrite A2; [by apply A1|by rewrite A1|done].
    + intros k Hk. by rewrite B2, B1.
    + intros q Hq. by rewrite C2, C1.
    + intros q e Hq. destruct (D1 q e Hq) as (e1 & H1 & Hk1).
      destruct (D2 q e1 H1) as (e2 & H2 & Hk2). exists e2. split; [done|].
      by rewrite Hk1.
    + auto.
Qed.

Lemma forward_frame_same self rel st st' :
  fs st' = fs st → md5_cache st' = md5_cache st → forward_frame self rel st st'.
Proof. intros Hf Hc. unfold forward_frame. rewrite Hf, Hc. split_and!; eauto. Qed.

Lemma forward_frame_weaken self rel x st st' :
  forward_frame self (rel ++ x) st st' → forward_frame self rel st st'.
Proof.
  intros (A & B & C & D & E). split_and!; [| |done..].
  - intros q Hq Hn. apply A; [done|]. intros Hp. apply Hn.
    rewrite (assoc _) in Hp. by eapply prefix_app_l.
  - intros k Hk. apply B. intros [Hp|Hp]; apply Hk; [left|right];
      rewrite (assoc _) in Hp; by eapply prefix_app_l.
Qed.

Section Forward_frame.
Context `{Platform} (self : FolderSynchronizer).
Hypothesis Hroots : separate_roots self.

Lemma source_not_below_replica q :
  source self `prefix_of` q → replica self `prefix_of` q → False.
Proof.
  destruct Hroots as (_ & _ & Hsr & Hrs). intros Hs Hr.
  by destruct (prefix_weak_total _ _ _ Hs Hr).
Qed.

Lemma source_not_above_replica q x :
  source self `prefix_of` q → q `prefix_of` replica self ++ x →
  replica self `prefix_of` q.
Proof.
  destruct Hroots as (_ & _ & Hsr & Hrs). intros Hs Hq.
  assert (replica self `prefix_of` replica self ++ x) as Hr by by apply prefix_app_r.
  destruct (prefix_weak_total _ _ _ Hq Hr) as [Hqr|]; [|done].
  destruct Hsr. by etrans.
Qed.

Lemma log_operation_forward_frame rel rec :
  preserves (forward_frame self rel) (log_operation rec).
Proof. intros st r st' [_ ->]%log_operation_inv. by apply forward_frame_same. Qed.

Lemma makedirs_forward_frame rel p :
  replica self `prefix_of` canon p →
  preserves (forward_frame self rel) (makedirs p).
Proof.
  intros [x Hp] st r st' (Hc & _ & Hwf & Hq)%makedirs_creates.
  split_and!; [| | | |done].
  - intros q [e He] _. destruct (Hq q) as [?|(_ & ? & _)]; [done|congruence].
  - intros k _. by rewrite Hc.
  - intros q Hs. destruct (Hq q) as [?|(Hpre & _)]; [done|].
    rewrite Hp in Hpre. destruct (source_not_below_replica q); [done|].
    by eapply source_not_above_replica.
  - intros q e He. destruct (Hq q) as [->|(_ & ? & _)]; [|congruence]. eauto.
Qed.

Lemma copy2_forward_frame rel from dst :
  replica self ++ rel `prefix_of` canon dst →
  preserves (forward_frame self rel) (copy2 from dst).
Proof.
  intros Hdst st r st' (Hc & _ & [(e & _ & ->)|(_ & c & d & _ & Hfs & Hnd & Hwf & Hd)])%copy2_spec;
    [done|].
  assert (replica self ++ rel `prefix_of` d) as Hpre.
  { destruct Hd as [[_ ->]|[_ ->]]; [done|].
    rewrite canon_app. by apply prefix_app_r. }
  split_and!; [| | | |done].
  - intros q _ Hn. rewrite Hfs, lookup_insert_ne; [done|]. by intros ->.
  - intros k _. by rewrite Hc.
  - intros q Hs. rewrite Hfs, lookup_insert_ne; [done|]. intros ->.
    apply (source_not_below_replica q); [done|]. by eapply prefix_app_l.
  - intros q e He. rewrite Hfs. destruct (decide (q = d)) as [->|].
    + rewrite lookup_insert_eq. eexists. split; [done|].
      split; [|done]. intros ->. congruence.
    + rewrite lookup_insert_ne by done. eauto.
Qed.

Lemma calculate_md5_forward_frame rel p :
  in_region self rel p → preserves (forward_frame self rel) (calculate_md5 p).
Proof.
  intros Hp st r st' (Hfs & _ & [[-> _]|(c & _ & _ & _ & Hc)])%calculate_md5_spec;
    [done|].
  unfold forward_frame. rewrite Hfs, Hc. split_and!; eauto.
  intros k Hk. rewrite lookup_insert_ne; [done|]. by intros ->.
Qed.

Lemma copy_or_update_forward_frame rel root rr file :
  source self ++ rel `prefix_of` canon (root ++ [file]) →
  replica self ++ rel `prefix_of` canon (rr ++ [file]) →
  preserves (forward_frame self rel) (copy_or_update root rr file).
Proof.
  intros Hs Hr. unfold copy_or_update.
  apply preserves_bind; [apply _|apply path_exists_preserves, _|]. intros present.
  apply preserves_bind; [apply _|..].
  - destruct present; simpl; [|apply preserves_ret, _].
    apply preserves_bind; [apply _|apply calculate_md5_forward_frame; by left|].
    intros h1.
    apply preserves_bind; [apply _|apply calculate_md5_forward_frame; by right|].
    intros h2. apply preserves_ret, _.
  - intros [|]; [|apply preserves_ret, _].
    apply preserves_bind; [apply _| |intros _; apply log_operation_forward_frame].
    by apply copy2_forward_frame.
Qed.

Lemma canon_source_below rel x :
  "." ∉ rel → source self ++ rel `prefix_of` canon ((source self ++ rel) ++ x).
Proof.
  destruct Hroots as (Hs & _). intros Hrel.
  rewrite canon_app, (canon_clean (_ ++ _)) by by apply not_dot_app.
  by apply prefix_app_r.
Qed.

Lemma canon_replica_below rel x y :
  "." ∉ rel →
  replica self ++ rel `prefix_of` canon ((replica self ++ dotted (rel ++ x)) ++ y).
Proof.
  destruct Hroots as (_ & Hr & _). intros Hrel.
  rewrite !canon_app, (canon_clean (replica self)) by done.
  rewrite <-(assoc _). apply prefix_app.
  destruct (rel ++ x) as [|z l] eqn:Hrx.
  - apply app_eq_nil in Hrx as [-> _]. apply prefix_nil.
  - simpl dotted. rewrite <-Hrx, canon_app, canon_clean by done.
    rewrite <-(assoc _). by apply prefix_app_r.
Qed.

Lemma forward_body_forward_frame rel x dirs files :
  "." ∉ rel →
  preserves (forward_frame self rel)
    (forward_body self (source self ++ rel ++ x) dirs files).
Proof.
  intros Hrel. unfold forward_body.
  rewrite (assoc _ (source self)), <-(assoc _ (source self)), relpath_app.
  apply preserves_bind; [apply _|apply path_exists_preserves, _|]. intros present.
  apply preserves_bind; [apply _|..].
  - destruct present; simpl; [apply preserves_ret, _|].
    apply preserves_bind; [apply _| |intros _; apply log_operation_forward_frame].
    apply makedirs_forward_frame.
    destruct Hroots as (_ & Hr & _). rewrite canon_app, canon_clean by done.
    by apply prefix_app_r.
  - intros _. apply preserves_for_each; [apply _|].
    intros file _. apply copy_or_update_forward_frame.
    + rewrite (assoc _ (source self)), <-(assoc _ (_ ++ _)).
      by apply canon_source_below.
    + by apply canon_replica_below.
Qed.

Lemma forward_walk_frame rel n :
  "." ∉ rel →
  preserves (forward_frame self rel)
    (os_walk n (source self ++ rel) (forward_body self)).
Proof.
  intros Hrel.
  apply (preserves_walk _ (λ root, ∃ x, root = source self ++ rel ++ x)).
  - intros root d [x ->]. exists (x ++ [d]). by rewrite <-!(assoc _).
  - intros root dirs files [x ->]. by apply forward_body_forward_frame.
  - exists []. by rewrite app_nil_r.
Qed.
End Forward_frame.

Lemma snoc_ne_nil (p q : path) x : p ++ q ++ [x] ≠ [].
Proof. intros [_ [_ ?]%app_eq_nil]%app_eq_nil. done. Qed.

Section Forward_walk.
Context `{Platform} (self : FolderSynchronizer).
Hypothesis Hroots : separate_roots self.

Lemma calculate_md5_of_file st p c r st' :
  fs st !! canon p = Some (File c) → canon p ≠ [] → trailing_dot p = false →
  valid_at st p →
  calculate_md5 p st = (r, st') → r = Ok (Some (file_md5 c)).
Proof.
  intros Hf Hne Ht Hv. unfold calculate_md5.
  destruct (md5_cache st !! p) as [h|] eqn:Hc.
  - intros [= <- <-]. destruct (Hv h Hc) as (c0 & Hc0 & <-). congruence.
  - unfold open_rb, stat. rewrite entry_at_lookup, Hf, Ht by done.
    by intros [= <- <-].
Qed.

Lemma valid_at_frame st st' k :
  md5_cache st' !! k = md5_cache st !! k →
  (is_Some (fs st !! canon k) → fs st' !! canon k = fs st !! canon k) →
  valid_at st k → valid_at st' k.
Proof.
  intros Hc Hf Hv h. rewrite Hc. intros (c & Hfc & ?)%Hv.
  exists c. split; [|done]. rewrite Hf; eauto.
Qed.

Lemma source_file_key rel file :
  "." ∉ rel → file ≠ "." →
  canon ((source self ++ rel) ++ [file]) = source self ++ rel ++ [file].
Proof.
  destruct Hroots as (Hs & _). intros Hrel Hf.
  rewrite <-(assoc _). apply canon_clean.
  apply not_dot_app; [done|]. apply not_dot_app; [done|].
  by rewrite list_elem_of_singleton.
Qed.

Lemma replica_file_key rel file :
  "." ∉ rel → file ≠ "." →
  canon ((replica self ++ dotted rel) ++ [file]) = replica self ++ rel ++ [file].
Proof.
  destruct Hroots as (_ & Hr & _). intros Hrel Hf.
  rewrite <-(assoc _). by apply canon_mirror_file.
Qed.

Lemma replica_root_key rel :
  "." ∉ rel → canon (replica self ++ dotted rel) = replica self ++ rel.
Proof. destruct Hroots as (_ & Hr & _). intros. by apply canon_mirror. Qed.

Lemma source_replica_differ x y : source self ++ x ≠ replica self ++ y.
Proof.
  intros Heq. apply (source_not_below_replica self Hroots (source self ++ x)).
  - by apply prefix_app_r.
  - rewrite Heq. by apply prefix_app_r.
Qed.

(** One file of a source directory: afterwards the replica has a file
    with the same fingerprint. *)
Lemma copy_or_update_mirrors rel file c st st' :
  wf (fs st) → "." ∉ rel → file ≠ "." →
  fs st !! (source self ++ rel ++ [file]) = Some (File c) →
  valid_at st ((source self ++ rel) ++ [file]) →
  valid_at st ((replica self ++ dotted rel) ++ [file]) →
  copy_or_update (source self ++ rel) (replica self ++ dotted rel) file st
  = (Ok tt, st') →
  ∃ c', fs st' !! (replica self ++ rel ++ [file]) = Some (File c') ∧
        file_md5 c' = file_md5 c.
Proof.
  intros Hwf Hrel Hfile Hsrc Hvs Hvr. unfold copy_or_update.
  pose proof (source_file_key rel file Hrel Hfile) as Hks.
  pose proof (replica_file_key rel file Hrel Hfile) as Hkr.
  assert (trailing_dot ((source self ++ rel) ++ [file]) = false) as Hts.
  { rewrite trailing_dot_snoc. by apply bool_decide_eq_false. }
  assert (trailing_dot ((replica self ++ dotted rel) ++ [file]) = false) as Htr.
  { rewrite trailing_dot_snoc. by apply bool_decide_eq_false. }
  assert (∀ st0 st1, fs st0 !! (source self ++ rel ++ [file]) = Some (File c) →
    (copy2 ((source self ++ rel) ++ [file]) ((replica self ++ dotted rel) ++ [file]) ;;
     log_operation (CopiedFile ((replica self ++ dotted rel) ++ [file]))) st0
    = (Ok tt, st1) →
    isdir_in (fs st0) ((replica self ++ dotted rel) ++ [file]) = false →
    fs st1 !! (replica self ++ rel ++ [file]) = Some (File c)) as Hcopy.
  { intros st0 st1 Hsrc0 Hb Hnd.
    apply bind_inv in Hb as [([] & st2 & Hc & [_ ->]%log_operation_inv)|
      [(e & _ & ?)|[_ ?]]]; [|done..].
    apply copy2_spec in Hc as (_ & _ & [(e' & ? & _)|(_ & c0 & d & Hc0 & Hfs & _ & _ & Hd)]);
      [done|].
    rewrite Hks, Hsrc0 in Hc0. injection Hc0 as <-.
    destruct Hd as [[_ ->]|[? _]]; [|congruence].
    simpl. by rewrite Hfs, Hkr, lookup_insert_eq. }
  intros Hb.
  apply bind_inv in Hb as [(present & st0 & [[= ->] ->]%path_exists_inv & Hb)|
    [(e & _ & ?)|[_ ?]]]; [|done..].
  destruct (exists_in (fs st) ((replica self ++ dotted rel) ++ [file])) eqn:Hex;
    simpl in Hb.
  - apply bind_inv in Hb as [(stale & st2 & Hst & Hb)|[(e & _ & ?)|[_ ?]]]; [|done..].
    apply bind_inv in Hst as [(h1 & st1 & H1 & Hst)|[(e & _ & ?)|[_ ?]]]; [|done..].
    apply bind_inv in Hst as [(h2 & st1' & H2 & [= <- <-])|[(e & _ & ?)|[_ ?]]];
      [|done..].
    pose proof (calculate_md5_of_file st _ c _ _ ltac:(by rewrite Hks)
      ltac:(rewrite Hks; apply snoc_ne_nil) Hts Hvs H1) as [= ->].
    apply calculate_md5_spec in H1 as (Hfs1 & _ & Hc1).
    apply exists_in_Some in Hex as [e He]. rewrite Hkr in He.
    rewrite entry_at_lookup in He by apply snoc_ne_nil.
    assert (valid_at st1 ((replica self ++ dotted rel) ++ [file])) as Hvr1.
    { eapply valid_at_frame; [|by intros _; rewrite Hfs1|done].
      destruct Hc1 as [[-> _]|(? & _ & _ & _ & ->)]; [done|].
      rewrite lookup_insert_ne; [done|]. intros Heq.
      apply (f_equal canon) in Heq. rewrite Hks, Hkr in Heq.
      by apply source_replica_differ in Heq. }
    destruct e as [c'|].
    + pose proof (calculate_md5_of_file st1 _ c' _ _ ltac:(by rewrite Hkr, Hfs1)
        ltac:(rewrite Hkr; apply snoc_ne_nil) Htr Hvr1 H2) as [= ->].
      apply calculate_md5_spec in H2 as (Hfs2 & _ & _).
      case_bool_decide as Heq; simpl in Hb.
      * injection Hb as <-. exists c'. rewrite Hfs2, Hfs1. split; [done|].
        by injection Heq.
      * exists c. split; [|done]. eapply Hcopy; [|done|].
        -- by rewrite Hfs2, Hfs1.
        -- unfold isdir_in, stat. rewrite Hkr, Hfs2, Hfs1.
           rewrite entry_at_lookup, He, Htr by apply snoc_ne_nil. done.
    + exfalso. unfold calculate_md5 in H2.
      destruct (md5_cache st1 !! _) as [h|] eqn:Hch.
      * destruct (Hvr1 h Hch) as (c0 & Hc0 & _). rewrite Hkr, Hfs1 in Hc0. congruence.
      * unfold open_rb, stat in H2. rewrite Hkr, Hfs1 in H2.
        rewrite entry_at_lookup, He in H2 by apply snoc_ne_nil. done.
  - apply bind_inv in Hb as [(stale & st2 & [= <- <-] & Hb)|[(e & _ & ?)|[_ ?]]];
      [|done..].
    exists c. split; [|done]. eapply Hcopy; [done..|].
    unfold isdir_in. unfold exists_in in Hex.
    by destruct (stat (fs st) _).
Qed.

Lemma roots_apart x y q :
  source self ++ x `prefix_of` q → replica self ++ y `prefix_of` q → False.
Proof.
  intros Hs%prefix_app_l Hr%prefix_app_l.
  by eapply source_not_below_replica.
Qed.

Lemma siblings_apart (p q : path) d d' :
  d ≠ d' → p ++ [d] `prefix_of` q → p ++ [d'] `prefix_of` q → False.
Proof.
  intros Hne H1 H2.
  destruct (prefix_weak_total _ _ _ H1 H2) as [Hp|Hp];
    apply sibling_prefix in Hp; congruence.
Qed.

Lemma regions_apart rel d d' k :
  d ≠ d' → in_region self (rel ++ [d']) k → in_region self (rel ++ [d]) k → False.
Proof.
  unfold in_region. rewrite !(assoc _ _ rel).
  intros Hne [H1|H1] [H2|H2].
  - by eapply siblings_apart.
  - rewrite <-(assoc _) in H1, H2. by eapply roots_apart.
  - rewrite <-(assoc _) in H1, H2. by eapply roots_apart.
  - by eapply siblings_apart.
Qed.

(** What a loop over the names of one directory keeps, when the step for
    a name stays in the region of that name. *)
Lemma siblings_frame rel (l : list string) (body : string → M unit) :
  "." ∉ rel →
  (∀ x, x ∈ l → preserves (forward_frame self (rel ++ [x])) (body x)) →
  ∀ st r st', for_each l body st = (r, st') →
    forward_frame self rel st st' ∧
    (∀ q, is_Some (fs st !! q) →
          (∀ x, x ∈ l → ¬ replica self ++ rel ++ [x] `prefix_of` q) →
          fs st' !! q = fs st !! q) ∧
    (∀ k, (∀ x, x ∈ l → ¬ in_region self (rel ++ [x]) k) →
          md5_cache st' !! k = md5_cache st !! k).
Proof.
  intros Hrel. induction l as [|x l IH]; intros Hbody st r st' Hl.
  { injection Hl as <- <-. by split_and!. }
  simpl in Hl.
  assert (∀ st1 r1, body x st = (r1, st1) →
    forward_frame self rel st st1 ∧
    (∀ q : path, is_Some (fs st !! q) →
       (∀ y, y ∈ x :: l → ¬ replica self ++ rel ++ [y] `prefix_of` q) →
       fs st1 !! q = fs st !! q) ∧
    (∀ k, (∀ y, y ∈ x :: l → ¬ in_region self (rel ++ [y]) k) →
       md5_cache st1 !! k = md5_cache st !! k)) as Hhead.
  { intros st1 r1 Hx. apply Hbody in Hx; [|by left].
    split; [by eapply forward_frame_weaken|].
    destruct Hx as (A & B & _). split.
    - intros q Hq Hn. apply A; [done|]. apply Hn. by left.
    - intros k Hn. apply B, Hn. by left. }
  apply bind_inv in Hl as [([] & st1 & Hx & Hl)|[(e & Hx & _)|[Hx _]]]; eauto.
  destruct (Hhead _ _ Hx) as (F1 & A1 & B1).
  apply IH in Hl as (F2 & A2 & B2); [|intros y Hy; apply Hbody; by right].
  split; [by etrans|]. split.
  - intros q Hq Hn. rewrite A2, A1; [done..| |].
    + rewrite A1; done.
    + intros y Hy. apply Hn. by right.
  - intros k Hn. rewrite B2, B1; [done..|]. intros y Hy. apply Hn. by right.
Qed.

Lemma files_loop_mirrors rel files st st' :
  wf (fs st) → "." ∉ rel → NoDup files →
  (∀ f, f ∈ files → f ≠ "." ∧ is_Some (fs st !! (source self ++ rel ++ [f]))) →
  (∀ f, f ∈ files → valid_at st ((source self ++ rel) ++ [f]) ∧
                     valid_at st ((replica self ++ dotted rel) ++ [f])) →
  for_each files (copy_or_update (source self ++ rel) (replica self ++ dotted rel)) st
  = (Ok tt, st') →
  ∀ f c, f ∈ files → fs st !! (source self ++ rel ++ [f]) = Some (File c) →
    ∃ c', fs st' !! (replica self ++ rel ++ [f]) = Some (File c') ∧
          file_md5 c' = file_md5 c.
Proof.
  intros Hwf Hrel. revert st Hwf.
  assert (∀ f, f ≠ "." → preserves (forward_frame self (rel ++ [f]))
    (copy_or_update (source self ++ rel) (replica self ++ dotted rel) f)) as Hstep.
  { intros f Hf. apply copy_or_update_forward_frame; [done|..].
    - rewrite source_file_key by done. by rewrite (assoc _ _ rel).
    - rewrite replica_file_key by done. by rewrite (assoc _ _ rel). }
  induction files as [|f files IH]; intros st Hwf Hnd Hsrc Hvalid Hl g c Hg Hgc.
  { by apply elem_of_nil in Hg. }
  apply NoDup_cons in Hnd as [Hf Hnd]. simpl in Hl.
  apply bind_inv in Hl as [([] & st1 & Hx & Hl)|[(e & _ & ?)|[_ ?]]]; [|done..].
  destruct (Hsrc f) as [Hfdot _]; [by left|].
  pose proof (Hstep f Hfdot _ _ _ Hx) as (A1 & B1 & C1 & D1 & E1).
  assert (∀ y, fs st1 !! (source self ++ rel ++ y) = fs st !! (source self ++ rel ++ y))
    as Hsame.
  { intros y. apply C1. by apply prefix_app_r. }
  pose proof Hl as (_ & A2 & _)%(siblings_frame rel); [|done|]; last first.
  { intros y Hy. apply Hstep. apply Hsrc. by right. }
  apply elem_of_cons in Hg as [->|Hg].
  - destruct (Hvalid f) as [Hvs Hvr]; [by left|].
    destruct (copy_or_update_mirrors rel f c st st1) as (c' & Hc' & Heq); try done.
    exists c'. split; [|done]. rewrite A2; [done|by rewrite Hc'|].
    intros y Hy Hp. rewrite !(assoc _ _ rel) in Hp.
    apply sibling_prefix in Hp. congruence.
  - apply (IH st1); try done.
    + by apply E1.
    + intros y Hy. rewrite Hsame. apply Hsrc. by right.
    + intros y Hy. destruct (Hvalid y) as [Hvs Hvr]; [by right|].
      destruct (Hsrc y) as [Hydot _]; [by right|].
      assert (y ≠ f) as Hyf by (intros ->; done).
      split.
      * eapply valid_at_frame; [| |exact Hvs].
        -- apply B1. intros Hin. eapply (regions_apart rel f y); [done| |exact Hin].
           left. by rewrite source_file_key, (assoc _ _ rel).
        -- intros _. rewrite source_file_key by done. apply Hsame.
      * eapply valid_at_frame; [| |exact Hvr].
        -- apply B1. intros Hin. eapply (regions_apart rel f y); [done| |exact Hin].
           right. by rewrite replica_file_key, (assoc _ _ rel).
        -- rewrite replica_file_key by done. intros Hq. apply A1; [done|].
           intros Hp. rewrite !(assoc _ _ rel) in Hp.
           apply sibling_prefix in Hp. congruence.
    + by rewrite Hsame.
Qed.

Lemma exists_in_kinds (f f' : gmap path entry) p :
  (∀ q e, f !! q = Some e → ∃ e', f' !! q = Some e' ∧ (e = Dir ↔ e' = Dir)) →
  exists_in f p = true → exists_in f' p = true.
Proof.
  intros Hk. unfold exists_in, stat.
  destruct (canon p) as [|x q] eqn:Hq; [done|]. simpl.
  destruct (f !! (x :: q)) as [e|] eqn:He; [|done].
  destruct (Hk _ _ He) as (e' & -> & Hkind).
  destruct e as [c|], e' as [c'|].
  - by destruct (trailing_dot p).
  - destruct Hkind as [_ Hk']. by specialize (Hk' eq_refl).
  - destruct Hkind as [Hk' _]. by specialize (Hk' eq_refl).
  - done.
Qed.

Lemma in_region_below rel x k :
  in_region self (rel ++ x) k → in_region self rel k.
Proof.
  unfold in_region. rewrite !(assoc _ _ rel).
  intros [Hp|Hp]; [left|right]; by eapply prefix_app_l.
Qed.

(** The first statement of the body of the first walk: the mirror of the
    walked directory is there afterwards. *)
Lemma mirror_dir_step rel st st0 :
  "." ∉ rel →
  (let! present := path_exists (replica self ++ dotted rel) in
   if negb present
   then makedirs (replica self ++ dotted rel) ;;
        log_operation (CreatedFolder (replica self ++ dotted rel))
   else ret tt) st = (Ok tt, st0) →
  md5_cache st0 = md5_cache st ∧
  (∀ q, is_Some (fs st !! q) → fs st0 !! q = fs st !! q) ∧
  (∀ q, source self `prefix_of` q → fs st0 !! q = fs st !! q) ∧
  (wf (fs st) → wf (fs st0)) ∧
  exists_in (fs st0) (replica self ++ dotted rel) = true.
Proof.
  intros Hrel Hb.
  apply bind_inv in Hb as [(present & st1 & [[= ->] ->]%path_exists_inv & Hb)|
    [(e & _ & ?)|[_ ?]]]; [|done..].
  destruct (exists_in (fs st) (replica self ++ dotted rel)) eqn:Hex; simpl in Hb.
  { injection Hb as <-. by split_and!. }
  apply bind_inv in Hb as [([] & st1 & Hm & [_ ->]%log_operation_inv)|
    [(e & _ & ?)|[_ ?]]]; [|done..].
  pose proof Hm as (_ & _ & C & _ & _)%(makedirs_forward_frame self Hroots rel).
  2:{ rewrite replica_root_key by done. by apply prefix_app_r. }
  pose proof Hm as (Hc & _ & Hwf & Hq)%makedirs_creates.
  apply makedirs_Ok in Hm as [_ Hd]. simpl. split_and!; [done| |done..|].
  - intros q [e He]. destruct (Hq q) as [?|(_ & ? & _)]; [done|congruence].
  - unfold exists_in, stat. by rewrite Hd.
Qed.

Lemma source_ne_nil x : source self ++ x ≠ [].
Proof.
  destruct Hroots as (_ & _ & Hsr & _). intros [Hs _]%app_eq_nil.
  apply Hsr. rewrite Hs. apply prefix_nil.
Qed.

Lemma replica_ne_nil x : replica self ++ x ≠ [].
Proof.
  destruct Hroots as (_ & _ & _ & Hrs). intros [Hr _]%app_eq_nil.
  apply Hrs. rewrite Hr. apply prefix_nil.
Qed.

Lemma entry_at_source f x : entry_at f (source self ++ x) = f !! (source self ++ x).
Proof. apply entry_at_lookup, source_ne_nil. Qed.

Lemma entry_at_replica f x : entry_at f (replica self ++ x) = f !! (replica self ++ x).
Proof. apply entry_at_lookup, replica_ne_nil. Qed.

Lemma region_valid_sibling rel d g st st' :
  d ≠ g → forward_frame self (rel ++ [d]) st st' →
  region_valid self (rel ++ [g]) st → region_valid self (rel ++ [g]) st'.
Proof.
  intros Hne (A & B & _) Hv k Hk.
  eapply valid_at_frame; [| |by apply Hv].
  - apply B. intros Hin. by eapply (regions_apart rel d g).
  - intros Hs. apply A; [done|]. intros Hp.
    eapply (regions_apart rel d g); [done..|]. by right.
Qed.

Lemma dirs_loop_mirrors n rel dirs st st' :
  forward_spec self n → "." ∉ rel → wf (fs st) → NoDup dirs →
  (∀ d, d ∈ dirs → d ≠ ".") →
  (∀ d, d ∈ dirs → region_valid self (rel ++ [d]) st) →
  for_each dirs
    (λ d, os_walk n ((source self ++ rel) ++ [d]) (forward_body self)) st
  = (Ok tt, st') →
  ∀ d, d ∈ dirs →
    files_below_mirrored self (rel ++ [d]) st st' ∧
    dirs_below_mirrored self (rel ++ [d]) st st'.
Proof.
  intros Hspec Hrel. revert st.
  assert (∀ d, d ≠ "." → "." ∉ rel ++ [d]) as Hclean.
  { intros d Hd. apply not_dot_app; [done|]. by rewrite list_elem_of_singleton. }
  induction dirs as [|d ds IH]; intros st Hwf Hnd Hdots Hvalid Hl g Hg.
  { by apply elem_of_nil in Hg. }
  apply NoDup_cons in Hnd as [Hd Hnd]. simpl in Hl.
  apply bind_inv in Hl as [([] & st1 & Hx & Hl)|[(e & _ & ?)|[_ ?]]]; [|done..].
  rewrite <-(assoc _) in Hx.
  assert (d ≠ ".") as Hddot by (apply Hdots; by left).
  pose proof (forward_walk_frame self Hroots (rel ++ [d]) n (Hclean d Hddot) _ _ _ Hx)
    as Hframe1.
  pose proof Hframe1 as (A1 & B1 & C1 & D1 & E1).
  pose proof Hl as (F2 & A2 & B2)%(siblings_frame rel); [|done|]; last first.
  { intros y Hy. rewrite <-(assoc _). apply forward_walk_frame; [done|].
    apply Hclean, Hdots. by right. }
  destruct F2 as (_ & _ & C2 & D2 & _).
  apply elem_of_cons in Hg as [->|Hg].
  - destruct (Hspec (rel ++ [d]) st st1) as [FM DM]; auto.
    { apply Hvalid. by left. }
    split.
    + intros x c Hx0 Hc. destruct (FM x c Hx0 Hc) as (c' & Hc' & Heq).
      exists c'. split; [|done]. rewrite A2; [done|by rewrite Hc'|].
      intros y Hy Hp.
      apply (siblings_apart (replica self ++ rel)
               (replica self ++ (rel ++ [d]) ++ x) y d).
      * by intros ->.
      * by rewrite <-(assoc _).
      * rewrite <-!(assoc _). do 2 apply prefix_app. by apply prefix_app_r.
    + intros x Hx0. eapply exists_in_kinds; [exact D2|]. by apply DM.
  - destruct (IH st1) with (d := g) as [FM DM]; auto.
    { intros y Hy. apply Hdots. by right. }
    { intros y Hy. eapply region_valid_sibling; [|done|].
      - by intros ->.
      - apply Hvalid. by right. }
    split.
    + intros x c Hx0 Hc. apply FM; [done|]. rewrite C1; [done|].
      by apply prefix_app_r.
    + intros x Hx0. apply DM. rewrite entry_at_source in *.
      rewrite C1; [done|]. by apply prefix_app_r.
Qed.

(** The first walk, at and below a source directory [rel]. *)
Lemma forward_walk_mirrors n : forward_spec self n.
Proof.
  induction n as [|n IH]; intros rel st st' Hrel Hwf Hvalid Hw; [done|].
  destruct Hroots as (Hsdot & Hrdot & _).
  assert ("." ∉ source self ++ rel) as Hclean by by apply not_dot_app.
  simpl in Hw.
  destruct (scandir (fs st) (source self ++ rel)) as [[dirs files]|] eqn:Hscan.
  2:{ injection Hw as <-. apply scandir_None in Hscan.
      rewrite canon_clean, entry_at_source in Hscan by done. split.
      - intros x c Hx Hc. rewrite (assoc _) in Hc.
        apply wf_ancestor in Hc; [|done..]. by rewrite entry_at_source in Hc.
      - intros x Hd. rewrite entry_at_source in Hd.
        destruct x as [|y x]; [by rewrite app_nil_r in Hd|].
        rewrite (assoc _) in Hd. apply wf_ancestor in Hd; [|done..].
        by rewrite entry_at_source in Hd. }
  apply scandir_Some in Hscan as (Hdir & Hdirs & Hfiles & Hnd & Hnf).
  rewrite canon_clean in Hdir, Hdirs, Hfiles by done.
  apply bind_inv in Hw as [([] & st1 & Hbody & Hloop)|[(e & _ & ?)|[_ ?]]]; [|done..].
  unfold forward_body in Hbody. rewrite relpath_app in Hbody.
  apply bind_inv in Hbody as [(present & st0 & Hpre & Hbody)|[(e & _ & ?)|[_ ?]]];
    [|done..].
  apply bind_inv in Hbody as [([] & st0' & Hmk & Hfl)|[(e & _ & ?)|[_ ?]]]; [|done..].
  assert ((let! present := path_exists (replica self ++ dotted rel) in
           if negb present
           then makedirs (replica self ++ dotted rel) ;;
                log_operation (CreatedFolder (replica self ++ dotted rel))
           else ret tt) st = (Ok tt, st0')) as Hstep.
  { unfold bind at 1. by rewrite Hpre. }
  clear Hpre Hmk present st0.
  apply mirror_dir_step in Hstep as (Hc0 & Hfs0 & Hsrc0 & Hwf0 & Hex0); [|done].
  (* names of the listing *)
  assert (∀ f, f ∈ files → f ≠ ".") as Hfdot.
  { intros f [c Hc]%Hfiles ->. apply wf_no_dot in Hc; [|done].
    apply Hc. rewrite elem_of_app, list_elem_of_singleton. by right. }
  assert (∀ d, d ∈ dirs → d ≠ ".") as Hddot.
  { intros d Hd%Hdirs ->. apply wf_no_dot in Hd; [|done].
    apply Hd. rewrite elem_of_app, list_elem_of_singleton. by right. }
  assert (∀ k, valid_at st k → valid_at st0' k) as Hvalid0.
  { intros k. apply valid_at_frame; [by rewrite Hc0|apply Hfs0]. }
  (* the files of the directory *)
  pose proof (files_loop_mirrors rel files st0' st1 (Hwf0 Hwf) Hrel Hnf) as Hfm.
  pose proof Hfl as (Ffiles & Afiles & Bfiles)%(siblings_frame rel); [|done|];
    last first.
  { intros f Hf. apply copy_or_update_forward_frame; [done|..].
    - rewrite source_file_key by auto. by rewrite (assoc _ _ rel).
    - rewrite replica_file_key by auto. by rewrite (assoc _ _ rel). }
  destruct Ffiles as (_ & _ & Csrc1 & Dkind1 & Ewf1).
  (* the directories below *)
  pose proof Hloop as (Fdirs & Adirs & _)%(siblings_frame rel); [|done|];
    last first.
  { intros d Hd. rewrite <-(assoc _). apply forward_walk_frame; [done|].
    apply not_dot_app; [done|]. rewrite list_elem_of_singleton.
    apply not_eq_sym. auto. }
  destruct Fdirs as (_ & _ & _ & Dkind2 & _).
  assert (∀ y, fs st1 !! (source self ++ rel ++ y) = fs st !! (source self ++ rel ++ y))
    as Hsame.
  { intros y. rewrite Csrc1, Hsrc0; [done|by apply prefix_app_r..]. }
  pose proof (dirs_loop_mirrors n rel dirs st1 st' IH Hrel (Ewf1 (Hwf0 Hwf))
    Hnd Hddot) as Hdm.
  assert (∀ d, d ∈ dirs → region_valid self (rel ++ [d]) st1) as Hvalid1.
  { intros d Hd k Hk. eapply valid_at_frame; [| |apply Hvalid0, Hvalid].
    - apply Bfiles. intros f Hf Hin.
      eapply (regions_apart rel f d); [|done..].
      intros ->. apply Hfiles in Hf as [c Hc]. apply Hdirs in Hd.
      rewrite <-(assoc _) in Hc, Hd. congruence.
    - intros Hs. apply Afiles; [done|]. intros f Hf Hp.
      eapply (regions_apart rel f d k); [|done|by right].
      intros ->. apply Hfiles in Hf as [c Hc]. apply Hdirs in Hd.
      rewrite <-(assoc _) in Hc, Hd. congruence.
    - by eapply in_region_below. }
  specialize (Hdm Hvalid1 Hloop).
  split.
  - intros x c Hx Hc. destruct x as [|y x]; [done|].
    destruct x as [|z x].
    + (* a file of this directory *)
      assert (y ∈ files) as Hy.
      { apply Hfiles. exists c. by rewrite <-(assoc _). }
      destruct (Hfm) with (f := y) (c := c) as (c' & Hc' & Heq); try done.
      * intros f Hf. split; [auto|]. apply Hfiles in Hf as [c1 Hc1].
        rewrite Hsrc0 by by apply prefix_app_r.
        rewrite <-(assoc _) in Hc1. eauto.
      * intros f Hf. split; apply Hvalid0, Hvalid.
        -- left. rewrite source_file_key by auto.
           rewrite (assoc _ _ rel). by apply prefix_app_r.
        -- right. rewrite replica_file_key by auto.
           rewrite (assoc _ _ rel). by apply prefix_app_r.
      * rewrite Hsrc0; [done|]. by apply prefix_app_r.
      * exists c'. split; [|done]. rewrite Adirs; [done|by rewrite Hc'|].
        intros d Hd Hp. rewrite !(assoc _ _ rel) in Hp.
        apply sibling_prefix in Hp as ->.
        apply Hdirs in Hd. rewrite <-(assoc _) in Hd. congruence.
    + (* a file further below *)
      assert (y ∈ dirs) as Hy.
      { apply Hdirs. pose proof Hc as Hanc.
        replace (source self ++ rel ++ y :: z :: x)
          with (((source self ++ rel) ++ [y]) ++ z :: x) in Hanc
          by by rewrite <-!(assoc _).
        apply wf_ancestor in Hanc; [|done..].
        by rewrite entry_at_snoc in Hanc. }
      destruct (Hdm y Hy) as [FM _].
      replace (rel ++ y :: z :: x) with ((rel ++ [y]) ++ z :: x)
        by by rewrite <-(assoc _).
      apply FM; [done|]. rewrite <-(assoc _). simpl. by rewrite Hsame.
  - intros x Hx. rewrite entry_at_source in Hx.
    destruct x as [|y x].
    + rewrite app_nil_r. eapply exists_in_kinds; [exact Dkind2|].
      eapply exists_in_kinds; [exact Dkind1|done].
    + assert (y ∈ dirs) as Hy.
      { apply Hdirs. destruct x as [|z x]; [by rewrite <-(assoc _)|].
        replace (source self ++ rel ++ y :: z :: x)
          with (((source self ++ rel) ++ [y]) ++ z :: x) in Hx
          by by rewrite <-!(assoc _).
        apply wf_ancestor in Hx; [|done..].
        by rewrite entry_at_snoc in Hx. }
      destruct (Hdm y Hy) as [_ DM].
      replace (rel ++ y :: x) with ((rel ++ [y]) ++ x) by by rewrite <-(assoc _).
      apply DM. rewrite entry_at_source, <-(assoc _). simpl. by rewrite Hsame.
Qed.
End Forward_walk.

(** ** The second walk *)

Lemma remove_in_not_trailing f p f' :
  remove_in f p = inr f' → trailing_dot p = false.
Proof.
  unfold remove_in, stat. destruct (entry_at f (canon p)) as [[c|]|]; try done.
  by destruct (trailing_dot p).
Qed.

Lemma exists_in_canon f p p' :
  canon p = canon p' → trailing_dot p = trailing_dot p' →
  exists_in f p = exists_in f p'.
Proof.
  intros Hc Ht. unfold exists_in, stat. rewrite Hc, Ht.
  destruct (entry_at f (canon p')) as [[]|]; [|done..]. by destruct (trailing_dot p').
Qed.

Lemma exists_in_same_entry f f' p :
  entry_at f' (canon p) = entry_at f (canon p) → exists_in f' p = exists_in f p.
Proof.
  intros He. unfold exists_in, stat. rewrite He.
  destruct (entry_at f (canon p)) as [[]|]; [|done..]. by destruct (trailing_dot p).
Qed.

Lemma reverse_frame_same self rel st st' :
  fs st' = fs st → md5_cache st' = md5_cache st → reverse_frame self rel st st'.
Proof.
  intros Hf Hc Hwf. rewrite Hf, Hc. split_and!; [done..|by left|done].
Qed.

Lemma reverse_frame_weaken self rel x st st' :
  reverse_frame self (rel ++ x) st st' → reverse_frame self rel st st'.
Proof.
  intros Hr Hwf. destruct (Hr Hwf) as (? & ? & A & B). split_and!; [done..| |done].
  intros q. destruct (A q) as [?|[? Hp]]; [by left|right]. split; [done|].
  rewrite (assoc _) in Hp. by eapply prefix_app_l.
Qed.

Section Reverse_walk.
Context `{Platform} (self : FolderSynchronizer).
Hypothesis Hroots : separate_roots self.

Lemma exists_in_source (f f' : gmap path entry) p :
  (∀ q, source self `prefix_of` q → f' !! q = f !! q) →
  exists_in f' (source self ++ p) = exists_in f (source self ++ p).
Proof.
  destruct Hroots as (Hs & _). intros Hsame. apply exists_in_same_entry.
  rewrite canon_app, canon_clean by done.
  rewrite !(entry_at_source self Hroots). apply Hsame. by apply prefix_app_r.
Qed.

Lemma reverse_frame_source rel st st' q :
  wf (fs st) → reverse_frame self rel st st' →
  source self `prefix_of` q → fs st' !! q = fs st !! q.
Proof.
  intros Hwf Hr Hq. destruct (Hr Hwf) as (_ & _ & A & _).
  destruct (A q) as [?|[_ Hp]]; [done|].
  destruct (roots_apart self Hroots [] rel q); by rewrite ?app_nil_r.
Qed.

#[local] Instance reverse_frame_preorder rel : PreOrder (reverse_frame self rel).
Proof.
  split.
  - intros st. by apply reverse_frame_same.
  - intros st1 st2 st3 H1 H2 Hwf.
    destruct (H1 Hwf) as (Hwf2 & Hc1 & A1 & B1).
    destruct (H2 Hwf2) as (Hwf3 & Hc2 & A2 & B2).
    split_and!; [done|congruence|..].
    + intros q. destruct (A2 q) as [Heq|[? ?]]; [|by right].
      rewrite Heq. apply A1.
    + intros y Hy.
      assert (fs st2 !! (replica self ++ y) = fs st1 !! (replica self ++ y) ∨
              fs st2 !! (replica self ++ y) ≠ fs st1 !! (replica self ++ y))
        as [Heq|Hne]; [|rewrite <-Heq in Hy|by apply B1].
      { destruct (A1 (replica self ++ y)) as [?|[Hn _]]; [by left|].
        rewrite Hn. destruct (fs st1 !! (replica self ++ y)); [by right|by left]. } apply B2 in Hy. rewrite <-Hy. symmetry.
      apply exists_in_source. intros q Hq. by eapply reverse_frame_source.
Qed.

Lemma exists_in_source_dir f y :
  "." ∉ y → entry_at f (source self ++ y) = Some Dir →
  exists_in f (source self ++ dotted y) = true.
Proof.
  destruct Hroots as (Hs & _). intros Hy Hd. destruct y as [|a y].
  - apply exists_in_dot; [done|]. by rewrite app_nil_r in Hd.
  - apply exists_in_clean; [by apply not_dot_app|]. simpl. rewrite Hd. eauto.
Qed.

(** Nothing below a source path that is not there. *)
Lemma unmirrored_below f y z :
  wf f → "." ∉ y → "." ∉ z →
  exists_in f (source self ++ dotted y) = false →
  exists_in f (source self ++ dotted (y ++ z)) = false.
Proof.
  destruct Hroots as (Hs & _). intros Hwf Hy Hz Hex.
  destruct z as [|z0 z]; [by rewrite app_nil_r|].
  assert (dotted (y ++ z0 :: z) = y ++ z0 :: z) as -> by by destruct y.
  apply exists_in_false_clean; [by repeat apply not_dot_app|].
  rewrite (entry_at_source self Hroots).
  destruct (f !! (source self ++ y ++ z0 :: z)) as [e|] eqn:He; [|done].
  rewrite (assoc _) in He. apply wf_ancestor in He; [|done..].
  apply exists_in_source_dir in He; [|done]. congruence.
Qed.

Lemma rmtree_step_frame rel x :
  "." ∉ rel → "." ∉ x →
  preserves (reverse_frame self rel)
    (let! present := path_exists (source self ++ dotted (rel ++ x)) in
     if negb present
     then rmtree (replica self ++ rel ++ x) ;;
          log_operation (RemovedFolder (replica self ++ rel ++ x))
     else ret tt).
Proof.
  destruct Hroots as (_ & Hr & _). intros Hrel Hx st r st' Hb.
  assert ("." ∉ replica self ++ rel ++ x) as Hclean by by repeat apply not_dot_app.
  apply bind_inv in Hb as [(present & st0 & [[= ->] ->]%path_exists_inv & Hb)|
    [(e & [? _]%path_exists_inv & _)|[[? _]%path_exists_inv _]]]; [|done..].
  destruct (exists_in (fs st) (source self ++ dotted (rel ++ x))) eqn:Hex;
    simpl in Hb.
  { injection Hb as <- <-. by apply reverse_frame_same. }
  assert (∀ st1, rmtree (replica self ++ rel ++ x) st = (Ok tt, st1) →
    reverse_frame self rel st st1) as Hrm.
  { intros st1 (Hc & _ & [(e & ? & _)|(_ & Hd & Hfs)])%rmtree_spec; [done|].
    rewrite canon_clean in Hd, Hfs by done. intros Hwf.
    rewrite Hfs. split_and!; [by apply wf_rmtree|done|..].
    - intros q. rewrite lookup_rmtree. case_decide as Hp; [right|by left].
      split; [done|]. rewrite (assoc _) in Hp. by eapply prefix_app_l.
    - intros y. rewrite lookup_rmtree. case_decide as Hp; [|done]. intros Hy.
      destruct (fs st !! (replica self ++ y)) as [e|] eqn:He; [|done].
      apply prefix_app_same in Hp as [z ->].
      apply wf_no_dot in He; [|done].
      rewrite !elem_of_app in He.
      apply unmirrored_below; [done|by apply not_dot_app|tauto|done]. }
  apply bind_inv in Hb as [([] & st1 & Hm & [_ ->]%log_operation_inv)|
    [(e & Hm & _)|[Hm _]]].
  - etrans; [by apply Hrm|]. by apply reverse_frame_same.
  - apply rmtree_spec in Hm as (_ & _ & [(e' & _ & ->)|(? & _)]); [|done].
    by apply reverse_frame_same.
  - apply rmtree_spec in Hm as (_ & _ & [(e' & ? & _)|(? & _)]); done.
Qed.

Lemma remove_extra_frame rel file :
  "." ∉ rel →
  preserves (reverse_frame self (rel ++ [file]))
    (remove_extra (replica self ++ rel) (source self ++ dotted rel) file).
Proof.
  destruct Hroots as (Hs & Hr & _). intros Hrel st r st' Hb.
  assert ("." ∉ replica self ++ rel) as Hclean by by apply not_dot_app.
  unfold remove_extra in Hb.
  apply bind_inv in Hb as [(present & st0 & [[= ->] ->]%path_exists_inv & Hb)|
    [(e & [? _]%path_exists_inv & _)|[[? _]%path_exists_inv _]]]; [|done..].
  destruct (exists_in (fs st) ((source self ++ dotted rel) ++ [file])) eqn:Hex;
    simpl in Hb.
  { injection Hb as <- <-. by apply reverse_frame_same. }
  assert (∀ st1, remove ((replica self ++ rel) ++ [file]) st = (Ok tt, st1) →
    reverse_frame self (rel ++ [file]) st st1) as Hrm.
  { intros st1 [(f' & Hin & _ & ->)|(e & _ & ? & _)]%remove_inv; [|done].
    pose proof (remove_in_not_trailing _ _ _ Hin) as Ht.
    rewrite trailing_dot_snoc in Ht. apply bool_decide_eq_false in Ht.
    apply remove_in_inr in Hin as ([c Hc] & ->).
    rewrite canon_app, canon_clean, canon_single in * by done.
    intros Hwf. simpl. split_and!; [by eapply wf_delete_file|done|..].
    - intros q. destruct (decide (q = (replica self ++ rel) ++ [file]))
        as [->|]; [right|left; by rewrite lookup_delete_ne].
      rewrite lookup_delete_eq. split; [done|]. by rewrite <-(assoc _).
    - intros y Hy.
      destruct (decide (replica self ++ y = (replica self ++ rel) ++ [file]))
        as [Heq|Hne]; [|by rewrite lookup_delete_ne in Hy].
      rewrite <-!(assoc _) in Heq. apply (inj (app _)) in Heq as ->.
      rewrite <-Hex.
      assert (dotted (rel ++ [file]) = rel ++ [file]) as -> by by destruct rel.
      apply exists_in_canon.
      + rewrite (canon_clean (source self ++ _)).
        2:{ repeat apply not_dot_app; try done. by rewrite list_elem_of_singleton. }
        rewrite canon_app, canon_mirror, canon_single by done.
        by rewrite <-!(assoc _).
      + rewrite (assoc _ (source self)). by rewrite !trailing_dot_snoc. }
  apply bind_inv in Hb as [([] & st1 & Hm & [_ ->]%log_operation_inv)|
    [(e & Hm & _)|[Hm _]]].
  - etrans; [by apply Hrm|]. by apply reverse_frame_same.
  - apply remove_spec in Hm as (_ & _ & [(e' & _ & ->)|(? & _)]); [|done].
    by apply reverse_frame_same.
  - apply remove_spec in Hm as (_ & _ & [(e' & ? & _)|(? & _)]); done.
Qed.

Lemma reverse_body_frame rel x dirs files :
  "." ∉ rel → "." ∉ x →
  preserves (reverse_frame self rel)
    (reverse_body self (replica self ++ rel ++ x) dirs files).
Proof.
  intros Hrel Hx. unfold reverse_body. rewrite relpath_app.
  intros st r st' Hb.
  assert (((let! present := path_exists (source self ++ dotted (rel ++ x)) in
            if negb present
            then rmtree (replica self ++ rel ++ x) ;;
                 log_operation (RemovedFolder (replica self ++ rel ++ x))
            else ret tt) ;;
           for_each files (remove_extra (replica self ++ rel ++ x)
                             (source self ++ dotted (rel ++ x)))) st = (r, st'))
    as Hb'.
  { revert Hb. unfold bind, path_exists. done. }
  revert Hb'. apply preserves_bind; [apply _|by apply rmtree_step_frame|].
  intros _. apply preserves_for_each; [apply _|].
  intros file _ st1 r1 st2 Hf.
  apply (reverse_frame_weaken self rel (x ++ [file])).
  rewrite (assoc _). revert Hf. apply remove_extra_frame.
  by apply not_dot_app.
Qed.
End Reverse_walk.

Section Reverse_spec.
Context `{Platform} (self : FolderSynchronizer).
Hypothesis Hroots : separate_roots self.

#[local] Instance reverse_frame_preorder' rel : PreOrder (reverse_frame self rel) :=
  reverse_frame_preorder self Hroots rel.

Lemma reverse_frame_wf rel st st' :
  reverse_frame self rel st st' → wf (fs st) → wf (fs st').
Proof. intros Hr Hwf. by destruct (Hr Hwf). Qed.

Lemma listed_dir_clean f top d :
  wf f → f !! (top ++ [d]) = Some Dir → d ≠ ".".
Proof.
  intros Hwf Hd%wf_no_dot ->; [|done]. apply Hd.
  rewrite elem_of_app, list_elem_of_singleton. by right.
Qed.

Lemma listed_file_clean f top x c :
  wf f → f !! (top ++ [x]) = Some (File c) → x ≠ ".".
Proof.
  intros Hwf Hd%wf_no_dot ->; [|done]. apply Hd.
  rewrite elem_of_app, list_elem_of_singleton. by right.
Qed.

(** The second walk from a replica directory, whatever its outcome. *)
Lemma reverse_walk_frame n : ∀ rel st r st',
  "." ∉ rel → wf (fs st) →
  os_walk n (replica self ++ rel) (reverse_body self) st = (r, st') →
  reverse_frame self rel st st'.
Proof.
  destruct Hroots as (_ & Hr & _).
  induction n as [|n IH]; intros rel st r st' Hrel Hwf Hw.
  { injection Hw as <- <-. by apply reverse_frame_same. }
  simpl in Hw.
  destruct (scandir (fs st) (replica self ++ rel)) as [[dirs files]|] eqn:Hscan;
    [|injection Hw as <- <-; by apply reverse_frame_same].
  apply scandir_Some in Hscan as (_ & Hdirs & _).
  rewrite canon_clean in Hdirs by by apply not_dot_app.
  assert (∀ ds st1 r1 st2, (∀ d, d ∈ ds → d ≠ ".") → wf (fs st1) →
    for_each ds (λ d, os_walk n ((replica self ++ rel) ++ [d]) (reverse_body self)) st1
    = (r1, st2) → reverse_frame self rel st1 st2) as Hloop.
  { induction ds as [|d ds IHds]; intros st1 r1 st2 Hds Hwf1 Hl.
    { injection Hl as <- <-. by apply reverse_frame_same. }
    simpl in Hl.
    assert (∀ r2 st3,
      os_walk n ((replica self ++ rel) ++ [d]) (reverse_body self) st1 = (r2, st3) →
      reverse_frame self rel st1 st3) as Hhead.
    { intros r2 st3 Hd. rewrite <-(assoc _) in Hd.
      apply IH in Hd; [by eapply reverse_frame_weaken|..|done].
      apply not_dot_app; [done|]. rewrite list_elem_of_singleton.
      apply not_eq_sym, Hds. by left. }
    apply bind_inv in Hl as [([] & st3 & Hd & Hl)|[(e & Hd & _)|[Hd _]]]; eauto.
    etrans; [by eapply Hhead|].
    eapply IHds; [|by eapply reverse_frame_wf; eauto|done].
    intros y Hy. apply Hds. by right. }
  apply bind_inv in Hw as [([] & st1 & Hbody & Hl)|[(e & Hbody & _)|[Hbody _]]].
  - assert (reverse_frame self rel st st1) as Hb.
    { revert Hbody. rewrite <-(app_nil_r rel) at 1.
      apply reverse_body_frame; [done..|]. apply not_elem_of_nil. }
    etrans; [done|]. eapply Hloop; [|by eapply reverse_frame_wf|done].
    intros d Hd%Hdirs. by eapply listed_dir_clean.
  - revert Hbody. rewrite <-(app_nil_r rel) at 1.
    apply reverse_body_frame; [done..|]. apply not_elem_of_nil.
  - revert Hbody. rewrite <-(app_nil_r rel) at 1.
    apply reverse_body_frame; [done..|]. apply not_elem_of_nil.
Qed.

(** A loop over the names of one replica directory. *)
Lemma reverse_siblings_frame rel (l : list string) (body : string → M unit) :
  (∀ x st r st', x ∈ l → wf (fs st) → body x st = (r, st') →
     reverse_frame self (rel ++ [x]) st st') →
  ∀ st r st', wf (fs st) → for_each l body st = (r, st') →
    reverse_frame self rel st st' ∧
    (∀ q, (∀ x, x ∈ l → ¬ replica self ++ rel ++ [x] `prefix_of` q) →
          fs st' !! q = fs st !! q).
Proof.
  induction l as [|x l IH]; intros Hbody st r st' Hwf Hl.
  { injection Hl as <- <-. split; [by apply reverse_frame_same|done]. }
  simpl in Hl.
  assert (∀ r1 st1, body x st = (r1, st1) →
    reverse_frame self rel st st1 ∧
    (∀ q, (∀ y, y ∈ x :: l → ¬ replica self ++ rel ++ [y] `prefix_of` q) →
          fs st1 !! q = fs st !! q)) as Hhead.
  { intros r1 st1 Hx. apply Hbody in Hx; [|by left|done].
    split; [by eapply reverse_frame_weaken|].
    intros q Hq. destruct (Hx Hwf) as (_ & _ & A & _).
    destruct (A q) as [?|[_ Hp]]; [done|]. destruct (Hq x); [by left|done]. }
  apply bind_inv in Hl as [([] & st1 & Hx & Hl)|[(e & Hx & _)|[Hx _]]]; eauto.
  destruct (Hhead _ _ Hx) as [F1 A1].
  apply IH in Hl as [F2 A2].
  - split; [by etrans|]. intros q Hq. rewrite A2, A1; [done..|].
    intros y Hy. apply Hq. by right.
  - intros y st2 r2 st3 Hy. apply Hbody. by right.
  - by eapply reverse_frame_wf.
Qed.

Lemma reverse_frame_shrinks rel st st' q :
  wf (fs st) → reverse_frame self rel st st' →
  is_Some (fs st' !! q) → fs st' !! q = fs st !! q.
Proof.
  intros Hwf Hr Hq. destruct (Hr Hwf) as (_ & _ & A & _).
  destruct (A q) as [?|[Hn _]]; [done|]. rewrite Hn in Hq. by destruct Hq.
Qed.

Lemma remove_extra_inv rel file st st' :
  "." ∉ rel → wf (fs st) →
  remove_extra (replica self ++ rel) (source self ++ dotted rel) file st
  = (Ok tt, st') →
  (exists_in (fs st) ((source self ++ dotted rel) ++ [file]) = true ∧ st' = st) ∨
  (exists_in (fs st) ((source self ++ dotted rel) ++ [file]) = false ∧
   fs st' !! (replica self ++ rel ++ [file]) = None).
Proof.
  destruct Hroots as (Hs & Hr & _). intros Hrel Hwf Hb. unfold remove_extra in Hb.
  apply bind_inv in Hb as [(present & st0 & [[= ->] ->]%path_exists_inv & Hb)|
    [(e & _ & ?)|[_ ?]]]; [|done..].
  destruct (exists_in (fs st) ((source self ++ dotted rel) ++ [file])) eqn:Hex;
    simpl in Hb.
  { left. by injection Hb as <-. }
  right. split; [done|].
  apply bind_inv in Hb as [([] & st1 & Hm & [_ ->]%log_operation_inv)|
    [(e & _ & ?)|[_ ?]]]; [|done..].
  apply remove_inv in Hm as [(f' & Hin & _ & ->)|(e & _ & ? & _)]; [|done].
  pose proof (remove_in_not_trailing _ _ _ Hin) as Ht.
  rewrite trailing_dot_snoc in Ht. apply bool_decide_eq_false in Ht.
  apply remove_in_inr in Hin as (_ & ->). simpl.
  rewrite canon_app, canon_clean, canon_single by (done || by apply not_dot_app).
  by rewrite <-(assoc _), lookup_delete_eq.
Qed.

Lemma files_loop_removes rel files st st' :
  "." ∉ rel → wf (fs st) →
  for_each files (remove_extra (replica self ++ rel) (source self ++ dotted rel)) st
  = (Ok tt, st') →
  ∀ f, f ∈ files → is_Some (fs st' !! (replica self ++ rel ++ [f])) →
    exists_in (fs st) ((source self ++ dotted rel) ++ [f]) = true.
Proof.
  intros Hrel. revert st.
  induction files as [|g files IH]; intros st Hwf Hl f Hf Hs.
  { by apply elem_of_nil in Hf. }
  simpl in Hl.
  apply bind_inv in Hl as [([] & st1 & Hg & Hl)|[(e & _ & ?)|[_ ?]]]; [|done..].
  pose proof (remove_extra_frame self Hroots rel g Hrel _ _ _ Hg) as Fg.
  assert (reverse_frame self rel st1 st') as Frest.
  { revert Hl. apply preserves_for_each; [apply _|]. intros y _ st2 r2 st3 Hy.
    eapply reverse_frame_weaken. by eapply remove_extra_frame. }
  pose proof (reverse_frame_wf _ _ _ Fg Hwf) as Hwf1.
  apply remove_extra_inv in Hg; [|done..].
  destruct Hg as [[Hex ->]|[Hex Hnone]].
  - apply elem_of_cons in Hf as [->|Hf]; [done|]. by apply (IH st).
  - assert (f ≠ g) as Hfg.
    { intros ->. rewrite (reverse_frame_shrinks rel st1 st') in Hs by done.
      rewrite Hnone in Hs. by destruct Hs. }
    apply elem_of_cons in Hf as [->|Hf]; [done|].
    rewrite <-(IH st1 Hwf1 Hl f Hf Hs). symmetry.
    rewrite <-(assoc _). apply (exists_in_source self Hroots).
    intros q Hq. by eapply reverse_frame_source.
Qed.

Lemma reverse_dirs_loop n rel dirs st st' :
  reverse_spec self n → "." ∉ rel → wf (fs st) → NoDup dirs →
  (∀ d, d ∈ dirs → fs st !! (replica self ++ rel ++ [d]) = Some Dir) →
  for_each dirs
    (λ d, os_walk n ((replica self ++ rel) ++ [d]) (reverse_body self)) st
  = (Ok tt, st') →
  ∀ d x, d ∈ dirs →
    is_Some (fs st' !! (replica self ++ rel ++ [d] ++ x)) →
    exists_in (fs st') (source self ++ dotted (rel ++ [d] ++ x)) = true.
Proof.
  intros Hspec Hrel. revert st.
  assert (∀ d st, wf (fs st) → fs st !! (replica self ++ rel ++ [d]) = Some Dir →
    "." ∉ rel ++ [d]) as Hclean.
  { intros d st Hwf Hd. apply not_dot_app; [done|]. rewrite list_elem_of_singleton.
    apply not_eq_sym. rewrite (assoc _) in Hd. by eapply listed_dir_clean. }
  induction dirs as [|d ds IH]; intros st Hwf Hnd Hdirs Hl g x Hg Hs.
  { by apply elem_of_nil in Hg. }
  apply NoDup_cons in Hnd as [Hd Hnd]. simpl in Hl.
  apply bind_inv in Hl as [([] & st1 & Hw & Hl)|[(e & _ & ?)|[_ ?]]]; [|done..].
  rewrite <-(assoc _) in Hw.
  assert (fs st !! (replica self ++ rel ++ [d]) = Some Dir) as Hdd
    by (apply Hdirs; by left).
  pose proof (reverse_walk_frame n _ _ _ _ (Hclean d st Hwf Hdd) Hwf Hw) as F1.
  pose proof (reverse_frame_wf _ _ _ F1 Hwf) as Hwf1.
  assert (∀ y, y ∈ ds → fs st1 !! (replica self ++ rel ++ [y]) = Some Dir) as Hds1.
  { intros y Hy. destruct (F1 Hwf) as (_ & _ & A & _).
    destruct (A (replica self ++ rel ++ [y])) as [->|[_ Hp]]; [apply Hdirs; by right|].
    rewrite !(assoc _ _ rel) in Hp.
    apply sibling_prefix in Hp. subst. contradiction. }
  assert (∀ y st2 r2 st3, y ∈ ds → wf (fs st2) →
    os_walk n ((replica self ++ rel) ++ [y]) (reverse_body self) st2 = (r2, st3) →
    reverse_frame self (rel ++ [y]) st2 st3) as Hbodies.
  { intros y st2 r2 st3 Hy Hwf2 Hwy. rewrite <-(assoc _) in Hwy.
    eapply reverse_walk_frame; [|done..]. by apply (Hclean y st1), Hds1. }
  destruct (reverse_siblings_frame rel ds _ Hbodies st1 _ st' Hwf1 Hl) as [F2 A2].
  apply elem_of_cons in Hg as [->|Hg].
  - rewrite (exists_in_source self Hroots (fs st1) (fs st')).
    2:{ intros q Hq. by eapply reverse_frame_source. }
    rewrite (assoc _ rel).
    apply (Hspec (rel ++ [d]) st st1 (Hclean d st Hwf Hdd) Hwf Hw x).
    + done.
    + rewrite <-A2; [by rewrite <-!(assoc _)|].
      intros y Hy Hp.
      apply (siblings_apart (replica self ++ rel)
               (replica self ++ rel ++ [d] ++ x) y d).
      * by intros ->.
      * rewrite <-!(assoc _) in Hp. by rewrite <-!(assoc _).
      * rewrite <-!(assoc _). do 2 apply prefix_app. by apply prefix_app_r.
  - by apply (IH st1).
Qed.

Lemma files_loop_keeps_dirs rel files st st' d :
  "." ∉ rel → wf (fs st) →
  fs st !! (replica self ++ rel ++ [d]) = Some Dir →
  for_each files (remove_extra (replica self ++ rel) (source self ++ dotted rel)) st
  = (Ok tt, st') →
  fs st' !! (replica self ++ rel ++ [d]) = Some Dir.
Proof.
  intros Hrel. revert st.
  induction files as [|g fl IHfl]; intros st Hwf Hd Hl.
  { by injection Hl as <-. }
  simpl in Hl.
  apply bind_inv in Hl as [([] & st4 & Hg & Hl)|[(e & _ & ?)|[_ ?]]]; [|done..].
  pose proof (remove_extra_frame self Hroots rel g Hrel _ _ _ Hg) as Fg.
  apply (IHfl st4); [by eapply reverse_frame_wf| |done].
  unfold remove_extra in Hg.
  apply bind_inv in Hg as [(pr & st5 & [[= ->] ->]%path_exists_inv & Hg)|
    [(e & _ & ?)|[_ ?]]]; [|done..].
  destruct (exists_in _ _); simpl in Hg; [by injection Hg as <-|].
  apply bind_inv in Hg as [([] & st5 & Hm & [_ ->]%log_operation_inv)|
    [(e & _ & ?)|[_ ?]]]; [|done..].
  apply remove_spec in Hm as (_ & _ & [(e' & ? & _)|(_ & [c Hc] & Hfs)]); [done|].
  simpl. rewrite Hfs. rewrite lookup_delete_ne; [done|].
  intros Heq. rewrite Heq in Hc. congruence.
Qed.

(** The second walk, at and below a replica directory [rel]. *)
Lemma reverse_walk_cleans n : reverse_spec self n.
Proof.
  induction n as [|n IH]; intros rel st st' Hrel Hwf Hw; [done|].
  destruct Hroots as (Hsdot & Hrdot & _).
  assert ("." ∉ replica self ++ rel) as Hclean by by apply not_dot_app.
  pose proof (reverse_walk_frame (S n) rel st _ st' Hrel Hwf Hw) as Fall.
  simpl in Hw.
  destruct (scandir (fs st) (replica self ++ rel)) as [[dirs files]|] eqn:Hscan.
  2:{ injection Hw as <-. apply scandir_None in Hscan.
      rewrite canon_clean, (entry_at_replica self Hroots) in Hscan by done.
      intros x Hx0 Hs. destruct x as [|y x]; [by destruct Hscan; apply Hx0|].
      destruct Hs as [e He]. rewrite (assoc _) in He.
      apply wf_ancestor in He; [|done..].
      by rewrite (entry_at_replica self Hroots) in He. }
  apply scandir_Some in Hscan as (Hdir & Hdirs & Hfiles & Hnd & Hnf).
  rewrite canon_clean in Hdir, Hdirs, Hfiles by done.
  apply bind_inv in Hw as [([] & st1 & Hbody & Hloop)|[(e & _ & ?)|[_ ?]]]; [|done..].
  assert (reverse_frame self rel st st1) as Fbody.
  { pose proof (reverse_body_frame self Hroots rel [] dirs files Hrel
      (not_elem_of_nil _)) as Hf.
    rewrite app_nil_r in Hf. by eapply Hf. }
  pose proof (reverse_frame_wf _ _ _ Fbody Hwf) as Hwf1.
  assert (reverse_frame self rel st1 st') as Floop.
  { assert (∀ y st2 r2 st3, y ∈ dirs → wf (fs st2) →
      os_walk n ((replica self ++ rel) ++ [y]) (reverse_body self) st2 = (r2, st3) →
      reverse_frame self (rel ++ [y]) st2 st3) as Hbodies.
    { intros y st2 r2 st3 Hy%Hdirs Hwf2 Hwy. rewrite <-(assoc _) in Hwy.
      eapply reverse_walk_frame; [|done..]. apply not_dot_app; [done|].
      rewrite list_elem_of_singleton. apply not_eq_sym.
      apply (listed_dir_clean (fs st) (replica self ++ rel) y Hwf Hy). }
    by destruct (reverse_siblings_frame rel dirs _ Hbodies st1 _ st' Hwf1 Hloop). }
  assert (∀ p, exists_in (fs st') (source self ++ p) = exists_in (fs st) (source self ++ p))
    as Hsrc.
  { intros p. apply (exists_in_source self Hroots).
    intros q Hq. by eapply reverse_frame_source. }
  unfold reverse_body in Hbody. rewrite relpath_app in Hbody.
  apply bind_inv in Hbody as [(present & st0 & [[= ->] ->]%path_exists_inv & Hbody)|
    [(e & _ & ?)|[_ ?]]]; [|done..].
  apply bind_inv in Hbody as [([] & st0 & Hrm & Hfl)|[(e & _ & ?)|[_ ?]]]; [|done..].
  destruct (exists_in (fs st) (source self ++ dotted rel)) eqn:Hex; simpl in Hrm.
  - (* the mirror of the directory is there *)
    injection Hrm as <-.
    intros x Hx0 Hs. destruct x as [|y x]; [by rewrite app_nil_r, Hsrc|].
    pose proof Hs as Hs1. rewrite (reverse_frame_shrinks rel st1 st') in Hs1 by done.
    pose proof Hs1 as Hs0. rewrite (reverse_frame_shrinks rel st st1) in Hs0 by done.
    assert (is_Some (fs st !! ((replica self ++ rel) ++ [y]))) as [ey Hy].
    { destruct x as [|z x]; [by rewrite <-(assoc _)|].
      destruct Hs0 as [e He].
      replace (replica self ++ rel ++ y :: z :: x)
        with (((replica self ++ rel) ++ [y]) ++ z :: x) in He
        by by rewrite <-!(assoc _).
      apply wf_ancestor in He; [|done..]. rewrite entry_at_snoc in He. eauto. }
    destruct ey as [c|].
    + (* a file of the directory *)
      assert (x = []) as ->.
      { destruct x as [|z x]; [done|]. destruct Hs0 as [e He].
        replace (replica self ++ rel ++ y :: z :: x)
          with (((replica self ++ rel) ++ [y]) ++ z :: x) in He
          by by rewrite <-!(assoc _).
        apply wf_ancestor in He; [|done..]. rewrite entry_at_snoc in He. congruence. }
      assert (y ∈ files) as Hyf by (apply Hfiles; eauto).
      pose proof (files_loop_removes rel files st st1 Hrel Hwf Hfl y Hyf Hs1) as Hm.
      rewrite Hsrc, <-Hm. apply exists_in_canon.
      * assert (y ≠ ".") as Hydot
          by apply (listed_file_clean (fs st) (replica self ++ rel) y c Hwf Hy).
        assert (dotted (rel ++ [y]) = rel ++ [y]) as -> by by destruct rel.
        rewrite (canon_clean (source self ++ _)).
        2:{ repeat apply not_dot_app; try done. by rewrite list_elem_of_singleton. }
        rewrite canon_app, canon_mirror, canon_single by done.
        by rewrite <-!(assoc _).
      * assert (dotted (rel ++ [y]) = rel ++ [y]) as -> by by destruct rel.
        rewrite (assoc _ (source self)). by rewrite !trailing_dot_snoc.
    + (* a directory below *)
      assert (y ∈ dirs) as Hyd by by apply Hdirs.
      pose proof (reverse_dirs_loop n rel dirs st1 st' IH Hrel Hwf1 Hnd) as Hdl.
      replace (rel ++ y :: x) with (rel ++ [y] ++ x) by done.
      apply Hdl; [|done..].
      intros d Hd%Hdirs.
      apply (files_loop_keeps_dirs rel files st st1 d Hrel Hwf); [|done].
      by rewrite (assoc _).
  - (* no mirror: the directory is removed, and the listing must be empty *)
    apply bind_inv in Hrm as [([] & st2 & Hrm & [_ ->]%log_operation_inv)|
      [(e & _ & ?)|[_ ?]]]; [|done..].
    apply rmtree_spec in Hrm as (_ & _ & [(e' & ? & _)|(_ & _ & Hfs)]); [done|].
    rewrite canon_clean in Hfs by done.
    assert (∀ x, fs st1 !! (replica self ++ rel ++ x) = None) as Hgone.
    { intros x. destruct (fs st1 !! (replica self ++ rel ++ x)) as [e|] eqn:He;
        [|done].
      assert (is_Some (fs st1 !! (replica self ++ rel ++ x))) as Hs1 by eauto.
      assert (reverse_frame self rel
                (State (fs st2) (md5_cache st2) (log st2 ++
                   [RemovedFolder (replica self ++ rel)])) st1) as Ffiles.
      { revert Hfl. apply preserves_for_each; [apply _|].
        intros y _ st3 r3 st4 Hy. eapply reverse_frame_weaken.
        by eapply remove_extra_frame. }
      rewrite (reverse_frame_shrinks rel _ st1 _ ltac:(simpl; rewrite Hfs; by apply wf_rmtree) Ffiles)
        in Hs1 by done.
      simpl in Hs1. rewrite Hfs, lookup_rmtree in Hs1.
      rewrite decide_True in Hs1; [by destruct Hs1|].
      rewrite (assoc _). by apply prefix_app_r. }
    intros x _ Hs. rewrite (reverse_frame_shrinks rel st1 st') in Hs by done.
    rewrite Hgone in Hs. by destruct Hs.
Qed.
End Reverse_spec.

(** ** The pass as a whole *)

Section Pass.
Context `{Platform} (self : FolderSynchronizer).
Hypothesis Hroots : separate_roots self.

Lemma ensure_replica_spec st st0 :
  ensure_replica self st = (Ok tt, st0) →
  md5_cache st0 = md5_cache st ∧
  (∀ q, is_Some (fs st !! q) → fs st0 !! q = fs st !! q) ∧
  (wf (fs st) → wf (fs st0)).
Proof.
  unfold ensure_replica. intros Hb.
  apply bind_inv in Hb as [(present & st1 & [[= ->] ->]%path_exists_inv & Hb)|
    [(e & _ & ?)|[_ ?]]]; [|done..].
  destruct (exists_in (fs st) (replica self)); simpl in Hb.
  { by injection Hb as <-. }
  apply bind_inv in Hb as [([] & st1 & Hm & [_ ->]%log_operation_inv)|
    [(e & _ & ?)|[_ ?]]]; [|done..].
  apply makedirs_creates in Hm as (Hc & _ & Hwf & Hq). simpl.
  split_and!; [done| |done].
  intros q [e He]. destruct (Hq q) as [?|(_ & ? & _)]; [done|congruence].
Qed.

Lemma cache_valid_region st rel : cache_valid st → region_valid self rel st.
Proof. intros Hv k _ h Hh. by apply Hv. Qed.

Lemma exists_in_source_entry y e f :
  "." ∉ y → f !! (source self ++ y) = Some e → (y = [] → e = Dir) →
  exists_in f (source self ++ dotted y) = true.
Proof.
  destruct Hroots as (Hs & _). intros Hy He Hd. destruct y as [|a y].
  - apply (exists_in_source_dir self Hroots); [done|].
    by rewrite (entry_at_source self Hroots), He, Hd.
  - simpl. apply exists_in_clean; [by apply not_dot_app|].
    rewrite (entry_at_source self Hroots). eauto.
Qed.

(** Where a pass that completes leaves the two trees. *)
Lemma sync_pass_settles n st st' :
  wf (fs st) → cache_valid st →
  sync_pass self n st = (Ok tt, st') →
  wf (fs st') ∧ files_mirrored self (fs st') ∧ no_extras self (fs st') ∧
  dirs_mirrored self (fs st') ∧
  (entry_at (fs st) (source self) = Some Dir →
     extras_mirrored self (fs st') ∧ entry_at (fs st') (replica self) = Some Dir).
Proof.
  destruct Hroots as (Hsdot & Hrdot & _).
  intros Hwf Hvalid Hp. unfold sync_pass in Hp.
  apply bind_inv in Hp as [([] & s0 & He & Hp)|[(e & _ & ?)|[_ ?]]]; [|done..].
  apply bind_inv in Hp as [([] & s1 & Hf & Hr)|[(e & _ & ?)|[_ ?]]]; [|done..].
  apply ensure_replica_spec in He as (Hc0 & Hfs0 & Hwf0).
  specialize (Hwf0 Hwf).
  assert (cache_valid s0) as Hvalid0.
  { intros k h Hh. rewrite Hc0 in Hh. destruct (Hvalid k h Hh) as (c & Hc & ?).
    exists c. split; [|done]. rewrite Hfs0; eauto. }
  rewrite <-(app_nil_r (source self)) in Hf.
  rewrite <-(app_nil_r (replica self)) in Hr.
  pose proof (forward_walk_frame self Hroots [] n (not_elem_of_nil _) _ _ _ Hf)
    as (_ & _ & Csrc1 & _ & Ewf1).
  specialize (Ewf1 Hwf0).
  destruct (forward_walk_mirrors self Hroots n [] s0 s1 (not_elem_of_nil _) Hwf0
    (cache_valid_region s0 [] Hvalid0) Hf) as [FM DM].
  pose proof (reverse_walk_frame self Hroots n [] s1 _ st' (not_elem_of_nil _) Ewf1 Hr)
    as Frev.
  pose proof (reverse_walk_cleans self Hroots n [] s1 st' (not_elem_of_nil _) Ewf1 Hr)
    as Hpost.
  destruct (Frev Ewf1) as (Hwf' & _ & Arev & Brev).
  assert (∀ q, source self `prefix_of` q → fs st' !! q = fs s1 !! q) as Csrc2.
  { intros q Hq. by eapply (reverse_frame_source self Hroots). }
  assert (∀ y e, fs s1 !! (source self ++ y) = Some e → "." ∉ y) as Hcleany.
  { intros y e He%wf_no_dot; [|done]. rewrite elem_of_app in He. tauto. }
  assert (∀ y e, fs s1 !! (source self ++ y) = Some e → (y = [] → e = Dir) →
    fs st' !! (replica self ++ y) = fs s1 !! (replica self ++ y)) as Hkept.
  { intros y e He Hy. destruct (Arev (replica self ++ y)) as [?|[Hn _]]; [done|].
    destruct (fs s1 !! (replica self ++ y)) as [e1|] eqn:He1; [|done].
    assert (exists_in (fs s1) (source self ++ dotted y) = false) as Hex.
    { apply Brev. congruence. }
    by rewrite (exists_in_source_entry y e (fs s1) (Hcleany y e He) He Hy) in Hex. }
  split; [done|]. split_and!.
  - intros rel c Hrel Hc. rewrite Csrc2 in Hc by by apply prefix_app_r.
    destruct (FM rel c Hrel) as (c' & Hc' & Heq).
    { simpl. rewrite <-Hc. symmetry. apply Csrc1. by apply prefix_app_r. }
    exists c'. split; [|done]. simpl in Hc'. rewrite <-Hc'. by eapply Hkept.
  - intros rel Hrel Hs. pose proof Hs as [e He].
    apply wf_no_dot in He; [|done]. rewrite elem_of_app in He.
    specialize (Hpost rel ltac:(done) Hs). simpl in Hpost.
    destruct rel as [|a rel]; [done|]. simpl in Hpost.
    apply exists_in_clean in Hpost; [|apply not_dot_app; tauto].
    by rewrite (entry_at_source self Hroots) in Hpost.
  - intros y Hy. rewrite (entry_at_source self Hroots), Csrc2 in Hy
      by by apply prefix_app_r.
    pose proof (Hcleany _ _ Hy) as Hyc.
    pose proof (DM y) as DMy. simpl in DMy.
    rewrite (entry_at_source self Hroots) in DMy.
    rewrite <-Csrc1 in DMy by by apply prefix_app_r. specialize (DMy Hy).
    rewrite <-DMy. apply exists_in_same_entry.
    rewrite canon_mirror, !(entry_at_replica self Hroots) by done.
    by eapply Hkept.
  - intros Hsd. rewrite <-(app_nil_r (source self)) in Hsd.
    rewrite (entry_at_source self Hroots) in Hsd.
    rewrite <-Hfs0, <-Csrc1 in Hsd by (eauto || by apply prefix_app_r).
    pose proof (DM []) as DM0. simpl in DM0.
    rewrite (entry_at_source self Hroots) in DM0.
    rewrite <-Csrc1 in DM0 by by apply prefix_app_r. specialize (DM0 Hsd).
    apply exists_in_dot in DM0; [|done].
    rewrite <-(app_nil_r (replica self)), (entry_at_replica self Hroots) in DM0.
    assert (fs st' !! (replica self ++ []) = Some Dir) as Hrep.
    { by rewrite (Hkept [] Dir Hsd). }
    split.
    + intros y Hs. by apply (Hpost y).
    + by rewrite <-(app_nil_r (replica self)), (entry_at_replica self Hroots).
Qed.
End Pass.


(** ** C2: a second pass *)

Lemma depth_lookup (f : gmap path entry) k :
  is_Some (f !! k) → length k ≤ depth f.
Proof.
  intros [e He%elem_of_map_to_list]. unfold depth.
  induction (map_to_list f) as [|kv l IH]; [by apply elem_of_nil in He|].
  apply elem_of_cons in He as [<-|Hl]; simpl; [lia|].
  specialize (IH Hl). lia.
Qed.

Section Quiet.
Context `{Platform} (self : FolderSynchronizer) (F : gmap path entry).
Hypothesis Hroots : separate_roots self.
Hypothesis Hwf : wf F.
Hypothesis Hfiles : files_mirrored self F.
Hypothesis Hdirs : dirs_mirrored self F.
Hypothesis Hextras : extras_mirrored self F.
Hypothesis Hreplica : entry_at F (replica self) = Some Dir.

Lemma quiet_ret t {A} (a : A) : quiet t F (ret a).
Proof. intros st r st' HF Hc [= <- <-]. done. Qed.

Lemma quiet_bind t {A B} (m : M A) (k : A → M B) :
  quiet t F m → (∀ a, quiet t F (k a)) → quiet t F (bind m k).
Proof.
  intros Hm Hk st r st' HF Hc Hb.
  apply bind_inv in Hb as [(a & st1 & H1 & H2)|[(e & H1 & ->)|[H1 ->]]].
  - destruct (Hm _ _ _ HF Hc H1) as (HF1 & Hl1 & Hc1 & _).
    destruct (Hk a _ _ _ HF1 Hc1 H2) as (? & Hl2 & ? & ?).
    split_and!; [done|congruence|done..].
  - by destruct (Hm _ _ _ HF Hc H1) as (_ & _ & _ & []).
  - by destruct (Hm _ _ _ HF Hc H1) as (? & ? & ? & ?).
Qed.

Lemma quiet_for_each t {A} (l : list A) (body : A → M unit) :
  (∀ x, x ∈ l → quiet t F (body x)) → quiet t F (for_each l body).
Proof.
  induction l as [|x l IH]; intros Hb; simpl; [apply quiet_ret|].
  apply quiet_bind; [apply Hb; by left|].
  intros _. apply IH. intros y Hy. apply Hb. by right.
Qed.

(** A test of existence whose answer is known. *)
Lemma quiet_bind_exists t {B} p b (k : bool → M B) :
  exists_in F p = b → quiet t F (k b) → quiet t F (bind (path_exists p) k).
Proof.
  intros Hex Hk st r st' HF Hc Hb.
  unfold bind, path_exists in Hb. rewrite HF, Hex in Hb. by eapply Hk.
Qed.

(** The fingerprint of a file that is there. *)
Lemma calculate_md5_fresh p c st r st' :
  fs st = F → cache_fresh st →
  F !! canon p = Some (File c) → canon p ≠ [] → trailing_dot p = false →
  calculate_md5 p st = (r, st') →
  r = Ok (Some (file_md5 c)) ∧ fs st' = F ∧ log st' = log st ∧ cache_fresh st'.
Proof.
  intros HF Hc Hp Hne Ht. unfold calculate_md5.
  destruct (md5_cache st !! p) as [h|] eqn:Hh.
  - intros [= <- <-]. rewrite <-HF in Hp. by rewrite (Hc p h c Hh Hp).
  - unfold open_rb, stat. rewrite HF, entry_at_lookup, Hp, Ht by done.
    intros [= <- <-]. simpl. split_and!; [done..|].
    intros k h c0 Hk Hc0. simpl in *.
    destruct (decide (k = p)) as [->|Hkp].
    + rewrite lookup_insert_eq in Hk. rewrite ?HF in Hc0. congruence.
    + rewrite lookup_insert_ne in Hk by done. rewrite <-HF in Hc0. by eapply Hc.
Qed.

Lemma quiet_copy_or_update t rel file c :
  "." ∉ rel → F !! (source self ++ rel ++ [file]) = Some (File c) →
  quiet t F (copy_or_update (source self ++ rel) (replica self ++ dotted rel) file).
Proof.
  intros Hrel Hsrc st r st' HF Hc Hb.
  assert (file ≠ ".") as Hfile.
  { rewrite (assoc _) in Hsrc. by eapply listed_file_clean. }
  pose proof (source_file_key self Hroots rel file Hrel Hfile) as Hks.
  pose proof (replica_file_key self Hroots rel file Hrel Hfile) as Hkr.
  assert (trailing_dot ((source self ++ rel) ++ [file]) = false) as Hts.
  { rewrite trailing_dot_snoc. by apply bool_decide_eq_false. }
  assert (trailing_dot ((replica self ++ dotted rel) ++ [file]) = false) as Htr.
  { rewrite trailing_dot_snoc. by apply bool_decide_eq_false. }
  destruct (Hfiles (rel ++ [file]) c) as (c' & Hrep & Heq);
    [by destruct rel|done|].
  assert (exists_in (fs st) ((replica self ++ dotted rel) ++ [file]) = true) as Hex.
  { unfold exists_in, stat. rewrite HF, Hkr, entry_at_lookup, Hrep, Htr; [done|].
    apply snoc_ne_nil. }
  destruct (calculate_md5 ((source self ++ rel) ++ [file]) st) as [r1 st1] eqn:H1.
  destruct (calculate_md5_fresh _ c _ _ _ HF Hc ltac:(by rewrite Hks)
    ltac:(rewrite Hks; apply snoc_ne_nil) Hts H1) as (-> & HF1 & Hl1 & Hc1).
  destruct (calculate_md5 ((replica self ++ dotted rel) ++ [file]) st1)
    as [r2 st2] eqn:H2.
  destruct (calculate_md5_fresh _ c' _ _ _ HF1 Hc1 ltac:(by rewrite Hkr)
    ltac:(rewrite Hkr; apply snoc_ne_nil) Htr H2) as (-> & HF2 & Hl2 & Hc2).
  unfold copy_or_update, bind, path_exists in Hb. rewrite Hex in Hb. simpl in Hb.
  rewrite H1, H2 in Hb. simpl in Hb.
  rewrite Heq in Hb. rewrite bool_decide_eq_true_2 in Hb by done. simpl in Hb.
  injection Hb as <- <-. split_and!; [done|congruence|done..].
Qed.

Lemma quiet_forward_body t rel dirs files :
  "." ∉ rel → entry_at F (source self ++ rel) = Some Dir →
  (∀ x, x ∈ files → ∃ c, F !! (source self ++ rel ++ [x]) = Some (File c)) →
  quiet t F (forward_body self (source self ++ rel) dirs files).
Proof.
  intros Hrel Hdir Hlisted. unfold forward_body. rewrite relpath_app.
  apply (quiet_bind_exists t _ true); [by apply Hdirs|]. simpl.
  apply quiet_bind; [apply quiet_ret|]. intros _.
  apply quiet_for_each. intros x [c Hc]%Hlisted. by eapply quiet_copy_or_update.
Qed.

Lemma enough_child t n top d :
  is_Some (F !! (top ++ [d])) → enough F t (S n) top → enough F t n (top ++ [d]).
Proof.
  intros Hd He Ht. destruct (He Ht) as [_ Hk]. split; [done|].
  intros k Hin. specialize (Hk k Hin). rewrite length_app. simpl. lia.
Qed.

Lemma enough_0 t top : enough F t 0 top → t = true.
Proof.
  intros He. destruct t; [done|]. destruct (He eq_refl) as [Hin Hk].
  specialize (Hk top Hin). lia.
Qed.

Lemma quiet_forward_walk t n : ∀ rel,
  "." ∉ rel → enough F t n (source self ++ rel) →
  quiet t F (os_walk n (source self ++ rel) (forward_body self)).
Proof.
  destruct Hroots as (Hs & _).
  induction n as [|n IH]; intros rel Hrel Hn st r st' HF Hc Hw.
  - injection Hw as <- <-. split_and!; [done..|]. by eapply enough_0.
  - simpl in Hw. rewrite HF in Hw.
    destruct (scandir F (source self ++ rel)) as [[dirs files]|] eqn:Hscan;
      [|by injection Hw as <- <-].
    apply scandir_Some in Hscan as (Hdir & Hds & Hfs & _).
    rewrite canon_clean in Hdir, Hds, Hfs by by apply not_dot_app.
    revert st r st' HF Hc Hw. apply quiet_bind.
    + apply quiet_forward_body; [done..|].
      intros x Hx%Hfs. by rewrite app_assoc.
    + intros _. apply quiet_for_each. intros d Hd%Hds.
      rewrite <-app_assoc. apply IH.
      * apply not_dot_app; [done|]. apply not_elem_of_cons. split; [|apply not_elem_of_nil].
        intros <-. by eapply listed_dir_clean.
      * rewrite app_assoc. apply enough_child; [by eauto|done].
Qed.

Lemma quiet_remove_extra t rel file :
  "." ∉ rel → is_Some (F !! (replica self ++ rel ++ [file])) →
  quiet t F (remove_extra (replica self ++ rel) (source self ++ dotted rel) file).
Proof.
  destruct Hroots as (Hs & _). intros Hrel Hin. unfold remove_extra.
  assert (file ≠ ".") as Hfile.
  { destruct Hin as [e He]. apply wf_no_dot in He; [|done]. intros ->.
    apply He. rewrite !elem_of_app, list_elem_of_singleton. tauto. }
  apply (quiet_bind_exists t _ true); [|apply quiet_ret].
  rewrite <-(Hextras (rel ++ [file]) Hin). apply exists_in_canon.
  - rewrite <-!(assoc _), canon_mirror_file by done.
    rewrite canon_mirror; [done..|].
    apply not_dot_app; [done|]. apply not_elem_of_cons. split; [done|apply not_elem_of_nil].
  - rewrite trailing_dot_snoc.
    assert (dotted (rel ++ [file]) = rel ++ [file]) as -> by by destruct rel.
    by rewrite (assoc _), trailing_dot_snoc.
Qed.

Lemma quiet_reverse_body t rel dirs files :
  "." ∉ rel → is_Some (F !! (replica self ++ rel)) →
  (∀ x, x ∈ files → is_Some (F !! (replica self ++ rel ++ [x]))) →
  quiet t F (reverse_body self (replica self ++ rel) dirs files).
Proof.
  intros Hrel Hdir Hlisted. unfold reverse_body. rewrite relpath_app.
  apply (quiet_bind_exists t _ true); [by apply Hextras|]. simpl.
  apply quiet_bind; [apply quiet_ret|]. intros _.
  apply quiet_for_each. intros x Hx%Hlisted. by apply quiet_remove_extra.
Qed.

Lemma quiet_reverse_walk t n : ∀ rel,
  "." ∉ rel → enough F t n (replica self ++ rel) →
  quiet t F (os_walk n (replica self ++ rel) (reverse_body self)).
Proof.
  destruct Hroots as (_ & Hr & _).
  induction n as [|n IH]; intros rel Hrel Hn st r st' HF Hc Hw.
  - injection Hw as <- <-. split_and!; [done..|]. by eapply enough_0.
  - simpl in Hw. rewrite HF in Hw.
    destruct (scandir F (replica self ++ rel)) as [[dirs files]|] eqn:Hscan;
      [|by injection Hw as <- <-].
    apply scandir_Some in Hscan as (Hdir & Hds & Hfs & _).
    rewrite canon_clean in Hdir, Hds, Hfs by by apply not_dot_app.
    rewrite (entry_at_replica self Hroots) in Hdir.
    revert st r st' HF Hc Hw. apply quiet_bind.
    + apply quiet_reverse_body; [done|by eauto|].
      intros x [c Hx]%Hfs. rewrite app_assoc. eauto.
    + intros _. apply quiet_for_each. intros d Hd%Hds.
      rewrite <-app_assoc. apply IH.
      * apply not_dot_app; [done|]. apply not_elem_of_cons. split; [|apply not_elem_of_nil].
        intros <-. by eapply listed_dir_clean.
      * rewrite app_assoc. apply enough_child; [by eauto|done].
Qed.

Lemma quiet_ensure_replica t : quiet t F (ensure_replica self).
Proof.
  destruct Hroots as (_ & Hr & _). unfold ensure_replica.
  apply (quiet_bind_exists t _ true); [|apply quiet_ret].
  apply exists_in_clean; [done|]. rewrite Hreplica. eauto.
Qed.

Lemma source_is_dir : F !! source self = Some Dir.
Proof.
  destruct Hroots as (Hs & _). pose proof Hreplica as Hrep.
  rewrite <-(app_nil_r (replica self)), (entry_at_replica self Hroots) in Hrep.
  pose proof (Hextras [] ltac:(eauto)) as Hex. simpl in Hex.
  apply exists_in_dot in Hex; [|done].
  rewrite <-(app_nil_r (source self)), (entry_at_source self Hroots) in Hex.
  by rewrite app_nil_r in Hex.
Qed.

Lemma quiet_sync_pass t n :
  (t = false → depth F ≤ n) → quiet t F (sync_pass self n).
Proof.
  intros Hn. unfold sync_pass.
  apply quiet_bind; [apply quiet_ensure_replica|]. intros _.
  apply quiet_bind; [|intros _].
  - rewrite <-(app_nil_r (source self)). apply quiet_forward_walk; [apply not_elem_of_nil|].
    intros Ht. rewrite app_nil_r. split; [rewrite source_is_dir; eauto|].
    intros k Hk%depth_lookup. specialize (Hn Ht).
    pose proof (source_ne_nil self Hroots []) as Hne. rewrite app_nil_r in Hne.
    destruct (source self); [done|]. simpl. lia.
  - rewrite <-(app_nil_r (replica self)). apply quiet_reverse_walk; [apply not_elem_of_nil|].
    intros Ht. split.
    + rewrite <-(entry_at_replica self Hroots), app_nil_r, Hreplica. eauto.
    + rewrite app_nil_r.
      intros k Hk%depth_lookup. specialize (Hn Ht).
      pose proof (replica_ne_nil self Hroots []) as Hne. rewrite app_nil_r in Hne.
      destruct (replica self); [done|]. simpl. lia.
Qed.
End Quiet.


(** ** Termination: the fuel of the walks *)

Lemma returns_ret {A} (a : A) : returns (ret a).
Proof. by intros st r st' [= <- _]. Qed.

Lemma returns_bind {A B} (m : M A) (k : A → M B) :
  returns m → (∀ a, returns (k a)) → returns (bind m k).
Proof.
  intros Hm Hk st r st' Hb.
  apply bind_inv in Hb as [(a & st1 & _ & H2)|[(e & _ & ->)|[H1 ->]]];
    [by eapply Hk|done|by destruct (Hm _ _ _ H1)].
Qed.

Lemma returns_for_each {A} (l : list A) (body : A → M unit) :
  (∀ x, returns (body x)) → returns (for_each l body).
Proof.
  intros Hb. induction l as [|x l IH]; simpl; [apply returns_ret|].
  by apply returns_bind.
Qed.

Lemma returns_lift_fs op : returns (lift_fs op).
Proof. intros st r st'. unfold lift_fs. by destruct (op (fs st)); intros [= <- _]. Qed.

Lemma returns_path_exists p : returns (path_exists p).
Proof. by intros st r st' [= <- _]. Qed.

Lemma returns_log_operation rec : returns (log_operation rec).
Proof. by intros st r st' [= <- _]. Qed.

Lemma returns_ignore_exists m : returns m → returns (ignore_exists m).
Proof.
  intros Hm st r st'. unfold ignore_exists.
  destruct (m st) as [[[]|[]|] st1] eqn:Hmst; intros [= <- _]; try done.
  by eapply Hm.
Qed.

Lemma returns_makedirs p : returns (makedirs p).
Proof.
  unfold makedirs. induction (rev p) as [|tail rhead IH]; simpl.
  - apply returns_lift_fs.
  - apply returns_bind; [apply returns_path_exists|]. intros [|].
    + apply returns_lift_fs.
    + apply returns_bind; [by apply returns_ignore_exists|]. intros _.
      case_decide; [apply returns_ret|apply returns_lift_fs].
Qed.

Lemma for_each_returned {A} (l : list A) (f g : A → M unit) :
  (∀ x st r st', x ∈ l → f x st = (r, st') → r ≠ Timeout → g x st = (r, st')) →
  ∀ st r st', for_each l f st = (r, st') → r ≠ Timeout → for_each l g st = (r, st').
Proof.
  induction l as [|x l IH]; intros Hfg st r st' Hf Hr; simpl in *; [done|].
  apply bind_inv in Hf as [(a & st1 & H1 & H2)|[(e & H1 & ->)|[H1 ->]]]; [| |done].
  - unfold bind. rewrite (Hfg x st (Ok a) st1) by (done || by left).
    apply IH; [|done..]. intros y ?????. apply Hfg; [by right|done..].
  - unfold bind. by rewrite (Hfg x st (Raise e) st') by (done || by left).
Qed.

(** A loop whose steps return and keep an invariant. *)
Lemma for_each_returns {A} (I : state → Prop) (l : list A) (body : A → M unit) :
  (∀ x st r st', x ∈ l → I st → body x st = (r, st') → r ≠ Timeout ∧ I st') →
  ∀ st r st', I st → for_each l body st = (r, st') → r ≠ Timeout.
Proof.
  induction l as [|x l IH]; intros Hb st r st' HI Hf; simpl in *.
  { by injection Hf as <- _. }
  apply bind_inv in Hf as [(a & st1 & H1 & H2)|[(e & H1 & ->)|[H1 ->]]]; [|done|].
  - destruct (Hb x st _ _ ltac:(by left) HI H1) as [_ HI1].
    eapply IH; [|done..]. intros y ??????. eapply Hb; [by right|done..].
  - by destruct (Hb x st _ _ ltac:(by left) HI H1).
Qed.

Section Fuel.
Context `{Platform} (self : FolderSynchronizer).

Lemma os_walk_S n top body st :
  os_walk (S n) top body st =
  match scandir (fs st) top with
  | None => (Ok tt, st)
  | Some (dirs, files) =>
      (body top dirs files ;; for_each dirs (λ d, os_walk n (top ++ [d]) body)) st
  end.
Proof. done. Qed.

(** The outcome of a walk that returns does not depend on its fuel. *)
Lemma os_walk_more_fuel body n : ∀ top st r st',
  os_walk n top body st = (r, st') → r ≠ Timeout →
  os_walk (S n) top body st = (r, st').
Proof.
  induction n as [|n IH]; intros top st r st' Hw Hr.
  { by injection Hw as <- _. }
  rewrite os_walk_S in Hw. rewrite os_walk_S.
  destruct (scandir (fs st) top) as [[dirs files]|]; [|done].
  apply bind_inv in Hw as [([] & st1 & H1 & H2)|[(e & H1 & ->)|[H1 ->]]]; [| |done].
  - unfold bind. rewrite H1. revert H2 Hr. apply for_each_returned.
    intros d ???? Hd ?. by apply IH.
  - unfold bind. by rewrite H1.
Qed.

Lemma os_walk_mono body n m top st r st' :
  os_walk n top body st = (r, st') → r ≠ Timeout → n ≤ m →
  os_walk m top body st = (r, st').
Proof.
  intros Hw Hr Hle. induction Hle as [|m Hle IH]; [done|].
  by apply os_walk_more_fuel.
Qed.

Lemma sync_pass_mono n m st r st' :
  sync_pass self n st = (r, st') → r ≠ Timeout → n ≤ m →
  sync_pass self m st = (r, st').
Proof.
  unfold sync_pass. intros Hp Hr Hle.
  apply bind_inv in Hp as [([] & s0 & He & Hp)|[(e & He & ->)|[He ->]]]; [| |done].
  - unfold bind at 1. rewrite He.
    apply bind_inv in Hp as [([] & s1 & Hf & Hp)|[(e & Hf & ->)|[Hf ->]]]; [| |done].
    + unfold bind. rewrite (os_walk_mono _ n m _ _ _ _ Hf) by done.
      by apply (os_walk_mono _ n m).
    + unfold bind. by rewrite (os_walk_mono _ n m _ _ _ _ Hf).
  - unfold bind. by rewrite He.
Qed.

Lemma sync_folders_mono n m st st' :
  sync_folders self n st = Some st' → n ≤ m → sync_folders self m st = Some st'.
Proof.
  unfold sync_folders. intros Hs Hle.
  destruct (sync_pass self n st) as [r st1] eqn:Hp.
  assert (r ≠ Timeout) as Hr by (by destruct r).
  by rewrite (sync_pass_mono n m st r st1).
Qed.

Lemma returns_calculate_md5 p : returns (calculate_md5 p).
Proof.
  intros st r st'. unfold calculate_md5.
  destruct (md5_cache st !! p); [by intros [= <- _]|].
  by destruct (open_rb (fs st) p) as [[]|]; intros [= <- _].
Qed.

Lemma returns_copy_or_update root replica_root file :
  returns (copy_or_update root replica_root file).
Proof.
  unfold copy_or_update.
  apply returns_bind; [apply returns_path_exists|]. intros present.
  apply returns_bind.
  - destruct present; simpl; [|apply returns_ret].
    apply returns_bind; [apply returns_calculate_md5|]. intros h1.
    apply returns_bind; [apply returns_calculate_md5|]. intros h2.
    apply returns_ret.
  - intros [|]; [|apply returns_ret].
    apply returns_bind; [apply returns_lift_fs|]. intros _. apply returns_log_operation.
Qed.

Lemma returns_forward_body root dirs files :
  returns (forward_body self root dirs files).
Proof.
  unfold forward_body.
  apply returns_bind; [apply returns_path_exists|]. intros present.
  apply returns_bind.
  - destruct present; simpl; [apply returns_ret|].
    apply returns_bind; [apply returns_makedirs|]. intros _. apply returns_log_operation.
  - intros _. apply returns_for_each. intros file. apply returns_copy_or_update.
Qed.

Lemma returns_reverse_body root dirs files :
  returns (reverse_body self root dirs files).
Proof.
  unfold reverse_body.
  apply returns_bind; [apply returns_path_exists|]. intros present.
  apply returns_bind.
  - destruct present; simpl; [apply returns_ret|].
    apply returns_bind; [apply returns_lift_fs|]. intros _. apply returns_log_operation.
  - intros _. apply returns_for_each. intros file. unfold remove_extra.
    apply returns_bind; [apply returns_path_exists|]. intros [|]; simpl; [apply returns_ret|].
    apply returns_bind; [apply returns_lift_fs|]. intros _. apply returns_log_operation.
Qed.

Lemma returns_ensure_replica : returns (ensure_replica self).
Proof.
  unfold ensure_replica.
  apply returns_bind; [apply returns_path_exists|]. intros [|]; simpl; [apply returns_ret|].
  apply returns_bind; [apply returns_makedirs|]. intros _. apply returns_log_operation.
Qed.

Hypothesis Hroots : separate_roots self.

Lemma forward_walk_returns D n : ∀ rel st r st',
  "." ∉ rel → wf (fs st) → source_within self D st →
  length (source self ++ rel) ≤ D → D < length (source self ++ rel) + n →
  os_walk n (source self ++ rel) (forward_body self) st = (r, st') →
  r ≠ Timeout.
Proof.
  destruct Hroots as (Hs & _).
  induction n as [|n IH]; intros rel st r st' Hrel Hwf HD Hlen Hn Hw; [lia|].
  rewrite os_walk_S in Hw.
  destruct (scandir (fs st) (source self ++ rel)) as [[dirs files]|] eqn:Hscan;
    [|by injection Hw as <- _].
  apply scandir_Some in Hscan as (_ & Hds & _).
  rewrite canon_clean in Hds by by apply not_dot_app.
  apply bind_inv in Hw as [([] & st1 & H1 & H2)|[(e & _ & ->)|[H1 ->]]];
    [|done|by destruct (returns_forward_body _ _ _ _ _ _ H1)].
  pose proof H1 as Hframe. rewrite <-(app_nil_r rel), (assoc _) in Hframe.
  rewrite <-(assoc _) in Hframe.
  apply (forward_body_forward_frame self Hroots rel []) in Hframe; [|done].
  revert H2.
  apply (for_each_returns (λ s, forward_frame self rel st s)); [|done].
  intros d s r' s' Hd%Hds Hs' Hwd.
  destruct Hs' as (A & B & C & E & F).
  assert ("." ∉ rel ++ [d]) as Hreld.
  { apply not_dot_app; [done|]. apply not_elem_of_cons. split; [|apply not_elem_of_nil].
    intros <-. by eapply listed_dir_clean. }
  rewrite <-app_assoc in Hwd, Hd. split.
  - eapply (IH (rel ++ [d])); [done|by apply F| | | |done].
    + intros q Hq Hin. rewrite C in Hin by done. by apply HD.
    + apply HD; [by eexists|by eauto].
    + rewrite !length_app in *. simpl. lia.
  - etrans; [by split_and!|]. apply forward_frame_weaken with [d].
    exact (forward_walk_frame self Hroots (rel ++ [d]) n Hreld _ _ _ Hwd).
Qed.

Lemma reverse_walk_returns D n : ∀ rel st r st',
  "." ∉ rel → wf (fs st) → all_within D st →
  length (replica self ++ rel) ≤ D → D < length (replica self ++ rel) + n →
  os_walk n (replica self ++ rel) (reverse_body self) st = (r, st') →
  r ≠ Timeout.
Proof.
  destruct Hroots as (_ & Hr & _).
  induction n as [|n IH]; intros rel st r st' Hrel Hwf HD Hlen Hn Hw; [lia|].
  rewrite os_walk_S in Hw.
  destruct (scandir (fs st) (replica self ++ rel)) as [[dirs files]|] eqn:Hscan;
    [|by injection Hw as <- _].
  apply scandir_Some in Hscan as (_ & Hds & _).
  rewrite canon_clean in Hds by by apply not_dot_app.
  apply bind_inv in Hw as [([] & st1 & H1 & H2)|[(e & _ & ->)|[H1 ->]]];
    [|done|by destruct (returns_reverse_body _ _ _ _ _ _ H1)].
  pose proof H1 as Hframe. rewrite <-(app_nil_r rel), (assoc _) in Hframe.
  rewrite <-(assoc _) in Hframe.
  apply (reverse_body_frame self Hroots rel []) in Hframe; [|done|apply not_elem_of_nil].
  revert H2.
  apply (for_each_returns (λ s, wf (fs s) ∧ all_within D s)).
  - intros d s r' s' Hd%Hds [Hwfs HDs] Hwd.
    assert ("." ∉ rel ++ [d]) as Hreld.
    { apply not_dot_app; [done|]. apply not_elem_of_cons. split; [|apply not_elem_of_nil].
      intros <-. exact (listed_dir_clean (fs st) _ _ Hwf Hd eq_refl). }
    rewrite <-app_assoc in Hwd, Hd. split.
    + eapply (IH (rel ++ [d])); [done..| | |done].
      * apply HD. eauto.
      * rewrite !length_app in *. simpl. lia.
    + pose proof (reverse_walk_frame self Hroots n (rel ++ [d]) s r' s' Hreld Hwfs Hwd)
        as Hrf.
      split; [by eapply reverse_frame_wf|].
      intros q Hq. apply HDs.
      by rewrite <-(reverse_frame_shrinks self (rel ++ [d]) s s' q).
  - split; [by eapply reverse_frame_wf|].
    intros q Hq. apply HD.
    by rewrite <-(reverse_frame_shrinks self rel st st1 q).
Qed.

(** With enough fuel a pass ends, normally or with an exception, and more
    fuel does not change its outcome. *)
Lemma sync_pass_returns st :
  wf (fs st) →
  ∃ N r st', r ≠ Timeout ∧ ∀ n, N ≤ n → sync_pass self n st = (r, st').
Proof.
  intros Hwf.
  destruct (ensure_replica self st) as [r0 s0] eqn:He.
  pose proof (returns_ensure_replica _ _ _ He) as Hr0.
  destruct r0 as [[]|e|]; [| |done]; cycle 1.
  { exists 0, (Raise e), s0. split; [done|]. intros n _.
    unfold sync_pass, bind. by rewrite He. }
  pose proof (ensure_replica_spec self _ _ He) as (_ & _ & Hwf0).
  specialize (Hwf0 Hwf).
  set (D := depth (fs s0) + length (source self)).
  destruct (os_walk (S D) (source self) (forward_body self) s0) as [r1 s1] eqn:Hf.
  assert (r1 ≠ Timeout) as Hr1.
  { rewrite <-(app_nil_r (source self)) in Hf.
    eapply (forward_walk_returns D (S D) [] s0); [apply not_elem_of_nil|done| | | |done].
    - intros q _ Hq%depth_lookup. unfold D. lia.
    - rewrite app_nil_r. unfold D. lia.
    - lia. }
  destruct r1 as [[]|e|]; [| |done]; cycle 1.
  { exists (S D), (Raise e), s1. split; [done|]. intros n Hn.
    unfold sync_pass, bind. rewrite He.
    by rewrite (os_walk_mono _ (S D) n _ _ _ _ Hf). }
  assert (wf (fs s1)) as Hwf1.
  { rewrite <-(app_nil_r (source self)) in Hf.
    apply (forward_walk_frame self Hroots [] _ (not_elem_of_nil _)) in Hf
      as (_ & _ & _ & _ & F). by apply F. }
  set (D' := depth (fs s1) + length (replica self)).
  destruct (os_walk (S D') (replica self) (reverse_body self) s1) as [r2 s2] eqn:Hrv.
  assert (r2 ≠ Timeout) as Hr2.
  { rewrite <-(app_nil_r (replica self)) in Hrv.
    eapply (reverse_walk_returns D' (S D') [] s1); [apply not_elem_of_nil|done| | | |done].
    - intros q Hq%depth_lookup. unfold D'. lia.
    - rewrite app_nil_r. unfold D'. lia.
    - lia. }
  exists (S D `max` S D'), r2, s2. split; [done|]. intros n Hn.
  unfold sync_pass, bind. rewrite He.
  rewrite (os_walk_mono _ (S D) n _ _ _ _ Hf) by (done || lia).
  by rewrite (os_walk_mono _ (S D') n _ _ _ _ Hrv) by (done || lia).
Qed.

(** [sync_folders] returns: with enough fuel the call has a result, the
    same for every larger fuel. *)
Lemma sync_folders_returns st :
  wf (fs st) → ∃ N st', ∀ n, N ≤ n → sync_folders self n st = Some st'.
Proof.
  intros (N & r & st' & Hr & Hn)%sync_pass_returns.
  destruct r as [[]|e|]; [| |done].
  - exists N, st'. intros n Hle. unfold sync_folders. by rewrite Hn.
  - exists N, (log_operation (SyncError e) st').2. intros n Hle.
    unfold sync_folders. by rewrite Hn.
Qed.
End Fuel.

(** ** Checks that compute *)

Lemma wf_check_sound f : wf_check f = true → wf f.
Proof.
  unfold wf_check. rewrite forallb_forall. intros Hall p e Hp.
  apply elem_of_map_to_list, list_elem_of_In, Hall in Hp. simpl in Hp.
  apply andb_prop in Hp as [[H1%bool_decide_eq_true H2%bool_decide_eq_true]%andb_prop H3].
  split_and!; [done..|]. by destruct (entry_at f (parent p)) as [[]|].
Qed.

Lemma cache_fresh_check_sound `{Platform} st : cache_fresh_check st = true → cache_fresh st.
Proof.
  unfold cache_fresh_check. rewrite forallb_forall. intros Hall k h c Hk Hc.
  apply elem_of_map_to_list, list_elem_of_In, Hall in Hk. simpl in Hk.
  rewrite Hc in Hk. by apply bool_decide_eq_true in Hk.
Qed.

Lemma cache_valid_fresh `{Platform} f : cache_valid (fresh f).
Proof. intros k h Hk. simpl in Hk. by rewrite lookup_empty in Hk. Qed.



Lemma sync_pass_two_phases_witness :
  ∃ Δ, log demo_after = log (fresh demo_fs) ++ Δ ∧ two_phases Δ.
Proof.
  apply (sync_pass_two_phases sr 5 (fresh demo_fs) demo_after (Ok tt)).
  - apply wf_check_sound. vm_compute; reflexivity.
  - vm_compute; reflexivity.
Defined.

(** ** Further properties of the code *)

(** *** The chunks read by [calculate_md5] *)

Lemma read_chunks_cons n b (c : list byte) :
  read_chunks (S n) (b :: c) =
  take 4096 (b :: c) :: read_chunks n (drop 4096 (b :: c)).
Proof. reflexivity. Qed.

Lemma read_chunks_nil n : read_chunks n [] = [].
Proof. by destruct n. Qed.

Lemma read_chunks_concat n : ∀ c : list byte,
  length c ≤ n → concat (read_chunks n c) = c.
Proof.
  induction n as [|n IH]; intros [|b c] Hn; try done.
  { simpl in Hn. lia. }
  rewrite read_chunks_cons, concat_cons, IH; [apply take_drop|].
  rewrite length_drop. cbn [length] in *. lia.
Qed.

Lemma read_chunks_sizes n : ∀ c : list byte,
  Forall (λ chunk, 0 < length chunk ≤ 4096) (read_chunks n c).
Proof.
  induction n as [|n IH]; intros [|b c]; try by constructor.
  rewrite read_chunks_cons. constructor; [|apply IH].
  rewrite length_take. cbn [length]. lia.
Qed.

(** *** Relations kept by a whole pass *)

Section Whole_pass.
Context `{Platform} (self : FolderSynchronizer).
Context (R : relation state) `{!PreOrder R}.
Hypothesis R_fs : ∀ op, preserves R (lift_fs op).
Hypothesis R_md5 : ∀ p, preserves R (calculate_md5 p).
Hypothesis R_log : ∀ rec, is_mutation rec = true → preserves R (log_operation rec).

Lemma makedirs_keeps p : preserves R (makedirs p).
Proof.
  unfold makedirs. induction (rev p) as [|tail rhead IH]; [apply R_fs|].
  cbn [makedirs_rev]. apply preserves_bind; [apply _|apply path_exists_preserves, _|].
  intros [|]; [apply R_fs|].
  apply preserves_bind; [apply _|by apply preserves_ignore_exists|].
  intros _. case_decide; [apply preserves_ret, _|apply R_fs].
Qed.

Lemma copy_or_update_keeps root replica_root file :
  preserves R (copy_or_update root replica_root file).
Proof.
  unfold copy_or_update.
  apply preserves_bind; [apply _|apply path_exists_preserves, _|]. intros present.
  apply preserves_bind; [apply _|..].
  - destruct present; simpl; [|apply preserves_ret, _].
    apply preserves_bind; [apply _|apply R_md5|]. intros h1.
    apply preserves_bind; [apply _|apply R_md5|]. intros h2.
    apply preserves_ret, _.
  - intros [|]; [|apply preserves_ret, _].
    apply preserves_bind; [apply _|apply R_fs|]. intros _. by apply R_log.
Qed.

Lemma forward_body_keeps root dirs files :
  preserves R (forward_body self root dirs files).
Proof.
  unfold forward_body.
  apply preserves_bind; [apply _|apply path_exists_preserves, _|]. intros present.
  apply preserves_bind; [apply _|..].
  - destruct present; simpl; [apply preserves_ret, _|].
    apply preserves_bind; [apply _|apply makedirs_keeps|]. intros _. by apply R_log.
  - intros _. apply preserves_for_each; [apply _|].
    intros file _. apply copy_or_update_keeps.
Qed.

Lemma reverse_body_keeps root dirs files :
  preserves R (reverse_body self root dirs files).
Proof.
  unfold reverse_body.
  apply preserves_bind; [apply _|apply path_exists_preserves, _|]. intros present.
  apply preserves_bind; [apply _|..].
  - destruct present; simpl; [apply preserves_ret, _|].
    apply preserves_bind; [apply _|apply R_fs|]. intros _. by apply R_log.
  - intros _. apply preserves_for_each; [apply _|].
    intros file _. unfold remove_extra.
    apply preserves_bind; [apply _|apply path_exists_preserves, _|].
    intros [|]; simpl; [apply preserves_ret, _|].
    apply preserves_bind; [apply _|apply R_fs|]. intros _. by apply R_log.
Qed.

Lemma ensure_replica_keeps : preserves R (ensure_replica self).
Proof.
  unfold ensure_replica.
  apply preserves_bind; [apply _|apply path_exists_preserves, _|].
  intros [|]; simpl; [apply preserves_ret, _|].
  apply preserves_bind; [apply _|apply makedirs_keeps|]. intros _. by apply R_log.
Qed.

Lemma sync_pass_keeps n : preserves R (sync_pass self n).
Proof.
  unfold sync_pass.
  apply preserves_bind; [apply _|apply ensure_replica_keeps|]. intros _.
  apply preserves_bind; [apply _|..].
  - apply (preserves_walk _ (λ _, True)); auto using forward_body_keeps.
  - intros _. apply (preserves_walk _ (λ _, True)); auto using reverse_body_keeps.
Qed.
End Whole_pass.

(** *** The cache only grows *)

Global Instance cache_grows_preorder : PreOrder cache_grows.
Proof.
  split; [by intros st k h|].
  intros st1 st2 st3 H1 H2 k h Hk. by apply H2, H1.
Qed.

Lemma cache_grows_same st st' : md5_cache st' = md5_cache st → cache_grows st st'.
Proof. intros Hc k h. by rewrite Hc. Qed.

Lemma lift_fs_cache_grows op : preserves cache_grows (lift_fs op).
Proof.
  intros st r st' [(f' & _ & _ & ->)|(e & _ & _ & ->)]%lift_fs_inv;
    by apply cache_grows_same.
Qed.

Lemma calculate_md5_cache_grows `{Platform} p : preserves cache_grows (calculate_md5 p).
Proof.
  intros st r st' (_ & _ & [[-> _]|(c & Hnone & _ & _ & Hc)])%calculate_md5_spec;
    [done|].
  intros k h Hk. rewrite Hc. rewrite lookup_insert_ne; [done|]. congruence.
Qed.

Lemma log_operation_cache_grows rec : preserves cache_grows (log_operation rec).
Proof. intros st r st' [_ ->]%log_operation_inv. by apply cache_grows_same. Qed.

Lemma sync_pass_cache_grows `{Platform} self n : preserves cache_grows (sync_pass self n).
Proof.
  apply sync_pass_keeps; [apply _|apply lift_fs_cache_grows|
    apply calculate_md5_cache_grows|intros; apply log_operation_cache_grows].
Qed.

Lemma sync_folders_cache_grows `{Platform} self n st st' :
  sync_folders self n st = Some st' → cache_grows st st'.
Proof.
  unfold sync_folders. destruct (sync_pass self n st) as [[[]|e|] st1] eqn:Hp;
    intros [= <-]; [by eapply sync_pass_cache_grows|].
  etrans; [by eapply sync_pass_cache_grows|]. by apply cache_grows_same.
Qed.

Lemma run_cache_grows `{Platform} self k n : ∀ st st',
  run self k n st = Some st' → cache_grows st st'.
Proof.
  induction k as [|k IH]; intros st st' Hr; simpl in Hr; [by injection Hr as <-|].
  destruct (sync_folders self n st) as [st1|] eqn:Hs; [|done]. simpl in Hr.
  etrans; [by eapply sync_folders_cache_grows|by apply IH].
Qed.

(** *** The records of a call *)

Global Instance logs_actions_preorder : PreOrder logs_actions.
Proof.
  split.
  - intros st. exists []. by rewrite app_nil_r.
  - intros st1 st2 st3 (Δ1 & H1 & ?) (Δ2 & H2 & ?). exists (Δ1 ++ Δ2).
    split; [by rewrite H2, H1, <-app_assoc|]. by apply Forall_app.
Qed.

Lemma logs_actions_same st st' : log st' = log st → logs_actions st st'.
Proof. intros Hl. exists []. by rewrite app_nil_r. Qed.

Lemma sync_pass_logs_actions `{Platform} self n : preserves logs_actions (sync_pass self n).
Proof.
  apply sync_pass_keeps; [apply _|..].
  - intros op st r st' [(f' & _ & _ & ->)|(e & _ & _ & ->)]%lift_fs_inv;
      by apply logs_actions_same.
  - intros p st r st' (_ & ? & _)%calculate_md5_spec. by apply logs_actions_same.
  - intros rec Hrec st r st' [_ ->]%log_operation_inv. exists [rec].
    split; [done|]. by apply Forall_singleton.
Qed.

Lemma walks_log_actions `{Platform} self n :
  preserves logs_actions
    (os_walk n (source self) (forward_body self) ;;
     os_walk n (replica self) (reverse_body self)).
Proof.
  assert (∀ rec, is_mutation rec = true → preserves logs_actions (log_operation rec))
    as Hlog.
  { intros rec Hrec st r st' [_ ->]%log_operation_inv. exists [rec].
    split; [done|]. by apply Forall_singleton. }
  assert (∀ op, preserves logs_actions (lift_fs op)) as Hfs.
  { intros op st r st' [(f' & _ & _ & ->)|(e & _ & _ & ->)]%lift_fs_inv;
      by apply logs_actions_same. }
  assert (∀ p, preserves logs_actions (calculate_md5 p)) as Hmd5.
  { intros p st r st' (_ & ? & _)%calculate_md5_spec. by apply logs_actions_same. }
  apply preserves_bind; [apply _|..].
  - apply (preserves_walk _ (λ _, True)); [done| |done].
    intros. apply forward_body_keeps; (apply _ || done).
  - intros _. apply (preserves_walk _ (λ _, True)); [done| |done].
    intros. apply reverse_body_keeps; (apply _ || done).
Qed.

(** *** The steps of a pass, whatever their outcome *)

Section Cycles.
Context `{Platform} (self : FolderSynchronizer).
Hypothesis Hroots : separate_roots self.

(** The first step adds directories at most, at the replica root and above
    it. *)
Lemma ensure_replica_adds st r st0 :
  ensure_replica self st = (r, st0) →
  (wf (fs st) → wf (fs st0)) ∧
  ∀ q, fs st0 !! q = fs st !! q ∨
       (q `prefix_of` replica self ∧ fs st !! q = None ∧ fs st0 !! q = Some Dir).
Proof.
  destruct Hroots as (_ & Hr & _). unfold ensure_replica. intros Hb.
  apply bind_inv in Hb as [(present & st1 & [[= ->] ->]%path_exists_inv & Hb)|
    [(e & [? _]%path_exists_inv & _)|[[? _]%path_exists_inv _]]]; [|done..].
  destruct (exists_in (fs st) (replica self)); simpl in Hb.
  { injection Hb as _ <-. split; [done|]. by left. }
  apply bind_inv in Hb as [([] & st1 & Hm & [_ ->]%log_operation_inv)|
    [(e & Hm & _)|[Hm _]]];
    apply makedirs_creates in Hm as (_ & _ & Hw & Hq);
    rewrite canon_clean in Hq by done; done.
Qed.

Lemma forward_walk_wf n st r st' :
  os_walk n (source self) (forward_body self) st = (r, st') →
  wf (fs st) → wf (fs st').
Proof.
  intros Hf. rewrite <-(app_nil_r (source self)) in Hf.
  by apply (forward_walk_frame self Hroots [] n (not_elem_of_nil _)) in Hf
    as (_ & _ & _ & _ & F).
Qed.

Lemma sync_pass_wf n st r st' :
  sync_pass self n st = (r, st') → wf (fs st) → wf (fs st').
Proof.
  unfold sync_pass. intros Hp Hwf.
  apply bind_inv in Hp as [([] & s0 & He & Hp)|[(e & He & _)|[He _]]];
    apply ensure_replica_adds in He as [Hwf0 _]; [|by apply Hwf0..].
  specialize (Hwf0 Hwf).
  apply bind_inv in Hp as [([] & s1 & Hf & Hr)|[(e & Hf & _)|[Hf _]]];
    apply forward_walk_wf in Hf; try done.
  rewrite <-(app_nil_r (replica self)) in Hr.
  apply (reverse_frame_wf self [] s1 st'); [|done].
  by apply (reverse_walk_frame self Hroots n [] s1 r st' (not_elem_of_nil _)).
Qed.

Lemma sync_folders_wf n st st' :
  sync_folders self n st = Some st' → wf (fs st) → wf (fs st').
Proof.
  unfold sync_folders. destruct (sync_pass self n st) as [[[]|e|] st1] eqn:Hp;
    intros [= <-] Hwf; simpl; by apply (sync_pass_wf _ _ _ _ Hp).
Qed.


(** What a pass takes away from the replica had no mirror. *)
Lemma sync_pass_removes n st r st' y :
  wf (fs st) → sync_pass self n st = (r, st') →
  is_Some (fs st !! (replica self ++ y)) →
  fs st' !! (replica self ++ y) = None →
  exists_in (fs st) (source self ++ dotted y) = false.
Proof.
  destruct Hroots as (Hs & Hrc & Hsr & Hrs).
  unfold sync_pass. intros Hwf Hp Hin Hout.
  assert (∀ s0 r0, ensure_replica self st = (r0, s0) →
    wf (fs s0) ∧ is_Some (fs s0 !! (replica self ++ y)) ∧
    ∀ q, source self `prefix_of` q → fs s0 !! q = fs st !! q) as Hens.
  { intros s0 r0 [Hw Hq]%ensure_replica_adds. split; [by apply Hw|]. split.
    - destruct (Hq (replica self ++ y)) as [->|(_ & _ & ->)]; eauto.
    - intros q Hpre. destruct (Hq q) as [?|(Hpre' & _)]; [done|].
      destruct Hsr. by etrans. }
  assert (∀ s0 s1 r1, wf (fs s0) → is_Some (fs s0 !! (replica self ++ y)) →
    os_walk n (source self) (forward_body self) s0 = (r1, s1) →
    wf (fs s1) ∧ is_Some (fs s1 !! (replica self ++ y)) ∧
    ∀ q, source self `prefix_of` q → fs s1 !! q = fs s0 !! q) as Hfwd.
  { intros s0 s1 r1 Hw0 [e0 Hi0] Hf. rewrite <-(app_nil_r (source self)) in Hf.
    apply (forward_walk_frame self Hroots [] n (not_elem_of_nil _)) in Hf
      as (_ & _ & C & D & F).
    split; [by apply F|]. split; [|done].
    destruct (D _ _ Hi0) as (e' & -> & _). eauto. }
  apply bind_inv in Hp as [([] & s0 & He & Hp)|[(e & He & _)|[He _]]];
    apply Hens in He as (Hwf0 & Hin0 & Hsrc0);
    [|rewrite Hout in Hin0; by destruct Hin0..].
  apply bind_inv in Hp as [([] & s1 & Hf & Hr)|[(e & Hf & _)|[Hf _]]];
    apply Hfwd in Hf as (Hwf1 & Hin1 & Hsrc1); try done;
    [|rewrite Hout in Hin1; by destruct Hin1..].
  rewrite <-(app_nil_r (replica self)) in Hr.
  apply (reverse_walk_frame self Hroots n []) in Hr; [|apply not_elem_of_nil|done].
  destruct (Hr Hwf1) as (_ & _ & _ & B).
  rewrite <-(exists_in_source self Hroots (fs st) (fs s1)).
  - apply B. rewrite Hout. intros Heq. rewrite <-Heq in Hin1. by destruct Hin1.
  - intros q Hq. by rewrite Hsrc1, Hsrc0.
Qed.

(** Once a pass has changed nothing, no later cycle does. *)
Lemma run_steady F m :
  wf F → files_mirrored self F → dirs_mirrored self F → extras_mirrored self F →
  entry_at F (replica self) = Some Dir → depth F ≤ m →
  ∀ k st, fs st = F → cache_fresh st →
    ∃ st', run self k m st = Some st' ∧ fs st' = F ∧ log st' = log st ∧
           cache_fresh st'.
Proof.
  intros Hwf Hfiles Hdirs Hextras Hreplica Hm.
  induction k as [|k IH]; intros st HF Hc; [by exists st|].
  destruct (sync_pass self m st) as [r st1] eqn:Hp.
  destruct (quiet_sync_pass self F Hroots Hwf Hfiles Hdirs Hextras Hreplica
    false m ltac:(done) st r st1 HF Hc Hp) as (HF1 & Hl1 & Hc1 & Hr).
  destruct r as [[]|e|]; [|done..].
  destruct (IH st1 HF1 Hc1) as (st' & Hrun & HF' & Hl' & Hc').
  exists st'. split_and!; [|done|congruence|done].
  simpl. unfold sync_folders. rewrite Hp. done.
Qed.
End Cycles.

(** *** One file of the first walk *)

Lemma copy2_in_unreadable f src dst e :
  open_rb f src = inl e → ∃ e', copy2_in f src dst = inl e'.
Proof.
  intros Ho. unfold copy2_in. destruct (_ && _); [eauto|]. rewrite Ho. eauto.
Qed.

Lemma exists_in_open_rb f p q :
  exists_in f p = true → open_rb f p ≠ inl (FileNotFoundError q).
Proof.
  unfold exists_in, open_rb. by destruct (stat f p) as [|[]].
Qed.

Global Instance same_files_preorder : PreOrder same_files.
Proof.
  split; [by intros st|]. intros st1 st2 st3 [? ?] [? ?]. split; congruence.
Qed.

Section One_file.
Context `{Platform} (self : FolderSynchronizer).

Lemma calculate_md5_same_files p : preserves same_files (calculate_md5 p).
Proof. intros st r st' (? & ? & _)%calculate_md5_spec. by split. Qed.

(** X9. The body of the loop over the files of a source directory, for a
    file that is listed but cannot be opened because it is not there, and
    whose fingerprint is not cached: an exception is raised, whether the
    replica has the file or not; nothing is copied and nothing is logged. *)
Theorem copy_or_update_missing_source root replica_root file q st :
  md5_cache st !! (root ++ [file]) = None →
  open_rb (fs st) (root ++ [file]) = inl (FileNotFoundError q) →
  ∃ e st', copy_or_update root replica_root file st = (Raise e, st') ∧
    fs st' = fs st ∧ log st' = log st.
Proof.
  intros Hc Ho.
  assert (∀ s, fs s = fs st →
    ∃ e, copy2 (root ++ [file]) (replica_root ++ [file]) s = (Raise e, s)) as Hcopy.
  { intros s Hs. unfold copy2, lift_fs. rewrite Hs.
    destruct (copy2_in_unreadable (fs st) _ (replica_root ++ [file]) _ Ho) as [e' ->].
    eauto. }
  unfold copy_or_update, bind, path_exists.
  destruct (exists_in (fs st) (replica_root ++ [file])) eqn:Hex; simpl.
  - destruct (calculate_md5_failed st _ _ Hc Ho) as (r1 & -> & ->).
    destruct (calculate_md5 (replica_root ++ [file]) st) as [r2 s2] eqn:H2.
    pose proof (calculate_md5_spec _ _ _ _ H2) as (Hf2 & Hl2 & Hcase).
    destruct r2 as [[h|]|e|]; simpl.
    + destruct (Hcopy s2 Hf2) as [e' ->]. eauto.
    + exfalso. unfold calculate_md5 in H2.
      destruct (md5_cache st !! (replica_root ++ [file])); [done|].
      pose proof (λ q', exists_in_open_rb _ _ q' Hex) as Hne.
      destruct (open_rb (fs st) (replica_root ++ [file])) as [[q0| | | |]|]; try done.
      by destruct (Hne q0).
    + eauto.
    + by destruct (returns_calculate_md5 _ _ _ _ H2).
  - destruct (Hcopy st eq_refl) as [e' ->]. eauto.
Qed.

End One_file.


(** *** A replica directory that has no mirror *)

Lemma removed_child_missing (f : gmap path entry) (k : path) x :
  wf f → "." ∉ k → x ≠ "." → k ≠ [] → f !! k = Some Dir →
  stat (filter (λ ke : path * entry, ¬ k `prefix_of` ke.1) f) (k ++ [x])
  = inl (FileNotFoundError (k ++ [x])).
Proof.
  intros Hwf Hk Hx Hne Hdir.
  assert ("." ∉ k ++ [x]) as Hclean.
  { apply not_dot_app; [done|]. apply not_elem_of_cons. split; [done|apply not_elem_of_nil]. }
  rewrite stat_clean by done.
  rewrite entry_at_snoc, lookup_rmtree, decide_True by by apply prefix_app_r.
  unfold missing_error. rewrite canon_clean by done.
  destruct (existsb _ _) eqn:E; [|done]. exfalso.
  apply existsb_exists in E as (i & Hi%in_seq & Hfile).
  rewrite length_app in Hi. simpl in Hi.
  rewrite take_app_le in Hfile by lia.
  destruct (decide (i = length k)) as [->|Hlt].
  - rewrite take_ge, entry_at_lookup, lookup_rmtree, decide_True in Hfile by done.
    done.
  - assert (entry_at f (take i k) = Some Dir) as Hanc.
    { apply (wf_ancestor f (take i k) (drop i k) Dir); [done|by rewrite take_drop|].
      intros Hnil%(f_equal length). rewrite length_drop in Hnil. simpl in Hnil. lia. }
    destruct (take i k) as [|a p] eqn:Ht; [done|].
    rewrite entry_at_lookup, lookup_rmtree in Hfile by done.
    rewrite entry_at_lookup in Hanc by done.
    case_decide; [done|]. by rewrite Hanc in Hfile.
Qed.

Section Orphan.
Context `{Platform} (self : FolderSynchronizer).
Hypothesis Hroots : separate_roots self.

End Orphan.

(** *** A missing replica root *)

(** X12. When the replica root does not exist, the pass starts by creating
    it: either [os.makedirs] raises and the pass ends there with nothing
    logged, or the first record of the pass is [CreatedReplica] and all the
    records that follow are records of actions. *)
Theorem missing_replica_created_first `{Platform} self n st r st' :
  exists_in (fs st) (replica self) = false →
  sync_pass self n st = (r, st') →
  (∃ e, r = Raise e ∧ log st' = log st) ∨
  (∃ Δ, log st' = log st ++ CreatedReplica (replica self) :: Δ ∧
        Forall (λ rec, is_mutation rec = true) Δ).
Proof.
  intros Hex Hp. unfold sync_pass in Hp.
  apply bind_inv in Hp as [([] & s0 & He & Hp)|[(e & He & ->)|[He ->]]].
  - right. unfold ensure_replica, bind, path_exists in He. rewrite Hex in He.
    simpl in He.
    destruct (makedirs (replica self) st) as [[[]|e|] s] eqn:Hm; simplify_eq.
    apply makedirs_creates in Hm as (_ & Hl & _).
    apply walks_log_actions in Hp as (Δ & HΔ & Hall). exists Δ. split; [|done].
    apply log_operation_inv in He as [_ ->]. rewrite HΔ. simpl.
    by rewrite Hl, <-app_assoc.
  - left. exists e. split; [done|].
    unfold ensure_replica, bind, path_exists in He. rewrite Hex in He. simpl in He.
    destruct (makedirs (replica self) st) as [[[]|e'|] s] eqn:Hm; simplify_eq.
    by apply makedirs_creates in Hm as (_ & Hl & _).
  - by destruct (returns_ensure_replica _ _ _ _ He).
Qed.

(** *** What a call does, as a whole *)

(** X1. [sync_folders] terminates: when neither root lies inside the other,
    the two walks end although the trees change while they are walked, and
    the call returns, with an error record or without. With enough fuel the
    call has a result, the same for every larger fuel. *)
Theorem sync_folders_terminates `{Platform} (self : FolderSynchronizer) (st : state) :
  separate_roots self → wf (fs st) →
  ∃ N st', ∀ n, N ≤ n → sync_folders self n st = Some st'.
Proof. intros Hroots Hwf. by apply sync_folders_returns. Qed.

(** X3. Neither [sync_folders] nor [run] ever drops or changes a cached
    fingerprint: what [md5_cache] holds for a path before any number of
    cycles, it holds after them, whatever happened to the file. *)
Theorem md5_cache_only_grows `{Platform} (self : FolderSynchronizer)
    (k n : nat) (st st' : state) (p : path) (h : string) :
  run self k n st = Some st' →
  md5_cache st !! p = Some h → md5_cache st' !! p = Some h.
Proof. intros Hr. by apply (run_cache_grows self k n st st'). Qed.

(** X4. The loop of [calculate_md5] over [f.read(4096)]: the chunks given
    to [update], put end to end, are the content of the file; none is empty
    and none is longer than 4096 bytes. For the empty file there is no
    chunk, and the digest is that of the initial state. *)
Theorem read_chunks_whole_file `{Platform} (c : list byte) :
  concat (read_chunks (length c) c) = c ∧
  Forall (λ chunk, 0 < length chunk ≤ 4096) (read_chunks (length c) c) ∧
  file_md5 [] = hexdigest md5_new.
Proof.
  split_and!; [by apply read_chunks_concat|apply read_chunks_sizes|done].
Qed.





(** *** The properties above on the examples *)

Lemma sync_folders_terminates_witness :
  ∃ N st', ∀ n, N ≤ n → sync_folders sr n (fresh orphan_dir_fs) = Some st'.
Proof.
  apply (sync_folders_terminates sr (fresh orphan_dir_fs)).
  - exact separate_sr.
  - apply wf_check_sound. vm_compute; reflexivity.
Defined.


Lemma md5_cache_only_grows_witness :
  md5_cache outdated_1 !! ["s"; "f"] = Some "new" ∧
  run sr 2 5 outdated_1 = Some (default outdated_1 (run sr 2 5 outdated_1)) ∧
  md5_cache (default outdated_1 (run sr 2 5 outdated_1)) !! ["s"; "f"] = Some "new".
Proof.
  split; [vm_compute; reflexivity|]. split; [vm_compute; reflexivity|].
  apply (md5_cache_only_grows sr 2 5 outdated_1); vm_compute; reflexivity.
Defined.





Lemma copy_or_update_missing_source_witness :
  ∃ e st', copy_or_update ["s"] ["r"; "."] "f" (fresh vanished_fs) = (Raise e, st') ∧
    fs st' = fs (fresh vanished_fs) ∧ log st' = log (fresh vanished_fs).
Proof.
  apply (copy_or_update_missing_source ["s"] ["r"; "."] "f" ["s"; "f"]
           (fresh vanished_fs)); vm_compute; reflexivity.
Defined.



Lemma missing_replica_created_first_witness :
  (∃ e, (sync_pass sr 5 (fresh no_replica_fs)).1 = Raise e ∧
        log (sync_pass sr 5 (fresh no_replica_fs)).2 = log (fresh no_replica_fs)) ∨
  (∃ Δ, log (sync_pass sr 5 (fresh no_replica_fs)).2
        = log (fresh no_replica_fs) ++ CreatedReplica (replica sr) :: Δ ∧
        Forall (λ rec, is_mutation rec = true) Δ).
Proof.
  apply (missing_replica_created_first sr 5 (fresh no_replica_fs)).
  - vm_compute; reflexivity.
  - apply surjective_pairing.
Defined.

